(** * pytups.superdict: a shallow embedding of [SuperDict]

    [SuperDict] is a Python [dict] subclass.  Python dictionaries and lists
    are mutable objects with identity, so the embedding keeps an explicit
    store: a value is a scalar, a tuple or a reference into the store, and
    each method is a computation in a state-and-exception monad over that
    store.  Dictionaries remember insertion order, so a dictionary object is
    an association list with unique keys. *)

From Stdlib Require Import ZArith String Ascii Bool Lia Permutation.
From Stdlib Require Import DecimalString.
From stdpp Require Import base list.

Set Warnings "-register-all".
Open Scope Z_scope.
Open Scope nat_scope.
Open Scope list_scope.

(** ** Values *)

(** Store locations: an object's identity is its index in the store. *)
Abbreviation loc := nat.

(** Hashable values, the ones that can be dictionary keys. *)
Inductive key : Type :=
| KNone
| KInt (z : Z)
| KStr (s : string)
| KTuple (ks : list key).

(** Arbitrary values: [VRef] points to a dictionary or a list of the store. *)
Inductive val : Type :=
| VNone
| VInt (z : Z)
| VStr (s : string)
| VTuple (vs : list val)
| VRef (l : loc).

Fixpoint val_of_key (k : key) : val :=
  match k with
  | KNone => VNone
  | KInt z => VInt z
  | KStr s => VStr s
  | KTuple ks => VTuple (map val_of_key ks)
  end.

(** [hash(v)]: [None] stands for [TypeError: unhashable type]. *)
Fixpoint key_of_val (v : val) : option key :=
  match v with
  | VNone => Some KNone
  | VInt z => Some (KInt z)
  | VStr s => Some (KStr s)
  | VTuple vs =>
      option_map KTuple
        ((fix go (vs : list val) : option (list key) :=
            match vs with
            | [] => Some []
            | v :: vs' =>
                match key_of_val v, go vs' with
                | Some k, Some ks => Some (k :: ks)
                | _, _ => None
                end
            end) vs)
  | VRef _ => None
  end.

Fixpoint key_eqb (a b : key) : bool :=
  match a, b with
  | KNone, KNone => true
  | KInt x, KInt y => Z.eqb x y
  | KStr s, KStr t => String.eqb s t
  | KTuple xs, KTuple ys =>
      (fix go (xs ys : list key) : bool :=
         match xs, ys with
         | [], [] => true
         | x :: xs', y :: ys' => key_eqb x y && go xs' ys'
         | _, _ => false
         end) xs ys
  | _, _ => false
  end.

#[global] Instance key_eq_dec : EqDecision key.
Proof.
  unfold EqDecision, Decision. fix IH 1. intros a b.
  decide equality;
    [apply Z.eq_dec | apply string_dec | apply (List.list_eq_dec IH)].
Defined.

(** ** Objects and the store *)

Inductive cls : Type := CDict | CSuperDict.

Inductive obj : Type :=
| ODict (c : cls) (items : list (key * val))
| OList (elems : list val).

Abbreviation heap := (list obj).

(** ** Dictionary contents: insertion-ordered association lists *)

Section Assoc.
Context {V : Type}.

Fixpoint dict_get (k : key) (es : list (key * V)) : option V :=
  match es with
  | [] => None
  | (k', v) :: es' => if key_eqb k k' then Some v else dict_get k es'
  end.

Definition dict_mem (k : key) (es : list (key * V)) : bool :=
  match dict_get k es with Some _ => true | None => false end.

(** [d[k] = v]: an existing key keeps its position, a new key goes last. *)
Fixpoint dict_set (k : key) (v : V) (es : list (key * V)) : list (key * V) :=
  match es with
  | [] => [(k, v)]
  | (k', v') :: es' =>
      if key_eqb k k' then (k, v) :: es' else (k', v') :: dict_set k v es'
  end.

(** The built-in [d.update(other)] on contents. *)
Definition dict_update_all (es other : list (key * V)) : list (key * V) :=
  fold_left (fun acc kv => dict_set kv.1 kv.2 acc) other es.

End Assoc.

(** ** The monad: store passing with exceptions *)

Inductive exn : Type :=
| KeyError (ks : list key)
| TypeError
| IndexError
| ValueError
| RuntimeError
| RecursionError
| SystemError.

Inductive outcome (A : Type) : Type :=
| Ok (a : A)
| Raise (e : exn).
Arguments Ok {A} a.
Arguments Raise {A} e.

Definition M (A : Type) : Type := heap -> outcome A * heap.

Definition ret {A} (a : A) : M A := fun h => (Ok a, h).
Definition raise {A} (e : exn) : M A := fun h => (Raise e, h).
Definition bind {A B} (m : M A) (f : A -> M B) : M B :=
  fun h => match m h with
           | (Ok a, h') => f a h'
           | (Raise e, h') => (Raise e, h')
           end.

Declare Scope py_scope.
Delimit Scope py_scope with py.
Notation "x <- m ;; k" := (bind m (fun x => k))
  (at level 100, m at next level, right associativity) : py_scope.
Notation "m ;;; k" := (bind m (fun _ => k))
  (at level 100, right associativity) : py_scope.
Open Scope py_scope.

(** [for x in xs: body(x)] over an immutable sequence. *)
Fixpoint for_each {A} (xs : list A) (body : A -> M unit) : M unit :=
  match xs with
  | [] => ret tt
  | x :: xs' => body x ;;; for_each xs' body
  end.

(** ** Primitive operations on the store *)

Definition alloc (o : obj) : M loc := fun h => (Ok (length h), h ++ [o]).

Definition deref (l : loc) : M obj :=
  fun h => match h !! l with
           | Some o => (Ok o, h)
           | None => (Raise SystemError, h)
           end.

(** The contents of the dictionary at [l]. *)
Definition get_items (l : loc) : M (list (key * val)) :=
  o <- deref l ;;
  match o with
  | ODict _ es => ret es
  | OList _ => raise SystemError
  end.

(** [d[k] = v] on the dictionary object at [l]. *)
Definition set_item (l : loc) (k : key) (v : val) : M unit :=
  fun h => match h !! l with
           | Some (ODict c es) => (Ok tt, <[l := ODict c (dict_set k v es)]> h)
           | _ => (Raise SystemError, h)
           end.

(** [d[k]] on the dictionary object at [l]. *)
Definition get_item (l : loc) (k : key) : M val :=
  es <- get_items l ;;
  match dict_get k es with
  | Some v => ret v
  | None => raise (KeyError [k])
  end.

(** [isinstance(v, dict)] and [isinstance(v, SuperDict)]. *)
Definition is_dict (h : heap) (v : val) : bool :=
  match v with
  | VRef l => match h !! l with Some (ODict _ _) => true | _ => false end
  | _ => false
  end.

Definition is_superdict (h : heap) (v : val) : bool :=
  match v with
  | VRef l => match h !! l with Some (ODict CSuperDict _) => true | _ => false end
  | _ => false
  end.

Definition isinstance_dict (v : val) : M bool := fun h => (Ok (is_dict h v), h).
Definition isinstance_superdict (v : val) : M bool :=
  fun h => (Ok (is_superdict h v), h).

(** [for key, value in d.items(): body(key, value)] on the dictionary object
    at [l].  A dictionary iterator walks the entries by position and, each
    time it is asked for the next entry, first checks that the size is still
    the one it started with ([RuntimeError: dictionary changed size during
    iteration]); a value overwritten by the body is seen with its new
    content. *)
Fixpoint for_items_from (n i len : nat) (l : loc)
    (body : key -> val -> M unit) : M unit :=
  es <- get_items l ;;
  if negb (length es =? len) then raise RuntimeError
  else match es !! i, n with
       | Some (k, v), S n' => body k v ;;; for_items_from n' (S i) len l body
       | _, _ => ret tt
       end.

Definition for_items (l : loc) (body : key -> val -> M unit) : M unit :=
  es <- get_items l ;;
  for_items_from (length es) 0 (length es) l body.

(** [k in d] on the dictionary object at [l]. *)
Definition contains (l : loc) (k : key) : M bool :=
  es <- get_items l ;; ret (dict_mem k es).

(** [lst.append(x)]. *)
Definition list_append (lst : val) (x : val) : M unit :=
  fun h => match lst with
           | VRef l =>
               match h !! l with
               | Some (OList xs) => (Ok tt, <[l := OList (xs ++ [x])]> h)
               | _ => (Raise SystemError, h)
               end
           | _ => (Raise SystemError, h)
           end.

Definition chars (s : string) : list string :=
  map (fun c => String c EmptyString) (list_ascii_of_string s).

(** [xs[z]] on a sequence, with Python's negative indices. *)
Definition seq_index {A} (xs : list A) (z : Z) : option A :=
  let n := Z.of_nat (length xs) in
  if (0 <=? z)%Z then xs !! Z.to_nat z
  else if (- n <=? z)%Z then xs !! Z.to_nat (z + n)
  else None.

(** [d[i]] for an arbitrary receiver [d]. *)
Definition subscript (d i : val) : M val :=
  match d with
  | VRef l =>
      o <- deref l ;;
      match o with
      | ODict _ es =>
          match key_of_val i with
          | None => raise TypeError
          | Some k =>
              match dict_get k es with
              | Some v => ret v
              | None => raise (KeyError [k])
              end
          end
      | OList xs =>
          match i with
          | VInt z =>
              match seq_index xs z with
              | Some v => ret v
              | None => raise IndexError
              end
          | _ => raise TypeError
          end
      end
  | VTuple xs =>
      match i with
      | VInt z =>
          match seq_index xs z with
          | Some v => ret v
          | None => raise IndexError
          end
      | _ => raise TypeError
      end
  | VStr s =>
      match i with
      | VInt z =>
          match seq_index (chars s) z with
          | Some c => ret (VStr c)
          | None => raise IndexError
          end
      | _ => raise TypeError
      end
  | VNone | VInt _ => raise TypeError
  end.

(** [iter(v)]: the elements a [for] loop over [v] goes through. *)
Definition iter_val (v : val) : M (list val) :=
  match v with
  | VRef l =>
      o <- deref l ;;
      match o with
      | OList xs => ret xs
      | ODict _ es => ret ((fun kv => val_of_key kv.1) <$> es)
      end
  | VTuple xs => ret xs
  | VStr s => ret (VStr <$> chars s)
  | VNone | VInt _ => raise TypeError
  end.

(** [hash(v)], needed wherever [v] becomes a key or a set element. *)
Definition hash (v : val) : M key :=
  match key_of_val v with
  | Some k => ret k
  | None => raise TypeError
  end.

(** [try: m except KeyError: handler]. *)
Definition except_KeyError {A} (m handler : M A) : M A :=
  fun h => match m h with
           | (Raise (KeyError _), h') => handler h'
           | r => r
           end.

(** The built-in [dict.update(a)] on the contents [es] of the receiver: [a]
    is a mapping, or an iterable of two-element sequences. *)
Definition pair_of (v : val) : M (key * val) :=
  xs <- iter_val v ;;
  match xs with
  | [a; b] => k <- hash a ;; ret (k, b)
  | _ => raise ValueError
  end.

Fixpoint pairs_of (vs : list val) : M (list (key * val)) :=
  match vs with
  | [] => ret []
  | v :: vs' => p <- pair_of v ;; ps <- pairs_of vs' ;; ret (p :: ps)
  end.

Definition dict_update_from (es : list (key * val)) (a : val)
    : M (list (key * val)) :=
  b <- isinstance_dict a ;;
  if b then
    match a with
    | VRef l => other <- get_items l ;; ret (dict_update_all es other)
    | _ => raise SystemError
    end
  else
    vs <- iter_val a ;;
    ps <- pairs_of vs ;;
    ret (dict_update_all es ps).

(** [len(v)]. *)
Definition len_val (v : val) : M val :=
  match v with
  | VStr s => ret (VInt (Z.of_nat (length (chars s))))
  | VTuple xs => ret (VInt (Z.of_nat (length xs)))
  | VRef l =>
      o <- deref l ;;
      match o with
      | ODict _ es => ret (VInt (Z.of_nat (length es)))
      | OList xs => ret (VInt (Z.of_nat (length xs)))
      end
  | VNone | VInt _ => raise TypeError
  end.

(** [d[i] = v] for an arbitrary receiver [d]. *)
Definition store_subscript (d i v : val) : M unit :=
  match d with
  | VRef l =>
      o <- deref l ;;
      match o with
      | ODict _ _ => k <- hash i ;; set_item l k v
      | OList xs =>
          match i with
          | VInt z =>
              let n := Z.of_nat (length xs) in
              let pos := if (0 <=? z)%Z then z else (z + n)%Z in
              if ((0 <=? pos) && (pos <? n))%Z
              then fun h => (Ok tt, <[l := OList (<[Z.to_nat pos := v]> xs)]> h)
              else raise IndexError
          | _ => raise TypeError
          end
      end
  | VNone | VInt _ | VStr _ | VTuple _ => raise TypeError
  end.

(** [SuperDict({.. for key, value in self.items() ..})]: the comprehension
    fills a new plain dictionary while it walks the live receiver, then
    [SuperDict(..)] copies that dictionary. *)
Definition comp_items (self : loc) (entry : loc -> key -> val -> M unit)
    : M val :=
  tmp <- alloc (ODict CDict []) ;;
  for_items self (entry tmp) ;;;
  es <- get_items tmp ;;
  r <- alloc (ODict CSuperDict es) ;;
  ret (VRef r).

(** ** The methods of [SuperDict] *)

Module SuperDict.

Section Methods.

(** [numpy.setdiff1d(ar1, ar2)] is library code: it makes an array of each
    argument and returns "the unique values in [ar1] that are not in [ar2]",
    or raises when an argument is no array.  [list(set(xs))] lists the
    distinct elements of [xs] in an order Python does not specify.  Both are
    parameters. *)
Variable setdiff1d : list key -> list key -> outcome (list key).
Variable set_order : list key -> list key.

(** [filter]'s [indices] is a list of keys or a single key. *)
Inductive indices_arg : Type :=
| IList (ks : list key)
| IScalar (k : key).

(** [{k: self[k] for k in indices if k in self}] *)
Fixpoint comp_present (self : loc) (ks : list key) (acc : list (key * val))
    : M (list (key * val)) :=
  match ks with
  | [] => ret acc
  | k :: ks' =>
      b <- contains self k ;;
      if b then v <- get_item self k ;; comp_present self ks' (dict_set k v acc)
      else comp_present self ks' acc
  end.

(** [{k: self[k] for k in indices}] *)
Fixpoint comp_getitem (self : loc) (ks : list key) (acc : list (key * val))
    : M (list (key * val)) :=
  match ks with
  | [] => ret acc
  | k :: ks' => v <- get_item self k ;; comp_getitem self ks' (dict_set k v acc)
  end.

Definition filter (self : loc) (indices : indices_arg) (check : bool) : M val :=
  let indices :=
    match indices with IList ks => ks | IScalar k => [k] end in
  if negb check then
    es <- comp_present self indices [] ;;
    r <- alloc (ODict CSuperDict es) ;; ret (VRef r)
  else
    keys <- get_items self ;;
    match setdiff1d indices keys.*1 with
    | Raise e => raise e
    | Ok bad_elem =>
        if 0 <? length bad_elem then raise (KeyError bad_elem)
        else
          es <- comp_getitem self indices [] ;;
          r <- alloc (ODict CSuperDict es) ;; ret (VRef r)
    end.

(** [*tup]: argument unpacking iterates over [tup], whatever it is. *)
Definition unpack (tup : key) : M (list key) :=
  match tup with
  | KTuple ks => ret ks
  | KStr s => ret (KStr <$> chars s)
  | KNone | KInt _ => raise TypeError
  end.

Fixpoint set_m (self : loc) (args : list key) (value : val) : M val :=
  match args with
  | [] => raise IndexError
  | elem :: rest =>
      match rest with
      | [] => set_item self elem value ;;; ret (VRef self)
      | _ :: _ =>
          present <- contains self elem ;;
          keep <- (if present
                   then cur <- get_item self elem ;; isinstance_superdict cur
                   else ret false) ;;
          (if keep then ret tt
           else d <- alloc (ODict CSuperDict []) ;; set_item self elem (VRef d)) ;;;
          sub <- get_item self elem ;;
          match sub with
          | VRef l => set_m l rest value ;;; ret (VRef self)
          | _ => raise SystemError
          end
      end
  end.

Definition to_dictdict (self : loc) : M val :=
  dictdict <- alloc (ODict CSuperDict []) ;;
  for_items self (fun tup value =>
    args <- unpack tup ;;
    set_m dictdict args value ;;; ret tt) ;;;
  ret (VRef dictdict).

Fixpoint dicts_to_tup (fuel : nat) (self : loc) (keys : list key)
    (content : val) : M val :=
  match fuel with
  | 0 => raise RecursionError
  | S fuel' =>
      b <- isinstance_dict content ;;
      if negb b then set_item self (KTuple keys) content ;;; ret (VRef self)
      else
        match content with
        | VRef c =>
            for_items c (fun key value =>
              dicts_to_tup fuel' self (keys ++ [key]) value ;;; ret tt) ;;;
            ret (VRef self)
        | _ => raise SystemError
        end
  end.

Definition to_dictup (fuel : nat) (self : loc) : M val :=
  out <- alloc (ODict CSuperDict []) ;;
  dicts_to_tup fuel out [] (VRef self).

(** [val for l in self.values() for val in l], each one hashed as it enters
    the set. *)
Fixpoint hash_all (xs : list val) : M (list key) :=
  match xs with
  | [] => ret []
  | x :: xs' => k <- hash x ;; ks <- hash_all xs' ;; ret (k :: ks)
  end.

Fixpoint gather (values : list val) : M (list key) :=
  match values with
  | [] => ret []
  | l :: rest =>
      xs <- iter_val l ;;
      ks <- hash_all xs ;;
      ks' <- gather rest ;;
      ret (ks ++ ks')
  end.

(** [{k: [] for k in new_keys}]: one new list object per key. *)
Fixpoint comp_empty_lists (ks : list key) (acc : list (key * val))
    : M (list (key * val)) :=
  match ks with
  | [] => ret acc
  | k :: ks' =>
      l <- alloc (OList []) ;; comp_empty_lists ks' (dict_set k (VRef l) acc)
  end.

(** The inner loop appends to the lists made by the comprehension just
    above, never to the list [v] it goes through, so the elements of [v] are
    read once. *)
Definition list_reverse (self : loc) : M val :=
  es <- get_items self ;;
  elems <- gather es.*2 ;;
  let new_keys := set_order elems in
  entries <- comp_empty_lists new_keys [] ;;
  dict_out <- alloc (ODict CSuperDict entries) ;;
  for_items self (fun k v =>
    els <- iter_val v ;;
    for_each els (fun el =>
      lst <- subscript (VRef dict_out) el ;;
      list_append lst (val_of_key k))) ;;;
  ret (VRef dict_out).

Definition fill_with_default (self : loc) (keys : list key) (default : val)
    : M val :=
  let _dict := fold_left (fun acc k => dict_set k default acc) keys [] in
  es <- get_items self ;;
  let _dict := dict_update_all _dict es in
  r <- alloc (ODict CSuperDict _dict) ;; ret (VRef r).

Fixpoint descend (d : val) (args : list val) : M val :=
  match args with
  | [] => ret d
  | i :: rest => d' <- subscript d i ;; descend d' rest
  end.

Definition get_m (self : loc) (args : list val) : M val :=
  except_KeyError (descend (VRef self) args) (ret VNone).

(** [update]: [other] is a local dictionary that never escapes the call, so
    only its contents are kept.  [update_entry] is the body of the loop over
    [other.items()]; there [self[k].update(v)] dispatches on the class of
    [self[k]]: the method itself ([rec]) for a [SuperDict], the built-in
    shallow [dict.update] for a plain [dict]. *)
Definition update_entry (rec : loc -> list val -> list (string * val) -> M val)
    (self : loc) (kv : key * val) : M unit :=
  let k := kv.1 in
  let v := kv.2 in
  present <- contains self k ;;
  merge <- (if present
            then cur <- get_item self k ;;
                 b1 <- isinstance_dict cur ;;
                 b2 <- isinstance_dict v ;;
                 ret (b1 && b2)
            else ret false) ;;
  if negb merge then set_item self k v
  else
    cur <- get_item self k ;;
    match cur with
    | VRef l =>
        o <- deref l ;;
        match o with
        | ODict CSuperDict _ => rec l [v] [] ;;; ret tt
        | ODict CDict es =>
            es' <- dict_update_from es v ;;
            fun h => (Ok tt, <[l := ODict CDict es']> h)
        | OList _ => raise SystemError
        end
    | _ => raise SystemError
    end.

Fixpoint update (fuel : nat) (self : loc) (args : list val)
    (kwargs : list (string * val)) : M val :=
  match fuel with
  | 0 => raise RecursionError
  | S fuel' =>
      other <- match args with
               | [] => ret []
               | [a] => dict_update_from [] a
               | _ :: _ :: _ => raise TypeError
               end ;;
      let other :=
        dict_update_all other ((fun kv => (KStr kv.1, kv.2)) <$> kwargs) in
      for_each other (update_entry (update fuel') self) ;;;
      ret VNone
  end.

Fixpoint from_dict (fuel : nat) (data : val) : M val :=
  match fuel with
  | 0 => raise RecursionError
  | S fuel' =>
      b <- isinstance_dict data ;;
      if negb b then ret data
      else
        match data with
        | VRef l =>
            es <- get_items l ;;
            data <- alloc (ODict CSuperDict es) ;;
            for_items data (fun key value =>
              v <- from_dict fuel' value ;; set_item data key v) ;;;
            ret (VRef data)
        | _ => raise SystemError
        end
  end.

Definition _update (fuel : nat) (self : loc) (dict : val) : M val :=
  temp_dict <- from_dict fuel (VRef self) ;;
  match temp_dict with
  | VRef t => update fuel t [dict] [] ;;; ret temp_dict
  | _ => raise SystemError
  end.

(** [list(self.keys())], [list(self.values())] and [len(self)]. *)
Definition keys_l (self : loc) : M val :=
  es <- get_items self ;;
  l <- alloc (OList ((fun kv => val_of_key kv.1) <$> es)) ;;
  ret (VRef l).

Definition values_l (self : loc) : M val :=
  es <- get_items self ;;
  l <- alloc (OList es.*2) ;;
  ret (VRef l).

Definition len (self : loc) : M val :=
  es <- get_items self ;;
  ret (VInt (Z.of_nat (length es))).

(** [a == b] is the language's comparison; on lists and dictionaries it
    goes through the store, and it can raise.  It is a parameter.  For the
    values of this model [a != b] is its negation. *)
Variable py_eq : val -> val -> M bool.

Definition py_ne (a b : val) : M bool := r <- py_eq a b ;; ret (negb r).

(** [x in xs] on the elements of a list or tuple: the search ends at the
    first element equal to [x]. *)
Fixpoint contains_elem (x : val) (xs : list val) : M bool :=
  match xs with
  | [] => ret false
  | e :: xs' => b <- py_eq e x ;; if b then ret true else contains_elem x xs'
  end.

(** [x in container]: a key of a dictionary, an element of a list or
    tuple, a substring of a string. *)
Definition py_in (x container : val) : M bool :=
  match container with
  | VRef l =>
      o <- deref l ;;
      match o with
      | ODict _ es => k <- hash x ;; ret (dict_mem k es)
      | OList xs => contains_elem x xs
      end
  | VTuple xs => contains_elem x xs
  | VStr s =>
      match x with
      | VStr p =>
          ret (match String.index 0 p s with Some _ => true | None => false end)
      | _ => raise TypeError
      end
  | VNone | VInt _ => raise TypeError
  end.

(** [clean]: [func], when given, is the caller's function followed by the
    truth test of the comprehension's [if]. *)
Definition clean (self : loc) (default_value : val)
    (func : option (val -> M bool)) : M val :=
  let func :=
    match func with
    | None => fun x => py_ne x default_value
    | Some f => f
    end in
  comp_items self (fun tmp key value =>
    keep <- func value ;;
    if keep then set_item tmp key value else ret tt).

Definition get_property (self : loc) (property : val) : M val :=
  comp_items self (fun tmp key value =>
    has <- py_in property value ;;
    if has then v <- subscript value property ;; set_item tmp key v
    else ret tt).

(** [apply] and [vapply]: [func] is the caller's function with the extra
    arguments of the call already supplied. *)
Definition apply (self : loc) (func : val -> val -> M val) : M val :=
  comp_items self (fun tmp k v =>
    r <- func (val_of_key k) v ;; set_item tmp k r).

Definition vapply (self : loc) (func : val -> M val) : M val :=
  comp_items self (fun tmp k v => r <- func v ;; set_item tmp k r).

Definition to_lendict (self : loc) : M val := vapply self len_val.

(** [index_by_property] and [index_by_part_of_tuple]: in
    [{v[property]: {} for v in self.values()}] the empty dictionary is
    created before the key is hashed and stored. *)
Definition index_by_property (fuel : nat) (self : loc) (property : val)
    (get_list : bool) : M val :=
  ks <- keys_l self ;;
  el <- subscript ks (VInt 0) ;;
  first <- subscript (VRef self) el ;;
  has <- py_in property first ;;
  if negb has then raise IndexError
  else
    result <- alloc (ODict CDict []) ;;
    for_items self (fun _ v =>
      p <- subscript v property ;;
      e <- alloc (ODict CDict []) ;;
      kp <- hash p ;;
      set_item result kp (VRef e)) ;;;
    for_items self (fun k v =>
      p <- subscript v property ;;
      d <- subscript (VRef result) p ;;
      store_subscript d (val_of_key k) v) ;;;
    result <- from_dict fuel (VRef result) ;;
    if get_list then
      match result with
      | VRef r => values_l r
      | _ => raise SystemError
      end
    else ret result.

Definition index_by_part_of_tuple (fuel : nat) (self : loc) (position : Z)
    (get_list : bool) : M val :=
  ks <- keys_l self ;;
  el <- subscript ks (VInt 0) ;;
  n <- len_val el ;;
  match n with
  | VInt n =>
      if (n <=? position)%Z then raise IndexError
      else
        result <- alloc (ODict CDict []) ;;
        for_items self (fun k _ =>
          p <- subscript (val_of_key k) (VInt position) ;;
          e <- alloc (ODict CDict []) ;;
          kp <- hash p ;;
          set_item result kp (VRef e)) ;;;
        for_items self (fun k v =>
          p <- subscript (val_of_key k) (VInt position) ;;
          d <- subscript (VRef result) p ;;
          store_subscript d (val_of_key k) v) ;;;
        result <- from_dict fuel (VRef result) ;;
        if get_list then
          match result with
          | VRef r => values_l r
          | _ => raise SystemError
          end
        else ret result
  | _ => raise SystemError
  end.

End Methods.

End SuperDict.

(** ** Specification vocabulary *)

(** The contents of [es] restricted to the keys [ks], entered in the order of
    [ks] after the entries of [acc]. *)
Definition restrict_to (es : list (key * val)) (ks : list key)
    (acc : list (key * val)) : list (key * val) :=
  fold_left
    (fun acc k =>
       match dict_get k es with Some v => dict_set k v acc | None => acc end)
    ks acc.

(** *** [numpy.setdiff1d] on lists of keys

    What [numpy.setdiff1d] (numpy 1.24 and later) does with two lists of
    keys.  [np.asarray] takes a tuple for a row of the array, so the array
    of a list of tuples holds their components, and elements of different
    shapes make no array ([ValueError]).  The elements of an array have one
    type: with a [None] among them the array holds the objects as they are;
    otherwise, with a string among them, every integer becomes its decimal
    string and every string loses the NUL characters at its end.  [unique]
    flattens and sorts the array and drops the duplicates; objects are
    sorted with Python's [<], which [None] does not have ([TypeError]).
    The result is the first array without the elements equal to one of the
    second.

    Integers are taken to fit 64 bits.  An array of integers and an array of
    strings are compared element by element, as numpy does when the second
    array is short (fewer than ten elements always are): no element of the
    one equals an element of the other. *)

(** The shape [np.asarray] finds for a key: none for a scalar, the length of
    a tuple before the shape its components share; [None] when they share
    none. *)
Fixpoint np_shape (k : key) : option (list nat) :=
  match k with
  | KTuple ks =>
      match ks with
      | [] => Some [0]
      | k0 :: ks' =>
          match np_shape k0 with
          | Some s =>
              if forallb (fun k' => bool_decide (np_shape k' = Some s)) ks'
              then Some (length ks :: s)
              else None
          | None => None
          end
      end
  | _ => Some []
  end.

(** [ravel]: the scalars of a key, row by row. *)
Fixpoint np_ravel (k : key) : list key :=
  match k with
  | KTuple ks => flat_map np_ravel ks
  | _ => [k]
  end.

Inductive dtype : Type := DFloat | DInt | DStr | DObject.

Definition is_none (k : key) : bool :=
  match k with KNone => true | _ => false end.

Definition is_str (k : key) : bool :=
  match k with KStr _ => true | _ => false end.

(** The type of the array of some scalars; the empty array is one of
    floats. *)
Definition np_dtype (xs : list key) : dtype :=
  if existsb is_none xs then DObject
  else if existsb is_str xs then DStr
  else match xs with [] => DFloat | _ => DInt end.

(** A string without the NUL characters at its end. *)
Fixpoint strip_nul (s : string) : string :=
  match s with
  | EmptyString => EmptyString
  | String c s' =>
      match strip_nul s' with
      | EmptyString =>
          if Ascii.eqb c Ascii.zero then EmptyString else String c EmptyString
      | t => String c t
      end
  end.

(** [str(z)] *)
Definition str_of_int (z : Z) : string := NilZero.string_of_int (Z.to_int z).

(** A scalar as an element of an array of type [d]. *)
Definition np_cast (d : dtype) (k : key) : key :=
  match d, k with
  | DStr, KInt z => KStr (str_of_int z)
  | DStr, KStr s => KStr (strip_nul s)
  | _, _ => k
  end.

(** The order of an array of integers, and of one of strings (by code
    point). *)
Definition key_leb (a b : key) : bool :=
  match a, b with
  | KInt x, KInt y => (x <=? y)%Z
  | KStr s, KStr t => String.leb s t
  | _, _ => true
  end.

Fixpoint sorted_insert (x : key) (l : list key) : list key :=
  match l with
  | [] => [x]
  | y :: l' => if key_leb x y then x :: l else y :: sorted_insert x l'
  end.

Definition np_sort (l : list key) : list key := foldr sorted_insert [] l.

(** [np.unique(xs)] *)
Definition np_unique (xs : list key) : outcome (list key) :=
  match np_shape (KTuple xs) with
  | None => Raise ValueError
  | Some _ =>
      let flat := flat_map np_ravel xs in
      match np_dtype flat with
      | DObject =>
          match flat with
          | [_] => Ok flat
          | _ => Raise TypeError
          end
      | d => Ok (np_sort (remove_dups (np_cast d <$> flat)))
      end
  end.

(** [np.setdiff1d(ar1, ar2)] *)
Definition setdiff1d_ref (ar1 ar2 : list key) : outcome (list key) :=
  match np_unique ar1 with
  | Raise e => Raise e
  | Ok a1 =>
      match np_unique ar2 with
      | Raise e => Raise e
      | Ok a2 => Ok (list_difference a1 a2)
      end
  end.

(** The keys that are no tuples. *)
Definition np_scalar (k : key) : bool :=
  match k with KTuple _ => false | _ => true end.

(** Keys that an array holds as they are: the integers of 64 bits, and the
    strings that do not end with a NUL character. *)
Definition np_int (k : key) : bool :=
  match k with
  | KInt z => (- 2 ^ 63 <=? z)%Z && (z <? 2 ^ 63)%Z
  | _ => false
  end.

Definition np_str (k : key) : bool :=
  match k with
  | KStr s => String.eqb (strip_nul s) s
  | _ => false
  end.

(** Lists of keys of one kind: all integers or all strings. *)
Definition one_kind (ks : list key) : bool :=
  forallb np_int ks || forallb np_str ks.

(** A function with the contract of [list(set(xs))], to run examples. *)
Definition set_order_ref (xs : list key) : list key := remove_dups xs.

(** A later store in which every dictionary of the earlier one is still a
    dictionary of the same class, with at least the keys it had. *)
Definition heap_grows (h h' : heap) : Prop :=
  forall l c es,
    h !! l = Some (ODict c es) ->
    exists es', h' !! l = Some (ODict c es') /\ es.*1 ⊆ es'.*1.

(** The pure content of a mapping whose values are lists of hashable
    elements: [src] pairs each key with the elements of its list. *)
Definition lists_view (h : heap) (es : list (key * val))
    (src : list (key * list key)) : Prop :=
  Forall2
    (fun kv s =>
       kv.1 = s.1 /\
       exists l, kv.2 = VRef l /\ h !! l = Some (OList (val_of_key <$> s.2)))
    es src.

(** The (key, element) pairs of [src], in iteration order, and the keys
    paired with the element [e] among them. *)
Definition key_elem_pairs (src : list (key * list key)) : list (key * key) :=
  s ← src; (fun el => (s.1, el)) <$> s.2.

Definition keys_for (pairs : list (key * key)) (e : key) : list key :=
  (filter (fun p => p.2 = e) pairs).*1.

(** The store [list_reverse] builds on top of [h]: one list per new key,
    holding the keys paired with it so far, then the output dictionary. *)
Definition inverted_store (h : heap) (new_keys : list key)
    (pairs : list (key * key)) : heap :=
  h ++ ((fun e => OList (val_of_key <$> keys_for pairs e)) <$> new_keys)
    ++ [ODict CSuperDict (imap (fun j e => (e, VRef (length h + j))) new_keys)].

(** The spec's wording for the inverse: "the original keys whose value list
    contained [e]", each once, in iteration order. *)
Definition keys_containing (src : list (key * list key)) (e : key) : list key :=
  (filter (fun s => e ∈ s.2) src).*1.

(** ** Trees of dictionaries in the store *)

(** A nested dictionary whose sub-dictionaries are owned by it: [FNode l ch]
    is the dictionary object at [l], [ch] its entries in order; a leaf is any
    value that is not a dictionary. *)
Inductive ftree : Type :=
| FLeaf (v : val)
| FNode (l : loc) (children : list (key * ftree)).

Definition root (t : ftree) : val :=
  match t with FLeaf v => v | FNode l _ => VRef l end.

Definition items_of (ch : list (key * ftree)) : list (key * val) :=
  (fun kt => (kt.1, root kt.2)) <$> ch.

(** The dictionary objects of a tree, and its depth. *)
Fixpoint locs (t : ftree) : list loc :=
  match t with
  | FLeaf _ => []
  | FNode l ch => l :: (ch ≫= fun kt => locs kt.2)
  end.

Fixpoint depth (t : ftree) : nat :=
  match t with
  | FLeaf _ => 0
  | FNode _ ch => S (max_list_with (fun kt => depth kt.2) ch)
  end.

(** [realized n0 h t]: the store [h] holds the tree [t].  Its dictionaries
    are [SuperDict]s at locations from [n0] on, its leaves are not
    dictionaries and refer to locations below [n0] only. *)
Inductive realized (n0 : loc) (h : heap) : ftree -> Prop :=
| realized_leaf v :
    is_dict h v = false ->
    (forall l, v = VRef l -> l < n0) ->
    realized n0 h (FLeaf v)
| realized_node l ch :
    n0 <= l ->
    h !! l = Some (ODict CSuperDict (items_of ch)) ->
    NoDup ch.*1 ->
    Forall (fun kt => realized n0 h kt.2) ch ->
    realized n0 h (FNode l ch).

(** [set_m] on trees: the entries after setting [value] at the path [args],
    and the next free location, when the store has [n] objects before the
    call. *)
Fixpoint fset (n : loc) (ch : list (key * ftree)) (args : list key)
    (value : val) : list (key * ftree) * loc :=
  match args with
  | [] => (ch, n)
  | elem :: rest =>
      match rest with
      | [] => (dict_set elem (FLeaf value) ch, n)
      | _ :: _ =>
          match dict_get elem ch with
          | Some (FNode l sub) =>
              let r := fset n sub rest value in
              (dict_set elem (FNode l r.1) ch, r.2)
          | _ =>
              let r := fset (S n) [] rest value in
              (dict_set elem (FNode n r.1) ch, r.2)
          end
      end
  end.

(** The leaves of a tree with their paths, and [dicts_to_tup] on trees: the
    entries added for the tree [t] reached with the keys [keys]. *)
Fixpoint tleaves (t : ftree) : list (list key * val) :=
  match t with
  | FLeaf v => [([], v)]
  | FNode _ ch => ch ≫= fun kt => (fun pv => (kt.1 :: pv.1, pv.2)) <$> tleaves kt.2
  end.

Fixpoint tflat (keys : list key) (t : ftree) : list (key * val) :=
  match t with
  | FLeaf v => [(KTuple keys, v)]
  | FNode _ ch => ch ≫= fun kt => tflat (keys ++ [kt.1]) kt.2
  end.

(** A mapping whose keys are the tuples of [paths]. *)
Definition tuple_items (paths : list (list key * val)) : list (key * val) :=
  (fun pv => (KTuple pv.1, pv.2)) <$> paths.

(** The paths are distinct and none is a prefix of another one. *)
Definition prefix_free (ps : list (list key)) : Prop :=
  NoDup ps /\ forall p q, p ∈ ps -> q ∈ ps -> p `prefix_of` q -> p = q.

(** [to_dictdict]'s loop on trees: one [fset] per entry, threading the
    entries of the new dictionary and the next free location. *)
Definition fset_all (st : list (key * ftree) * loc)
    (paths : list (list key * val)) : list (key * ftree) * loc :=
  fold_left (fun st pv => fset st.2 st.1 pv.1 pv.2) paths st.

(** A value that can be a leaf in a store with [n0] objects: not a
    dictionary, and not a reference to an object yet to be created. *)
Definition leaf_value (n0 : loc) (h : heap) (v : val) : Prop :=
  is_dict h v = false /\ forall l, v = VRef l -> l < n0.

(** [self.to_dictdict().to_dictup()] *)
Definition roundtrip (fuel : nat) (self : loc) : M val :=
  nested <- SuperDict.to_dictdict self ;;
  match nested with
  | VRef d => SuperDict.to_dictup fuel d
  | _ => raise SystemError
  end.

(** ** Well-formed stores and deep copies *)

(** Every dictionary of the store has unique keys and holds references to
    existing objects only. *)
Definition heap_ok (h : heap) : Prop :=
  forall l c es,
    h !! l = Some (ODict c es) ->
    NoDup es.*1 /\
    Forall (fun kv => forall l', kv.2 = VRef l' -> l' < length h) es.

(** [v] nests dictionaries at most [n] levels deep (so it is not cyclic). *)
Fixpoint nested_depth (h : heap) (n : nat) (v : val) : Prop :=
  match v with
  | VRef l =>
      match h !! l with
      | Some (ODict _ es) =>
          match n with
          | 0 => False
          | S n' => Forall (fun kv => nested_depth h n' kv.2) es
          end
      | _ => True
      end
  | _ => True
  end.

(** [copy_of h v t]: the tree [t] has the content of the value [v] of the
    store [h]: the same keys in the same order at every level of
    dictionaries, and the very same values where [v] has no dictionary. *)
Inductive copy_of (h : heap) : val -> ftree -> Prop :=
| copy_leaf v : is_dict h v = false -> copy_of h v (FLeaf v)
| copy_node l c es l' ch :
    h !! l = Some (ODict c es) ->
    Forall2 (fun kv kt => kv.1 = kt.1 /\ copy_of h kv.2 kt.2) es ch ->
    copy_of h (VRef l) (FNode l' ch).

(** The subtree reached from [t] along [path], when every key is there. *)
Fixpoint tfind (path : list key) (t : ftree) : option ftree :=
  match path with
  | [] => Some t
  | k :: rest =>
      match t with
      | FNode _ ch =>
          match dict_get k ch with
          | Some t' => tfind rest t'
          | None => None
          end
      | FLeaf _ => None
      end
  end.

(** A computation that reads the store without changing it, whatever its
    outcome. *)
Definition pure_op {A} (m : M A) : Prop :=
  forall h r h', m h = (r, h') -> h' = h.

(** Between two stores no object was created, every dictionary kept its
    class and all its keys, and every list is as it was. *)
Definition entries_kept (h h' : heap) : Prop :=
  heap_grows h h' /\
  length h' = length h /\
  forall l xs, h !! l = Some (OList xs) -> h' !! l = Some (OList xs).

(** A later store that still has every object of [h], unchanged. *)
Definition store_extends (h H : heap) : Prop :=
  length h <= length H /\ forall l, l < length h -> H !! l = h !! l.

(** The entries of a comprehension over [es] whose entry for [(k, v)] is
    [(k, r)] when [f k v = Some r] and that skips [(k, v)] otherwise. *)
Definition collect (f : key -> val -> option val) (es : list (key * val))
    : list (key * val) :=
  omap (fun kv => (fun r => (kv.1, r)) <$> f kv.1 kv.2) es.

(** Equality of values, with its decision procedure; [py_eq_ref] is the
    language's [==] on values without lists or dictionaries (there it is
    structural), to run examples. *)
#[global] Instance val_eq_dec : EqDecision val.
Proof.
  unfold EqDecision, Decision. fix IH 1. intros a b.
  decide equality;
    [apply Z.eq_dec | apply string_dec | apply (List.list_eq_dec IH)
    | apply Nat.eq_dec].
Defined.

Definition val_eqb (a b : val) : bool := bool_decide (a = b).

Definition py_eq_ref (a b : val) : M bool := ret (val_eqb a b).

(** The value stored under the key [kp] in the dictionary that [v] refers
    to, if [v] refers to a dictionary that has this key. *)
Definition property_of (h : heap) (kp : key) (v : val) : option val :=
  match v with
  | VRef l =>
      match h !! l with
      | Some (ODict _ items) => dict_get kp items
      | _ => None
      end
  | _ => None
  end.

(** The component of the key [k] at [position], as [k[position]] finds it
    in a tuple or in a string. *)
Definition part_of (position : Z) (k : key) : option key :=
  match k with
  | KTuple ks => seq_index ks position
  | KStr s => KStr <$> seq_index (chars s) position
  | KNone | KInt _ => None
  end.

(** The distinct elements of [ps], in the order of their first occurrence. *)
Definition seen_order (ps : list key) : list key :=
  fold_left (fun acc p => if decide (p ∈ acc) then acc else acc ++ [p]) ps [].

(** The entries of [es] that [pk] files under [p], in their order. *)
Definition group_of (pk : key -> val -> option key) (p : key)
    (es : list (key * val)) : list (key * val) :=
  List.filter (fun kv => bool_decide (pk kv.1 kv.2 = Some p)) es.

(** The store while an index is built, [result] being the dictionary at
    [length h1].  After the first loop has gone through [i] entries of
    [es], [result] has one key for each value to index by, in the order of
    their first occurrence, each with an empty dictionary of its own
    ([index_keys]).  After the second loop has gone through [i] entries,
    the dictionary of each key holds the entries filed under that key
    ([index_groups]). *)
Definition index_keys (es : list (key * val)) (pk : key -> val -> option key)
    (h1 : heap) (i : nat) (H : heap) (rs : list (key * val)) : Prop :=
  store_extends h1 H /\ length h1 < length H /\
  H !! length h1 = Some (ODict CDict rs) /\
  rs.*1 = seen_order (omap (fun kv => pk kv.1 kv.2) (take i es)) /\
  (forall p g, (p, g) ∈ rs -> exists lg, g = VRef lg /\ length h1 < lg < length H) /\
  (forall p1 p2 g, (p1, g) ∈ rs -> (p2, g) ∈ rs -> p1 = p2) /\
  (forall l, length h1 < l < length H -> H !! l = Some (ODict CDict [])).

Definition index_groups (es : list (key * val)) (pk : key -> val -> option key)
    (h1 : heap) (N : nat) (rs : list (key * val)) (i : nat) (H : heap) : Prop :=
  store_extends h1 H /\ length H = N /\
  H !! length h1 = Some (ODict CDict rs) /\
  forall l, length h1 < l < N ->
    exists items, H !! l = Some (ODict CDict items) /\
      ((exists p, (p, VRef l) ∈ rs /\ items = group_of pk p (take i es)) \/
       ((forall p, (p, VRef l) ∉ rs) /\ items = [])).

(** Whatever a chain of subscripts from [d] reaches in the store [h0]
    without ending on a dictionary, the same chain from [s] reaches in the
    store [H]. *)
Definition same_lookups (h0 : heap) (d : val) (H : heap) (s : val) : Prop :=
  forall path w,
    SuperDict.descend d path h0 = (Ok w, h0) ->
    is_dict h0 w = false ->
    SuperDict.descend s path H = (Ok w, H).

(** * Properties *)

(** ** Keys: decidable equality *)

Lemma key_eqb_true : forall a b, key_eqb a b = true -> a = b.
Proof.
  fix IH 1.
  intros [| x | s | xs] [| y | t | ys]; simpl; try discriminate; try reflexivity.
  - intros H. apply Z.eqb_eq in H. congruence.
  - intros H. apply String.eqb_eq in H. congruence.
  - intros H. f_equal. revert ys H.
    induction xs as [|a xs IHxs]; intros [|b ys]; try discriminate; auto.
    intros H. apply andb_true_iff in H as [H1 H2].
    f_equal; [apply IH; exact H1 | apply IHxs; exact H2].
Qed.

Lemma key_eqb_refl : forall a, key_eqb a a = true.
Proof.
  fix IH 1.
  intros [| x | s | xs]; simpl; auto.
  - apply Z.eqb_refl.
  - apply String.eqb_refl.
  - induction xs as [|a xs IHxs]; auto.
    rewrite IH. exact IHxs.
Qed.

Lemma key_eqb_spec (a b : key) : reflect (a = b) (key_eqb a b).
Proof.
  destruct (key_eqb a b) eqn:E; constructor.
  - by apply key_eqb_true.
  - intros ->. by rewrite key_eqb_refl in E.
Qed.

Lemma key_eqb_neq (a b : key) : a <> b -> key_eqb a b = false.
Proof. by destruct (key_eqb_spec a b). Qed.

(** ** Dictionary contents *)

Section AssocFacts.
Context {V : Type}.
Implicit Types (k : key) (v : V) (es : list (key * V)).

Lemma dict_get_None k es : dict_get k es = None <-> k ∉ es.*1.
Proof.
  induction es as [|[k' v'] es IH]; csimpl.
  - split; [intros _; apply not_elem_of_nil | done].
  - rewrite not_elem_of_cons. destruct (key_eqb_spec k k') as [->|Hne].
    + split; [done | by intros [? _]].
    + rewrite IH. tauto.
Qed.

Lemma dict_get_Some_elem k v es : dict_get k es = Some v -> (k, v) ∈ es.
Proof.
  induction es as [|[k' v'] es IH]; csimpl; [done|].
  destruct (key_eqb_spec k k') as [->|Hne].
  - intros [= ->]. apply list_elem_of_here.
  - intros H. apply list_elem_of_further. auto.
Qed.

Lemma dict_get_is_Some k es : is_Some (dict_get k es) <-> k ∈ es.*1.
Proof.
  destruct (dict_get k es) eqn:E.
  - split; [intros _ | by eauto].
    apply dict_get_Some_elem in E.
    apply list_elem_of_fmap. by exists (k, v).
  - apply dict_get_None in E. split; [by intros [? ?] | done].
Qed.

Lemma dict_get_elem k v es : NoDup es.*1 -> (k, v) ∈ es -> dict_get k es = Some v.
Proof.
  induction es as [|[k' v'] es IH]; csimpl.
  - intros _ H. by apply elem_of_nil in H.
  - rewrite NoDup_cons. intros [Hk Hnd] H.
    apply elem_of_cons in H as [[= <- <-]|H].
    + by rewrite key_eqb_refl.
    + destruct (key_eqb_spec k k') as [->|Hne]; [|by auto].
      exfalso. apply Hk. apply list_elem_of_fmap. by exists (k', v).
Qed.

Lemma dict_mem_true k es : dict_mem k es = true <-> k ∈ es.*1.
Proof.
  unfold dict_mem. rewrite <- dict_get_is_Some.
  destruct (dict_get k es); split; try done; try (by eauto); by intros [? ?].
Qed.

Lemma dict_get_set_eq k v es : dict_get k (dict_set k v es) = Some v.
Proof.
  induction es as [|[k' v'] es IH]; csimpl.
  - by rewrite key_eqb_refl.
  - destruct (key_eqb_spec k k') as [->|Hne]; csimpl.
    + by rewrite key_eqb_refl.
    + by rewrite key_eqb_neq.
Qed.

Lemma dict_get_set_ne k k' v es :
  k <> k' -> dict_get k' (dict_set k v es) = dict_get k' es.
Proof.
  intros Hne. induction es as [|[k1 v1] es IH]; csimpl.
  - by rewrite key_eqb_neq.
  - destruct (key_eqb_spec k k1) as [->|Hne1]; csimpl.
    + by rewrite !key_eqb_neq.
    + by rewrite IH.
Qed.

Lemma dict_get_set k k' v es :
  dict_get k' (dict_set k v es) = if decide (k = k') then Some v else dict_get k' es.
Proof.
  case_decide as E; [subst; apply dict_get_set_eq | by apply dict_get_set_ne].
Qed.

(** Setting a new key appends; setting an old key leaves the keys alone. *)
Lemma dict_set_fresh k v es : k ∉ es.*1 -> dict_set k v es = es ++ [(k, v)].
Proof.
  induction es as [|[k' v'] es IH]; csimpl; [done|].
  rewrite not_elem_of_cons. intros [Hne Hk].
  by rewrite key_eqb_neq, IH.
Qed.

Lemma dict_set_keys_old k v es : k ∈ es.*1 -> (dict_set k v es).*1 = es.*1.
Proof.
  induction es as [|[k' v'] es IH]; csimpl.
  - intros H. by apply elem_of_nil in H.
  - intros H. destruct (key_eqb_spec k k') as [->|Hne]; csimpl; [done|].
    apply elem_of_cons in H as [?|H]; [done|]. by rewrite IH.
Qed.

Lemma dict_set_length_old k v es : k ∈ es.*1 -> length (dict_set k v es) = length es.
Proof.
  intros H. apply dict_set_keys_old with (v := v) in H.
  apply (f_equal length) in H. by rewrite !length_fmap in H.
Qed.

Lemma dict_set_NoDup k v es : NoDup es.*1 -> NoDup (dict_set k v es).*1.
Proof.
  intros Hnd. destruct (decide (k ∈ es.*1)) as [Hin|Hout].
  - by rewrite dict_set_keys_old.
  - rewrite dict_set_fresh, fmap_app by done. csimpl.
    apply NoDup_app. split_and!; [done | | apply NoDup_singleton].
    intros x Hx Hx'. apply list_elem_of_singleton in Hx'. by subst.
Qed.

Lemma dict_update_all_NoDup es other :
  NoDup es.*1 -> NoDup (dict_update_all es other).*1.
Proof.
  unfold dict_update_all. revert es.
  induction other as [|[k v] other IH]; intros es Hnd; csimpl; [done|].
  apply IH. by apply dict_set_NoDup.
Qed.

(** [d.update(other)]: the entries of [other] win. *)
Lemma dict_get_update_all k es other :
  NoDup other.*1 ->
  dict_get k (dict_update_all es other) =
    match dict_get k other with Some v => Some v | None => dict_get k es end.
Proof.
  unfold dict_update_all. revert es.
  induction other as [|[k1 v1] other IH]; intros es Hnd; csimpl; [done|].
  apply NoDup_cons in Hnd as [Hk1 Hnd]. rewrite IH by done. simpl in Hk1.
  destruct (key_eqb_spec k k1) as [->|Hne].
  - apply dict_get_None in Hk1. rewrite Hk1. apply dict_get_set_eq.
  - by rewrite dict_get_set_ne.
Qed.

(** [{k: v for k in ks}] *)
Lemma dict_get_const_comp k v ks es :
  dict_get k (fold_left (fun acc k => dict_set k v acc) ks es) =
    if decide (k ∈ ks) then Some v else dict_get k es.
Proof.
  revert es. induction ks as [|k1 ks IH]; intros es.
  - done.
  - cbn [fold_left]. rewrite IH, dict_get_set.
    destruct (decide (k ∈ ks)) as [Hin|Hout], (decide (k1 = k)) as [Heq|Hne],
      (decide (k ∈ k1 :: ks)) as [Hc|Hc]; try done; exfalso.
    + apply Hc, list_elem_of_further, Hin.
    + apply Hc, list_elem_of_further, Hin.
    + apply Hc. subst. apply list_elem_of_here.
    + apply elem_of_cons in Hc as [?|?]; congruence.
Qed.

Lemma const_comp_NoDup (v : V) ks es :
  NoDup es.*1 -> NoDup (fold_left (fun acc k => dict_set k v acc) ks es).*1.
Proof.
  revert es. induction ks as [|k1 ks IH]; intros es Hnd; csimpl; [done|].
  apply IH. by apply dict_set_NoDup.
Qed.

End AssocFacts.

(** ** Running computations *)

Lemma bind_Ok {A B} (m : M A) (f : A -> M B) h a h' :
  m h = (Ok a, h') -> bind m f h = f a h'.
Proof. unfold bind. by intros ->. Qed.

Lemma bind_Raise {A B} (m : M A) (f : A -> M B) h e h' :
  m h = (Raise e, h') -> bind m f h = (Raise e, h').
Proof. unfold bind. by intros ->. Qed.

Lemma get_items_Ok h l c es :
  h !! l = Some (ODict c es) -> get_items l h = (Ok es, h).
Proof. intros H. unfold get_items, bind, deref. by rewrite H. Qed.

Lemma contains_Ok h l c es k :
  h !! l = Some (ODict c es) -> contains l k h = (Ok (dict_mem k es), h).
Proof. intros H. unfold contains. by rewrite (bind_Ok _ _ _ _ _ (get_items_Ok _ _ _ _ H)). Qed.

Lemma get_item_Ok h l c es k v :
  h !! l = Some (ODict c es) -> dict_get k es = Some v ->
  get_item l k h = (Ok v, h).
Proof.
  intros H Hk. unfold get_item.
  rewrite (bind_Ok _ _ _ _ _ (get_items_Ok _ _ _ _ H)). by rewrite Hk.
Qed.

Lemma set_item_Ok h l c es k v :
  h !! l = Some (ODict c es) ->
  set_item l k v h = (Ok tt, <[l := ODict c (dict_set k v es)]> h).
Proof. intros H. unfold set_item. by rewrite H. Qed.

Lemma lookup_alloc (h : heap) (o : obj) : (h ++ [o]) !! length h = Some o.
Proof. by apply list_lookup_middle. Qed.

Lemma lookup_alloc_old (h : heap) (o : obj) (l : loc) :
  l < length h -> (h ++ [o]) !! l = h !! l.
Proof. intros H. by apply lookup_app_l. Qed.

Lemma bind_intro {A B} (m : M A) (f : A -> M B) h a h1 R :
  m h = (Ok a, h1) -> f a h1 = R -> bind m f h = R.
Proof. intros Hm <-. by apply bind_Ok. Qed.

Lemma lookup_alloc_insert (h : heap) (l : loc) (o o' : obj) :
  l < length h -> <[l := o']> (h ++ [o]) !! length h = Some o.
Proof. intros H. rewrite list_lookup_insert_ne by lia. apply lookup_alloc. Qed.

(** One step of a computation: run the first action, keep the rest. *)
Ltac mstep tac := eapply bind_intro; [tac | cbn beta iota].

(** ** [fill_with_default] *)

Lemma fill_with_default_run (h : heap) (self : loc) c es ks d :
  h !! self = Some (ODict c es) ->
  SuperDict.fill_with_default self ks d h =
    (Ok (VRef (length h)),
     h ++ [ODict CSuperDict
             (dict_update_all
                (fold_left (fun acc k => dict_set k d acc) ks []) es)]).
Proof.
  intros Hself. unfold SuperDict.fill_with_default.
  by rewrite (bind_Ok _ _ _ _ _ (get_items_Ok _ _ _ _ Hself)).
Qed.

(** C7: [fill_with_default(keys, default)] returns a new mapping that holds
    every key of [keys]; a requested key present in the source keeps the
    source's value, a requested key absent from the source gets [default]. *)
Theorem fill_with_default_requested (h : heap) (self : loc) c es ks d :
  h !! self = Some (ODict c es) ->
  NoDup es.*1 ->
  exists es',
    SuperDict.fill_with_default self ks d h =
      (Ok (VRef (length h)), h ++ [ODict CSuperDict es']) /\
    forall k, k ∈ ks ->
      dict_get k es' = Some (match dict_get k es with Some v => v | None => d end).
Proof.
  intros Hself Hnd. eexists. split; [by eapply fill_with_default_run|].
  intros k Hk. rewrite dict_get_update_all by done.
  destruct (dict_get k es); [done|].
  rewrite dict_get_const_comp. by rewrite decide_True.
Qed.

Lemma fill_with_default_requested_witness :
  let h := [ODict CSuperDict [(KStr "a", VInt 5)]] in
  h !! 0 = Some (ODict CSuperDict [(KStr "a", VInt 5)]) /\
  NoDup [(KStr "a", VInt 5)].*1 /\
  exists es',
    SuperDict.fill_with_default 0 [KStr "a"; KStr "b"; KStr "c"] (VInt 0) h =
      (Ok (VRef 1), h ++ [ODict CSuperDict es']) /\
    forall k, k ∈ [KStr "a"; KStr "b"; KStr "c"] ->
      dict_get k es' =
        Some (match dict_get k [(KStr "a", VInt 5)] with
              | Some v => v
              | None => VInt 0
              end).
Proof.
  intros h.
  assert (Hnd : NoDup [(KStr "a", VInt 5)].*1)
    by (apply (bool_decide_unpack _); vm_compute; reflexivity).
  split_and!; [reflexivity | exact Hnd |].
  apply (fill_with_default_requested h 0 CSuperDict [(KStr "a", VInt 5)]);
    [reflexivity | exact Hnd].
Defined.

(** C10: [fill_with_default] also keeps every entry of the source whose key
    was not requested: the keys of the result are the requested keys together
    with the source's keys, and every entry of the source is an entry of the
    result. *)
Theorem fill_with_default_keeps_source (h : heap) (self : loc) c es ks d :
  h !! self = Some (ODict c es) ->
  NoDup es.*1 ->
  exists es',
    SuperDict.fill_with_default self ks d h =
      (Ok (VRef (length h)), h ++ [ODict CSuperDict es']) /\
    NoDup es'.*1 /\
    (forall k, k ∈ es'.*1 <-> k ∈ ks \/ k ∈ es.*1) /\
    (forall k v, (k, v) ∈ es -> (k, v) ∈ es').
Proof.
  intros Hself Hnd. eexists. split; [by eapply fill_with_default_run|].
  split_and!.
  - apply dict_update_all_NoDup, const_comp_NoDup. apply NoDup_nil_2.
  - intros k. rewrite <- !dict_get_is_Some, dict_get_update_all by done.
    rewrite dict_get_const_comp.
    destruct (dict_get k es) as [v|].
    + split; [intros _; right; by eexists | intros _; by eexists].
    + destruct (decide (k ∈ ks)).
      * split; [by left | by eexists].
      * simpl. split; [by intros [? ?] | intros [?|[? ?]]; done].
  - intros k v Hkv. apply dict_get_Some_elem.
    rewrite dict_get_update_all by done.
    by rewrite (dict_get_elem _ _ _ Hnd Hkv).
Qed.

Lemma fill_with_default_keeps_source_witness :
  let es := [(KStr "a", VInt 5); (KStr "z", VInt 7)] in
  let h := [ODict CSuperDict es] in
  h !! 0 = Some (ODict CSuperDict es) /\
  NoDup es.*1 /\
  exists es',
    SuperDict.fill_with_default 0 [KStr "a"; KStr "b"] (VInt 0) h =
      (Ok (VRef 1), h ++ [ODict CSuperDict es']) /\
    NoDup es'.*1 /\
    (forall k, k ∈ es'.*1 <-> k ∈ [KStr "a"; KStr "b"] \/ k ∈ es.*1) /\
    (forall k v, (k, v) ∈ es -> (k, v) ∈ es').
Proof.
  intros es h.
  assert (Hnd : NoDup es.*1)
    by (apply (bool_decide_unpack _); vm_compute; reflexivity).
  split_and!; [reflexivity | exact Hnd |].
  apply (fill_with_default_keeps_source h 0 CSuperDict es);
    [reflexivity | exact Hnd].
Defined.

(** ** [filter] *)

Lemma dict_get_restrict_to k es ks acc :
  dict_get k (restrict_to es ks acc) =
    if decide (k ∈ ks)
    then match dict_get k es with Some v => Some v | None => dict_get k acc end
    else dict_get k acc.
Proof.
  unfold restrict_to. revert acc.
  induction ks as [|k1 ks IH]; intros acc; [done|].
  cbn [fold_left]. rewrite IH.
  destruct (decide (k1 = k)) as [->|Hne].
  - rewrite (decide_True (P := k ∈ k :: ks)) by apply list_elem_of_here.
    destruct (dict_get k es) eqn:E; [|by case_decide].
    rewrite dict_get_set_eq. by case_decide.
  - assert (dict_get k (match dict_get k1 es with
                        | Some v => dict_set k1 v acc
                        | None => acc
                        end) = dict_get k acc) as ->.
    { destruct (dict_get k1 es); [by apply dict_get_set_ne | done]. }
    destruct (decide (k ∈ ks)) as [Hin|Hout].
    + rewrite decide_True; [done | by apply list_elem_of_further].
    + rewrite decide_False; [done|]. rewrite not_elem_of_cons. split; congruence.
Qed.

Lemma restrict_to_NoDup es ks acc :
  NoDup acc.*1 -> NoDup (restrict_to es ks acc).*1.
Proof.
  unfold restrict_to. revert acc.
  induction ks as [|k1 ks IH]; intros acc Hnd; [done|].
  cbn [fold_left]. apply IH.
  destruct (dict_get k1 es); [by apply dict_set_NoDup | done].
Qed.

Lemma comp_present_run h self c es ks acc :
  h !! self = Some (ODict c es) ->
  SuperDict.comp_present self ks acc h = (Ok (restrict_to es ks acc), h).
Proof.
  intros Hself. revert acc.
  induction ks as [|k ks IH]; intros acc; [done|].
  cbn [SuperDict.comp_present].
  rewrite (bind_Ok _ _ _ _ _ (contains_Ok _ _ _ _ k Hself)).
  unfold restrict_to. cbn [fold_left]. unfold dict_mem.
  destruct (dict_get k es) as [v|] eqn:E.
  - rewrite (bind_Ok _ _ _ _ _ (get_item_Ok _ _ _ _ _ _ Hself E)). apply IH.
  - apply IH.
Qed.

Lemma comp_getitem_run h self c es ks acc :
  h !! self = Some (ODict c es) ->
  (forall k, k ∈ ks -> k ∈ es.*1) ->
  SuperDict.comp_getitem self ks acc h = (Ok (restrict_to es ks acc), h).
Proof.
  intros Hself. revert acc.
  induction ks as [|k ks IH]; intros acc Hall; [done|].
  cbn [SuperDict.comp_getitem].
  assert (is_Some (dict_get k es)) as [v E].
  { apply dict_get_is_Some, Hall, list_elem_of_here. }
  rewrite (bind_Ok _ _ _ _ _ (get_item_Ok _ _ _ _ _ _ Hself E)).
  unfold restrict_to. cbn [fold_left]. rewrite E.
  apply IH. intros k' Hk'. by apply Hall, list_elem_of_further.
Qed.

(** *** The reference [setdiff1d] on keys of one kind *)

Lemma sorted_insert_Permutation x l : sorted_insert x l ≡ₚ x :: l.
Proof.
  induction l as [|y l IH]; [done|]. cbn [sorted_insert].
  destruct (key_leb x y); [done|]. rewrite IH. apply Permutation_swap.
Qed.

Lemma np_sort_Permutation l : np_sort l ≡ₚ l.
Proof.
  induction l as [|x l IH]; [done|]. cbn [np_sort foldr].
  rewrite sorted_insert_Permutation. by f_equiv.
Qed.

Lemma np_shape_scalars xs :
  forallb np_scalar xs = true -> np_shape (KTuple xs) = Some [length xs].
Proof.
  destruct xs as [|k0 xs]; [done|]. cbn [forallb]. intros [H0 Hxs]%andb_prop.
  cbn [np_shape]. replace (np_shape k0) with (Some (@nil nat)) by by destruct k0.
  assert (forallb (fun k' => bool_decide (np_shape k' = Some [])) xs = true) as ->; [|done].
  induction xs as [|k xs IH]; [done|]. cbn [forallb] in *.
  apply andb_prop in Hxs as [Hk Hxs]. rewrite IH by done.
  by destruct k.
Qed.

Lemma np_ravel_scalars xs :
  forallb np_scalar xs = true -> flat_map np_ravel xs = xs.
Proof.
  induction xs as [|k xs IH]; [done|]. cbn [forallb flat_map].
  intros [Hk Hxs]%andb_prop. rewrite IH by done. by destruct k.
Qed.

Lemma np_unique_ints xs :
  forallb np_int xs = true -> np_unique xs = Ok (np_sort (remove_dups xs)).
Proof.
  intros Hxs.
  assert (Hsc : forallb np_scalar xs = true).
  { apply forallb_forall. intros k Hk.
    pose proof (proj1 (forallb_forall _ _) Hxs k Hk). by destruct k. }
  unfold np_unique. rewrite np_shape_scalars, np_ravel_scalars by done.
  assert (Hnone : existsb is_none xs = false).
  { apply not_true_iff_false. intros (k & Hk & Hn)%existsb_exists.
    pose proof (proj1 (forallb_forall _ _) Hxs k Hk). by destruct k. }
  assert (Hstr : existsb is_str xs = false).
  { apply not_true_iff_false. intros (k & Hk & Hn)%existsb_exists.
    pose proof (proj1 (forallb_forall _ _) Hxs k Hk). by destruct k. }
  unfold np_dtype. rewrite Hnone, Hstr.
  destruct xs as [|x xs]; [done|].
  do 3 f_equal. apply list_fmap_id.
Qed.

Lemma np_unique_strs xs :
  forallb np_str xs = true -> np_unique xs = Ok (np_sort (remove_dups xs)).
Proof.
  intros Hxs.
  assert (Hsc : forallb np_scalar xs = true).
  { apply forallb_forall. intros k Hk.
    pose proof (proj1 (forallb_forall _ _) Hxs k Hk). by destruct k. }
  unfold np_unique. rewrite np_shape_scalars, np_ravel_scalars by done.
  assert (Hnone : existsb is_none xs = false).
  { apply not_true_iff_false. intros (k & Hk & Hn)%existsb_exists.
    pose proof (proj1 (forallb_forall _ _) Hxs k Hk). by destruct k. }
  unfold np_dtype. rewrite Hnone.
  assert (Hcast : np_cast DStr <$> xs = xs).
  { clear Hsc Hnone. induction xs as [|k xs IH]; [done|]. cbn [forallb] in Hxs.
    apply andb_prop in Hxs as [Hk Hxs]. cbn [fmap list_fmap]. 
    change (list_fmap _ _ (np_cast DStr) xs) with (np_cast DStr <$> xs).
    rewrite IH by done. f_equal.
    destruct k; try done. cbn in Hk. apply String.eqb_eq in Hk. cbn. by rewrite Hk. }
  destruct (existsb is_str xs).
  - by rewrite Hcast.
  - destruct xs as [|x xs]; [done|]. do 3 f_equal. apply list_fmap_id.
Qed.

Lemma np_unique_one_kind xs :
  one_kind xs = true -> np_unique xs = Ok (np_sort (remove_dups xs)).
Proof.
  unfold one_kind. intros [H|H]%orb_prop;
    [by apply np_unique_ints | by apply np_unique_strs].
Qed.

Lemma one_kind_app xs ys :
  one_kind (xs ++ ys) = true -> one_kind xs = true /\ one_kind ys = true.
Proof.
  unfold one_kind. rewrite !forallb_app.
  intros [[-> ->]%andb_prop|[-> ->]%andb_prop]%orb_prop; rewrite ?orb_true_r; done.
Qed.

(** On keys of one kind the reference function returns the distinct
    elements of the first list that the second list does not have. *)
Lemma setdiff1d_ref_spec ar1 ar2 :
  ar1 <> [] -> one_kind (ar1 ++ ar2) = true ->
  exists bad,
    setdiff1d_ref ar1 ar2 = Ok bad /\ NoDup bad /\
    forall x, x ∈ bad <-> x ∈ ar1 /\ x ∉ ar2.
Proof.
  intros _ [H1 H2]%one_kind_app. unfold setdiff1d_ref.
  rewrite (np_unique_one_kind _ H1), (np_unique_one_kind _ H2).
  eexists. split; [done|]. split.
  - apply NoDup_list_difference. rewrite np_sort_Permutation. apply NoDup_remove_dups.
  - intros x. rewrite list_elem_of_difference, !np_sort_Permutation, !elem_of_remove_dups.
    done.
Qed.

Section FilterSpec.

(** What is assumed of [numpy.setdiff1d]: given two lists of keys of one
    kind, the first not empty, it returns the distinct elements of the
    first list that are not in the second. *)
Variable setdiff1d : list key -> list key -> outcome (list key).
Hypothesis setdiff1d_spec :
  forall ar1 ar2,
    ar1 <> [] -> one_kind (ar1 ++ ar2) = true ->
    exists bad,
      setdiff1d ar1 ar2 = Ok bad /\ NoDup bad /\
      forall x, x ∈ bad <-> x ∈ ar1 /\ x ∉ ar2.


End FilterSpec.



(** The docstring's example: [{'a': 1, 'b': 0, 'c': 1}.filter(['a', 'b'])]
    is [{'a': 1, 'b': 0}], and asking for the absent ['z'] raises. *)
Example filter_docstring :
  let h := [ODict CSuperDict
              [(KStr "a", VInt 1); (KStr "b", VInt 0); (KStr "c", VInt 1)]] in
  SuperDict.filter setdiff1d_ref 0 (SuperDict.IList [KStr "a"; KStr "b"]) true h =
    (Ok (VRef 1),
     h ++ [ODict CSuperDict [(KStr "a", VInt 1); (KStr "b", VInt 0)]]) /\
  SuperDict.filter setdiff1d_ref 0 (SuperDict.IList [KStr "z"]) true h =
    (Raise (KeyError [KStr "z"]), h).
Proof. split; vm_compute; reflexivity. Qed.

(** ** [get_m] *)

(** [get_m] only reads the store, and a lookup that succeeds is returned. *)
Lemma subscript_pure d i h r h' : subscript d i h = (r, h') -> h' = h.
Proof.
  unfold subscript, bind, deref, ret, raise. intros H.
  repeat (match type of H with
          | context [match ?x with _ => _ end] =>
              lazymatch x with
              | context [match _ with _ => _ end] => fail
              | _ => destruct x
              end
          end); congruence.
Qed.

Lemma descend_pure args d h r h' :
  SuperDict.descend d args h = (r, h') -> h' = h.
Proof.
  revert d h. induction args as [|i args IH]; intros d h; simpl.
  - unfold ret. congruence.
  - unfold bind. destruct (subscript d i h) as [[d'|e] h1] eqn:E.
    + apply subscript_pure in E as ->. apply IH.
    + apply subscript_pure in E as ->. congruence.
Qed.

Lemma get_m_pure self args h r h' :
  SuperDict.get_m self args h = (r, h') -> h' = h.
Proof.
  unfold SuperDict.get_m, except_KeyError.
  destruct (SuperDict.descend (VRef self) args h) as [[d|e] h1] eqn:E;
    apply descend_pure in E as ->; [congruence|].
  destruct e; unfold ret; congruence.
Qed.

(** A first key absent from the mapping gives [None]; a first key present
    continues the descent from its value. *)
Lemma get_m_absent self c es i k rest h :
  h !! self = Some (ODict c es) -> key_of_val i = Some k ->
  dict_get k es = None ->
  SuperDict.get_m self (i :: rest) h = (Ok VNone, h).
Proof.
  intros Hself Hi Hk.
  unfold SuperDict.get_m, except_KeyError. cbn [SuperDict.descend].
  unfold subscript, bind, deref, raise, ret. by rewrite Hself, Hi, Hk.
Qed.

Lemma descend_present self c es i k v rest h :
  h !! self = Some (ODict c es) -> key_of_val i = Some k ->
  dict_get k es = Some v ->
  SuperDict.descend (VRef self) (i :: rest) h = SuperDict.descend v rest h.
Proof.
  intros Hself Hi Hk. cbn [SuperDict.descend].
  erewrite bind_Ok; [reflexivity|].
  unfold subscript, bind, deref, ret. by rewrite Hself, Hi, Hk.
Qed.

(** Reaching a number or [None] before the path is used up raises. *)
Lemma descend_scalar_raises d i rest h :
  d = VNone \/ (exists z, d = VInt z) ->
  SuperDict.descend d (i :: rest) h = (Raise TypeError, h).
Proof. by intros [->|[z ->]]. Qed.

(** C4: [get_m] answers [None] only when a key is missing ([KeyError]).  On
    [{'a': 1}], [get_m('a', 'b')] reaches the integer [1], which cannot be
    indexed: the [TypeError] is not caught and the call raises instead of
    returning [None]; on [{'a': [1]}], [get_m('a', 3)] raises [IndexError]. *)
Theorem get_m_not_indexable_raises :
  SuperDict.get_m 0 [VStr "a"; VStr "b"] [ODict CSuperDict [(KStr "a", VInt 1)]]
    = (Raise TypeError, [ODict CSuperDict [(KStr "a", VInt 1)]]) /\
  SuperDict.get_m 0 [VStr "a"; VInt 3]
      [ODict CSuperDict [(KStr "a", VRef 1)]; OList [VInt 1]]
    = (Raise IndexError, [ODict CSuperDict [(KStr "a", VRef 1)]; OList [VInt 1]]) /\
  SuperDict.get_m 0 [VStr "a"; VStr "b"]
      [ODict CSuperDict [(KStr "a", VRef 1)]; ODict CSuperDict [(KStr "b", VInt 7)]]
    = (Ok (VInt 7),
       [ODict CSuperDict [(KStr "a", VRef 1)]; ODict CSuperDict [(KStr "b", VInt 7)]]) /\
  SuperDict.get_m 0 [VStr "a"; VStr "z"]
      [ODict CSuperDict [(KStr "a", VRef 1)]; ODict CSuperDict [(KStr "b", VInt 7)]]
    = (Ok VNone,
       [ODict CSuperDict [(KStr "a", VRef 1)]; ODict CSuperDict [(KStr "b", VInt 7)]]).
Proof. repeat split; vm_compute; reflexivity. Qed.

(** ** [to_dictdict] on keys that are not tuples *)

(** The docstring's example,
    [{('a', 'b'): 1, ('b', 'c'): 0, 'c': 1}.to_dictdict()], gives
    [{'a': {'b': 1}, 'b': {'c': 0}, 'c': 1}]: unpacking the one-character
    string ['c'] yields the one-element path [['c']]. *)
Example to_dictdict_docstring :
  let h := [ODict CSuperDict
              [(KTuple [KStr "a"; KStr "b"], VInt 1);
               (KTuple [KStr "b"; KStr "c"], VInt 0);
               (KStr "c", VInt 1)]] in
  SuperDict.to_dictdict 0 h =
    (Ok (VRef 1),
     h ++ [ODict CSuperDict
             [(KStr "a", VRef 2); (KStr "b", VRef 3); (KStr "c", VInt 1)];
           ODict CSuperDict [(KStr "b", VInt 1)];
           ODict CSuperDict [(KStr "c", VInt 0)]]).
Proof. vm_compute. reflexivity. Qed.

(** C5: [to_dictdict] unpacks every key with [*tup], tuple or not.  The
    string key ['ab'] does not stay a top-level entry: it is taken apart into
    the path [['a'; 'b']], giving [{'a': {'b': 1}}]; an integer key cannot be
    unpacked and the call raises [TypeError]. *)
Theorem to_dictdict_unpacks_non_tuple_keys :
  SuperDict.to_dictdict 0 [ODict CSuperDict [(KStr "ab", VInt 1)]] =
    (Ok (VRef 1),
     [ODict CSuperDict [(KStr "ab", VInt 1)];
      ODict CSuperDict [(KStr "a", VRef 2)];
      ODict CSuperDict [(KStr "b", VInt 1)]]) /\
  SuperDict.to_dictdict 0 [ODict CSuperDict [(KInt 7, VInt 1)]] =
    (Raise TypeError,
     [ODict CSuperDict [(KInt 7, VInt 1)]; ODict CSuperDict []]).
Proof. split; vm_compute; reflexivity. Qed.

(** ** [update]: the arguments *)

Lemma dict_update_all_app {V} (acc es : list (key * V)) :
  NoDup (acc ++ es).*1 -> dict_update_all acc es = acc ++ es.
Proof.
  unfold dict_update_all. revert acc.
  induction es as [|[k v] es IH]; intros acc Hnd; simpl.
  - by rewrite app_nil_r.
  - assert (Hk : k ∉ acc.*1).
    { rewrite fmap_app in Hnd. apply NoDup_app in Hnd as (_ & Hd & _).
      intros Hk. apply (Hd _ Hk). apply list_elem_of_here. }
    rewrite dict_set_fresh by done.
    rewrite IH; [by rewrite <- app_assoc | by rewrite <- app_assoc].
Qed.

Lemma dict_update_all_nil {V} (es : list (key * V)) :
  NoDup es.*1 -> dict_update_all [] es = es.
Proof. intros H. by apply (dict_update_all_app []). Qed.

Lemma dict_update_from_dict h a c ea es :
  h !! a = Some (ODict c ea) ->
  dict_update_from es (VRef a) h = (Ok (dict_update_all es ea), h).
Proof.
  intros Ha. unfold dict_update_from, bind, isinstance_dict, is_dict.
  rewrite Ha. unfold get_items, bind, deref. by rewrite Ha.
Qed.

(** C2 (as the code has it): [update] raises ([TypeError]) when more than
    one positional argument is given, and touches nothing in that case.  A
    positional mapping together with keyword entries is accepted: the call
    behaves as the call with the single positional mapping that holds the
    positional entries updated with the keyword entries. *)
Theorem update_arguments (fuel : nat) (self : loc)
    (kwargs : list (string * val)) (h : heap) :
  (forall a b rest,
     SuperDict.update (S fuel) self (a :: b :: rest) kwargs h
       = (Raise TypeError, h)) /\
  (forall a ca ea m cm,
     h !! a = Some (ODict ca ea) -> NoDup ea.*1 ->
     h !! m = Some (ODict cm
                 (dict_update_all ea ((fun kv => (KStr kv.1, kv.2)) <$> kwargs))) ->
     SuperDict.update (S fuel) self [VRef a] kwargs h
       = SuperDict.update (S fuel) self [VRef m] [] h).
Proof.
  split; [done|].
  intros a ca ea m cm Ha Hnd Hm. cbn [SuperDict.update].
  rewrite (bind_Ok _ _ _ _ _ (dict_update_from_dict _ _ _ _ [] Ha)).
  rewrite (bind_Ok _ _ _ _ _ (dict_update_from_dict _ _ _ _ [] Hm)).
  cbn [fmap list_fmap]. rewrite (dict_update_all_nil ea) by done.
  rewrite (dict_update_all_nil (dict_update_all ea _)); [done|].
  by apply dict_update_all_NoDup.
Qed.

Lemma update_arguments_witness :
  let h := [ODict CSuperDict [(KStr "a", VInt 1)];
            ODict CDict [(KStr "a", VInt 2); (KStr "b", VInt 3)];
            ODict CDict [(KStr "a", VInt 2); (KStr "b", VInt 4)]] in
  let kwargs := [("b"%string, VInt 4)] in
  h !! 1 = Some (ODict CDict [(KStr "a", VInt 2); (KStr "b", VInt 3)]) /\
  NoDup [(KStr "a", VInt 2); (KStr "b", VInt 3)].*1 /\
  h !! 2 = Some (ODict CDict
             (dict_update_all [(KStr "a", VInt 2); (KStr "b", VInt 3)]
                ((fun kv => (KStr kv.1, kv.2)) <$> kwargs))) /\
  SuperDict.update 1 0 [VRef 1; VRef 2] kwargs h = (Raise TypeError, h) /\
  SuperDict.update 1 0 [VRef 1] kwargs h = SuperDict.update 1 0 [VRef 2] [] h.
Proof.
  intros h kwargs.
  assert (Hnd : NoDup [(KStr "a", VInt 2); (KStr "b", VInt 3)].*1)
    by (apply (bool_decide_unpack _); vm_compute; reflexivity).
  split_and!; [reflexivity | exact Hnd | reflexivity | |].
  - apply (proj1 (update_arguments 0 0 kwargs h)).
  - apply (proj2 (update_arguments 0 0 kwargs h) 1 CDict
             [(KStr "a", VInt 2); (KStr "b", VInt 3)] 2 CDict);
      [reflexivity | exact Hnd | reflexivity].
Defined.

(** The claim itself fails: a call with a positional mapping and a keyword
    entry returns normally, with both applied (the keyword entry last). *)
Lemma update_accepts_positional_and_keywords :
  let h := [ODict CSuperDict [(KStr "a", VInt 1)];
            ODict CDict [(KStr "a", VInt 2); (KStr "b", VInt 3)]] in
  SuperDict.update 1 0 [VRef 1] [("b"%string, VInt 4)] h =
    (Ok VNone,
     [ODict CSuperDict [(KStr "a", VInt 2); (KStr "b", VInt 4)];
      ODict CDict [(KStr "a", VInt 2); (KStr "b", VInt 3)]]).
Proof. vm_compute. reflexivity. Qed.

(** ** The two mutating methods: [set_m] and [update] *)

Lemma heap_grows_refl h : heap_grows h h.
Proof. intros l c es H. by exists es. Qed.

Lemma heap_grows_trans h1 h2 h3 :
  heap_grows h1 h2 -> heap_grows h2 h3 -> heap_grows h1 h3.
Proof.
  intros H12 H23 l c es H.
  destruct (H12 _ _ _ H) as (es2 & H2 & Hs2).
  destruct (H23 _ _ _ H2) as (es3 & H3 & Hs3).
  exists es3. split; [done|]. by etrans.
Qed.


Lemma dict_set_keys_subseteq {V} k (v : V) es : es.*1 ⊆ (dict_set k v es).*1.
Proof.
  destruct (decide (k ∈ es.*1)).
  - by rewrite dict_set_keys_old.
  - rewrite dict_set_fresh, fmap_app by done. intros x Hx.
    apply elem_of_app. by left.
Qed.


Lemma lookup_insert_same (h : heap) (l : loc) (o o' : obj) :
  h !! l = Some o -> <[l := o']> h !! l = Some o'.
Proof. intros H. apply list_lookup_insert_eq. by eapply lookup_lt_Some. Qed.



Lemma set_m_single self k value h c es :
  h !! self = Some (ODict c es) ->
  SuperDict.set_m self [k] value h =
    (Ok (VRef self), <[self := ODict c (dict_set k value es)]> h).
Proof.
  intros Hself. cbn [SuperDict.set_m].
  mstep ltac:(by eapply set_item_Ok). reflexivity.
Qed.

Lemma bind_inv_Ok {A B} (m : M A) (f : A -> M B) h b h' :
  bind m f h = (Ok b, h') ->
  exists a h1, m h = (Ok a, h1) /\ f a h1 = (Ok b, h').
Proof.
  unfold bind. destruct (m h) as [[a|e] h1]; [by eauto | done].
Qed.


Lemma is_dict_insert_dict h l c es c' es' v :
  h !! l = Some (ODict c es) ->
  is_dict (<[l := ODict c' es']> h) v = is_dict h v.
Proof.
  intros Hl. destruct v as [| | | |l']; try done. unfold is_dict.
  destruct (decide (l = l')) as [<-|Hne].
  - by rewrite (lookup_insert_same _ _ _ _ Hl), Hl.
  - by rewrite list_lookup_insert_ne.
Qed.






(** ** Loops over the items of a dictionary *)

(** A loop invariant [I i h]: "[i] entries have been processed and the store
    is [h]".  While the invariant keeps the dictionary's size and hands out
    its [i]-th entry, the loop runs to the end without raising. *)
Lemma for_items_from_inv (l : loc) (body : key -> val -> M unit)
    (I : nat -> heap -> Prop) (len : nat) :
  (forall i h, I i h ->
     exists c es, h !! l = Some (ODict c es) /\ length es = len /\
       forall k v, es !! i = Some (k, v) ->
         exists h', body k v h = (Ok tt, h') /\ I (S i) h') ->
  forall n i h, i + n = len -> I i h ->
    exists h', for_items_from n i len l body h = (Ok tt, h') /\ I len h'.
Proof.
  intros Hbody. induction n as [|n IH]; intros i h Hlen HI.
  - destruct (Hbody _ _ HI) as (c & es & Hl & Hes & _).
    exists h. split; [|by replace len with i by lia].
    cbn [for_items_from].
    mstep ltac:(by eapply get_items_Ok).
    rewrite Hes, Nat.eqb_refl. cbn [negb].
    by destruct (es !! i) as [[k v]|].
  - destruct (Hbody _ _ HI) as (c & es & Hl & Hes & Hstep).
    destruct (lookup_lt_is_Some_2 es i) as [[k v] Hi]; [lia|].
    destruct (Hstep _ _ Hi) as (h1 & Hrun & HI1).
    destruct (IH (S i) h1) as (h' & Hloop & HI'); [lia | done |].
    exists h'. split; [|done].
    cbn [for_items_from].
    mstep ltac:(by eapply get_items_Ok).
    rewrite Hes, Nat.eqb_refl, Hi. cbn [negb].
    mstep ltac:(exact Hrun). exact Hloop.
Qed.

Lemma for_items_inv (l : loc) (body : key -> val -> M unit)
    (I : nat -> heap -> Prop) (len : nat) h :
  (forall i h, I i h ->
     exists c es, h !! l = Some (ODict c es) /\ length es = len /\
       forall k v, es !! i = Some (k, v) ->
         exists h', body k v h = (Ok tt, h') /\ I (S i) h') ->
  I 0 h ->
  exists h', for_items l body h = (Ok tt, h') /\ I len h'.
Proof.
  intros Hbody HI.
  destruct (Hbody _ _ HI) as (c & es & Hl & Hes & _).
  destruct (for_items_from_inv l body I len Hbody len 0 h) as (h' & Hrun & HI');
    [lia | done |].
  exists h'. split; [|done]. unfold for_items.
  mstep ltac:(by eapply get_items_Ok). by rewrite Hes.
Qed.

(** ** [list_reverse] *)

Lemma key_of_val_of_key : forall k, key_of_val (val_of_key k) = Some k.
Proof.
  fix IH 1. intros [| z | s | ks]; try reflexivity.
  cbn [val_of_key key_of_val].
  assert ((fix go (vs : list val) : option (list key) :=
             match vs with
             | [] => Some []
             | v :: vs' =>
                 match key_of_val v, go vs' with
                 | Some k, Some ks => Some (k :: ks)
                 | _, _ => None
                 end
             end) (map val_of_key ks) = Some ks) as ->; [|done].
  induction ks as [|k ks IHks]; [done|].
  cbn [map]. by rewrite IH, IHks.
Qed.

Lemma hash_all_keys ks h :
  SuperDict.hash_all (val_of_key <$> ks) h = (Ok ks, h).
Proof.
  induction ks as [|k ks IH]; [done|].
  cbn [fmap list_fmap SuperDict.hash_all].
  mstep ltac:(unfold hash; by rewrite key_of_val_of_key).
  mstep ltac:(exact IH). reflexivity.
Qed.

Lemma gather_lists h es src :
  lists_view h es src ->
  SuperDict.gather es.*2 h = (Ok (mjoin src.*2), h).
Proof.
  induction 1 as [|[k v] [k' xs] es src (_ & l & Hv & Hl) _ IH]; [done|].
  cbn in Hv, Hl. subst v. cbn [fmap list_fmap snd mjoin list_join SuperDict.gather].
  mstep ltac:(unfold iter_val; mstep ltac:(unfold deref; by rewrite Hl);
              reflexivity).
  mstep ltac:(apply hash_all_keys).
  mstep ltac:(exact IH). reflexivity.
Qed.

Lemma comp_empty_lists_run ks :
  forall acc h,
    NoDup (acc.*1 ++ ks) ->
    SuperDict.comp_empty_lists ks acc h =
      (Ok (acc ++ imap (fun j e => (e, VRef (length h + j))) ks),
       h ++ replicate (length ks) (OList [])).
Proof.
  induction ks as [|k ks IH]; intros acc h Hnd.
  - cbn. by rewrite !app_nil_r.
  - cbn [SuperDict.comp_empty_lists].
    mstep ltac:(reflexivity).
    assert (Hk : k ∉ acc.*1).
    { apply NoDup_app in Hnd as (_ & Hd & _). intros Hk.
      apply (Hd _ Hk), list_elem_of_here. }
    rewrite dict_set_fresh by done. rewrite IH.
    + rewrite length_app. cbn [length replicate imap].
      rewrite <- !app_assoc. cbn [app]. rewrite Nat.add_0_r.
      do 4 f_equal. apply imap_ext. intros j e _. cbn. do 2 f_equal. lia.
    + rewrite fmap_app, <- app_assoc. exact Hnd.
Qed.

Lemma keys_for_snoc pairs k e e' :
  keys_for (pairs ++ [(k, e)]) e' =
    keys_for pairs e' ++ (if decide (e = e') then [k] else []).
Proof.
  unfold keys_for. rewrite filter_app, fmap_app. f_equal.
  case_decide.
  - by rewrite filter_singleton_True.
  - by rewrite filter_singleton_False.
Qed.

Lemma keys_for_app pairs pairs' e :
  keys_for (pairs ++ pairs') e = keys_for pairs e ++ keys_for pairs' e.
Proof. unfold keys_for. by rewrite filter_app, fmap_app. Qed.

Lemma imap_keys {B} (g : nat -> B) (ks : list key) :
  (imap (fun j e => (e, g j)) ks).*1 = ks.
Proof.
  revert g. induction ks as [|k ks IH]; intros g; [done|].
  cbn. f_equal. apply (IH (g ∘ S)).
Qed.

Section InvertedStore.
Context (h : heap) (new_keys : list key).
Hypothesis new_keys_NoDup : NoDup new_keys.

Lemma inverted_store_old pairs (l : loc) :
  l < length h -> inverted_store h new_keys pairs !! l = h !! l.
Proof. intros Hl. unfold inverted_store. by apply lookup_app_l. Qed.

Lemma inverted_store_list pairs j e :
  new_keys !! j = Some e ->
  inverted_store h new_keys pairs !! (length h + j) =
    Some (OList (val_of_key <$> keys_for pairs e)).
Proof.
  intros Hj. unfold inverted_store.
  rewrite lookup_app_r by lia. replace (length h + j - length h) with j by lia.
  apply lookup_app_l_Some. by rewrite list_lookup_fmap, Hj.
Qed.

Lemma inverted_store_dict pairs :
  inverted_store h new_keys pairs !! (length h + length new_keys) =
    Some (ODict CSuperDict (imap (fun j e => (e, VRef (length h + j))) new_keys)).
Proof.
  unfold inverted_store. rewrite lookup_app_r by lia.
  replace (length h + length new_keys - length h) with (length new_keys) by lia.
  apply list_lookup_middle. by rewrite length_fmap.
Qed.

Lemma inverted_store_entry j e :
  new_keys !! j = Some e ->
  dict_get e (imap (fun j e => (e, VRef (length h + j))) new_keys) =
    Some (VRef (length h + j)).
Proof using new_keys_NoDup.
  intros Hj. apply dict_get_elem.
  - by rewrite imap_keys.
  - apply list_elem_of_lookup. exists j. by rewrite list_lookup_imap, Hj.
Qed.

Lemma inverted_store_append pairs j e k :
  new_keys !! j = Some e ->
  <[length h + j := OList ((val_of_key <$> keys_for pairs e) ++ [val_of_key k])]>
    (inverted_store h new_keys pairs) =
  inverted_store h new_keys (pairs ++ [(k, e)]).
Proof using new_keys_NoDup.
  intros Hj. unfold inverted_store.
  rewrite insert_app_r_alt by lia.
  replace (length h + j - length h) with j by lia.
  assert (Hlt : j < length new_keys) by by eapply lookup_lt_Some.
  rewrite insert_app_l by (by rewrite length_fmap).
  do 2 f_equal. apply list_eq. intros j'.
  destruct (decide (j = j')) as [<-|Hne].
  - rewrite list_lookup_insert_eq by (by rewrite length_fmap).
    rewrite list_lookup_fmap, Hj. cbn.
    rewrite keys_for_snoc, decide_True by done. by rewrite fmap_app.
  - rewrite list_lookup_insert_ne by done. rewrite !list_lookup_fmap.
    destruct (new_keys !! j') as [e'|] eqn:Hj'; [|done]. cbn.
    rewrite keys_for_snoc, decide_False; [by rewrite app_nil_r|].
    intros <-. apply Hne. by eapply NoDup_lookup.
Qed.

(** The body of the inner loop: [dict_out[el].append(k)]. *)
Lemma list_reverse_append pairs k e :
  e ∈ new_keys ->
  (lst <- subscript (VRef (length h + length new_keys)) (val_of_key e) ;;
   list_append lst (val_of_key k)) (inverted_store h new_keys pairs) =
    (Ok tt, inverted_store h new_keys (pairs ++ [(k, e)])).
Proof using new_keys_NoDup.
  intros He. apply list_elem_of_lookup in He as [j Hj].
  mstep ltac:(unfold subscript;
              mstep ltac:(unfold deref; by rewrite inverted_store_dict);
              rewrite key_of_val_of_key, (inverted_store_entry _ _ Hj);
              reflexivity).
  unfold list_append. rewrite (inverted_store_list _ _ _ Hj).
  by rewrite (inverted_store_append _ _ _ _ Hj).
Qed.

Lemma list_reverse_inner k els :
  forall pairs,
    (forall e, e ∈ els -> e ∈ new_keys) ->
    for_each (val_of_key <$> els)
      (fun el =>
         lst <- subscript (VRef (length h + length new_keys)) el ;;
         list_append lst (val_of_key k)) (inverted_store h new_keys pairs) =
      (Ok tt, inverted_store h new_keys (pairs ++ ((fun el => (k, el)) <$> els))).
Proof using new_keys_NoDup.
  induction els as [|e els IH]; intros pairs Hin.
  - cbn. by rewrite app_nil_r.
  - cbn [fmap list_fmap for_each].
    mstep ltac:(apply list_reverse_append, Hin, list_elem_of_here).
    rewrite IH; [by rewrite <- app_assoc|].
    intros e' He'. by apply Hin, list_elem_of_further.
Qed.

End InvertedStore.

Lemma key_elem_pairs_snoc src k xs :
  key_elem_pairs (src ++ [(k, xs)]) =
    key_elem_pairs src ++ ((fun el => (k, el)) <$> xs).
Proof.
  unfold key_elem_pairs. rewrite bind_app. cbn. by rewrite app_nil_r.
Qed.

Section ListReverse.

Variable set_order : list key -> list key.
Hypothesis set_order_spec :
  forall xs, NoDup (set_order xs) /\ forall x, x ∈ set_order xs <-> x ∈ xs.

Lemma list_reverse_run h self c es src :
  h !! self = Some (ODict c es) ->
  lists_view h es src ->
  let new_keys := set_order (mjoin src.*2) in
  SuperDict.list_reverse set_order self h =
    (Ok (VRef (length h + length new_keys)),
     inverted_store h new_keys (key_elem_pairs src)).
Proof using set_order_spec.
  intros Hself Hview new_keys.
  destruct (set_order_spec (mjoin src.*2)) as [Hnd Hin]. fold new_keys in Hnd, Hin.
  assert (Hlt : self < length h) by by eapply lookup_lt_Some.
  unfold SuperDict.list_reverse.
  mstep ltac:(by eapply get_items_Ok).
  mstep ltac:(by apply gather_lists).
  fold new_keys.
  mstep ltac:(by apply comp_empty_lists_run).
  mstep ltac:(reflexivity).
  rewrite length_app, length_replicate. cbn [app].
  assert (Hstart :
    (h ++ replicate (length new_keys) (OList [])) ++
      [ODict CSuperDict (imap (fun j e => (e, VRef (length h + j))) new_keys)] =
    inverted_store h new_keys (key_elem_pairs (take 0 src))).
  { unfold inverted_store. rewrite <- app_assoc. do 2 f_equal.
    clear. induction new_keys as [|e ks IH]; [done|]. cbn. by f_equal. }
  rewrite Hstart.
  destruct (for_items_inv self
    (fun k v =>
       els <- iter_val v ;;
       for_each els (fun el =>
         lst <- subscript (VRef (length h + length new_keys)) el ;;
         list_append lst (val_of_key k)))
    (fun i H => H = inverted_store h new_keys (key_elem_pairs (take i src)))
    (length es)
    (inverted_store h new_keys (key_elem_pairs (take 0 src))))
    as (h' & Hloop & ->); [|done|].
  - intros i H ->. exists c, es. split_and!.
    + by rewrite inverted_store_old.
    + done.
    + intros k v Hi.
      destruct (Forall2_lookup_l _ _ _ _ _ Hview Hi) as ([k' xs] & Hsrc & Hk & l & Hv & Hl).
      cbn in Hk, Hv, Hl. subst k' v.
      eexists. split.
      * mstep ltac:(unfold iter_val;
                    mstep ltac:(unfold deref;
                                rewrite inverted_store_old
                                  by (by eapply lookup_lt_Some);
                                by rewrite Hl);
                    reflexivity).
        apply list_reverse_inner; [done|].
        intros e He. apply Hin. apply list_elem_of_join. exists xs. split; [done|].
        apply list_elem_of_fmap. exists (k, xs). split; [done|].
        by eapply list_elem_of_lookup_2.
      * by rewrite (take_S_r _ _ _ Hsrc), key_elem_pairs_snoc.
  - mstep ltac:(exact Hloop).
    rewrite (Forall2_length _ _ _ Hview), firstn_all. reflexivity.
Qed.

(** C9 (as the code has it): on a mapping whose values are lists,
    [list_reverse] returns a new mapping whose keys are exactly the distinct
    elements of the value lists, each one once, and which maps an element [e]
    to the list of the original keys paired with [e], in iteration order: a
    key is listed once for every occurrence of [e] in its value list. *)
Theorem list_reverse_inverts h self c es src :
  h !! self = Some (ODict c es) ->
  lists_view h es src ->
  exists r h' out,
    SuperDict.list_reverse set_order self h = (Ok (VRef r), h') /\
    length h <= r /\
    (forall l, l < length h -> h' !! l = h !! l) /\
    h' !! r = Some (ODict CSuperDict out) /\
    NoDup out.*1 /\
    (forall e, e ∈ out.*1 <-> exists k xs, (k, xs) ∈ src /\ e ∈ xs) /\
    forall e, e ∈ out.*1 ->
      exists le, dict_get e out = Some (VRef le) /\
        h' !! le = Some (OList (val_of_key <$> keys_for (key_elem_pairs src) e)).
Proof using set_order_spec.
  intros Hself Hview.
  destruct (set_order_spec (mjoin src.*2)) as [Hnd Hin].
  eexists _, _, _. split; [by eapply list_reverse_run|].
  split; [lia|]. split; [intros l Hl; by apply inverted_store_old|].
  split; [apply inverted_store_dict|]. rewrite imap_keys.
  split; [done|]. split.
  - intros e. rewrite Hin, list_elem_of_join. split.
    + intros (xs & He & Hxs). apply list_elem_of_fmap in Hxs as ([k xs'] & -> & Hs).
      by exists k, xs'.
    + intros (k & xs & Hs & He). exists xs. split; [done|].
      apply list_elem_of_fmap. by exists (k, xs).
  - intros e He. apply list_elem_of_lookup in He as [j Hj].
    exists (length h + j). split.
    + by apply inverted_store_entry.
    + by apply inverted_store_list.
Qed.

End ListReverse.

Lemma set_order_ref_spec xs :
  NoDup (set_order_ref xs) /\ forall x, x ∈ set_order_ref xs <-> x ∈ xs.
Proof.
  split; [apply NoDup_remove_dups | intros x; apply elem_of_remove_dups].
Qed.

Lemma list_reverse_inverts_witness :
  let es := [(KStr "x", VRef 1); (KStr "y", VRef 2)] in
  let h := [ODict CSuperDict es;
            OList [VStr "a"; VStr "b"]; OList [VStr "b"]] in
  let src := [(KStr "x", [KStr "a"; KStr "b"]); (KStr "y", [KStr "b"])] in
  (forall xs, NoDup (set_order_ref xs) /\ forall x, x ∈ set_order_ref xs <-> x ∈ xs) /\
  h !! 0 = Some (ODict CSuperDict es) /\
  lists_view h es src /\
  exists r h' out,
    SuperDict.list_reverse set_order_ref 0 h = (Ok (VRef r), h') /\
    length h <= r /\
    (forall l, l < length h -> h' !! l = h !! l) /\
    h' !! r = Some (ODict CSuperDict out) /\
    NoDup out.*1 /\
    (forall e, e ∈ out.*1 <-> exists k xs, (k, xs) ∈ src /\ e ∈ xs) /\
    forall e, e ∈ out.*1 ->
      exists le, dict_get e out = Some (VRef le) /\
        h' !! le = Some (OList (val_of_key <$> keys_for (key_elem_pairs src) e)).
Proof.
  intros es h src.
  assert (Hview : lists_view h es src).
  { repeat constructor; cbn; by eexists. }
  split; [exact set_order_ref_spec|]. split; [reflexivity|].
  split; [exact Hview|].
  apply (list_reverse_inverts set_order_ref set_order_ref_spec h 0 CSuperDict es src);
    [reflexivity | exact Hview].
Defined.

(** The spec's example: [{'x': ['a', 'b'], 'y': ['b']}] is inverted into
    [{'a': ['x'], 'b': ['x', 'y']}]. *)
Example list_reverse_example :
  let h := [ODict CSuperDict [(KStr "x", VRef 1); (KStr "y", VRef 2)];
            OList [VStr "a"; VStr "b"]; OList [VStr "b"]] in
  SuperDict.list_reverse set_order_ref 0 h =
    (Ok (VRef 5),
     h ++ [OList [VStr "x"]; OList [VStr "x"; VStr "y"];
           ODict CSuperDict [(KStr "a", VRef 3); (KStr "b", VRef 4)]]).
Proof. vm_compute. reflexivity. Qed.

(** The code's lists and the spec's wording agree where no value list has a
    repeated element. *)
Lemma keys_for_NoDup_lists src e :
  Forall (fun s => NoDup s.2) src ->
  keys_for (key_elem_pairs src) e = keys_containing src e.
Proof.
  unfold keys_for, keys_containing, key_elem_pairs.
  induction 1 as [|[k xs] src Hxs _ IH]; [done|].
  cbn [mbind list_bind]. fold (@mbind list _ _ _ (fun s : key * list key =>
    (fun el => (s.1, el)) <$> s.2) src).
  rewrite filter_app, fmap_app, IH. cbn [fst snd] in *.
  assert (((filter (fun p : key * key => p.2 = e) ((fun el => (k, el)) <$> xs)).*1)
          = if decide (e ∈ xs) then [k] else []) as ->.
  { clear IH. induction xs as [|x xs IHxs]; [done|].
    apply NoDup_cons in Hxs as [Hx Hxs]. cbn [fmap list_fmap].
    destruct (decide (x = e)) as [->|Hne].
    - rewrite filter_cons_True by done. cbn [fmap list_fmap fst].
      fold (@fmap list _ _ _ (fun el : key => (k, el)) xs).
      rewrite IHxs by done. rewrite decide_False by done.
      by rewrite decide_True by apply list_elem_of_here.
    - rewrite filter_cons_False by done.
      fold (@fmap list _ _ _ (fun el : key => (k, el)) xs).
      rewrite IHxs by done.
      destruct (decide (e ∈ xs)).
      + by rewrite decide_True by by apply list_elem_of_further.
      + rewrite decide_False; [done|]. rewrite not_elem_of_cons. split; congruence. }
  case_decide.
  - by rewrite filter_cons_True.
  - by rewrite filter_cons_False.
Qed.

(** The claim itself fails where a value list repeats an element: on
    [{'x': ['a', 'a']}] the result is [{'a': ['x', 'x']}], while the keys
    whose list contains ['a'] are just [['x']]. *)
Lemma list_reverse_repeats_keys :
  let h := [ODict CSuperDict [(KStr "x", VRef 1)]; OList [VStr "a"; VStr "a"]] in
  SuperDict.list_reverse set_order_ref 0 h =
    (Ok (VRef 3),
     h ++ [OList [VStr "x"; VStr "x"]; ODict CSuperDict [(KStr "a", VRef 2)]]) /\
  keys_containing [(KStr "x", [KStr "a"; KStr "a"])] (KStr "a") = [KStr "x"].
Proof. split; vm_compute; reflexivity. Qed.

(** ** Trees of dictionaries *)

Lemma ftree_ind' (P : ftree -> Prop) :
  (forall v, P (FLeaf v)) ->
  (forall l ch, Forall (fun kt => P kt.2) ch -> P (FNode l ch)) ->
  forall t, P t.
Proof.
  intros Hleaf Hnode. fix IH 1. intros [v|l ch]; [apply Hleaf|].
  apply Hnode. induction ch as [|[k t] ch IHch]; constructor;
    [apply IH | exact IHch].
Qed.

Lemma locs_child l ch k t x :
  (k, t) ∈ ch -> x ∈ locs t -> x ∈ locs (FNode l ch).
Proof.
  intros Hkt Hx. cbn [locs]. apply list_elem_of_further.
  apply list_elem_of_bind. by exists (k, t).
Qed.

Lemma realized_locs n0 h t l :
  realized n0 h t -> l ∈ locs t -> n0 <= l /\ l < length h.
Proof.
  revert l. induction t as [v|s ch IH] using ftree_ind'; intros l Hr Hl.
  - by apply elem_of_nil in Hl.
  - inversion Hr as [|? ? Hn0 Hs Hnd Hch]; subst.
    cbn [locs] in Hl. apply elem_of_cons in Hl as [->|Hl].
    + split; [done | by eapply lookup_lt_Some].
    + apply list_elem_of_bind in Hl as ([k t] & Hl & Hkt).
      rewrite Forall_forall in IH, Hch.
      apply (IH _ Hkt); [by apply Hch | done].
Qed.

(** A tree stays realized when the store changes neither below [n0] nor at
    the tree's own dictionaries. *)
Lemma realized_frame n0 h h' t :
  realized n0 h t ->
  (forall l, l < n0 -> h' !! l = h !! l) ->
  (forall l, l ∈ locs t -> h' !! l = h !! l) ->
  realized n0 h' t.
Proof.
  induction t as [v|s ch IH] using ftree_ind'; intros Hr Hold Hown.
  - inversion Hr as [? Hv Hlt|]; subst. constructor; [|done].
    destruct v as [| | | |l]; try done. unfold is_dict in *.
    by rewrite Hold by by apply Hlt.
  - inversion Hr as [|? ? Hn0 Hs Hnd Hch]; subst. constructor; try done.
    + rewrite Hown; [done | apply list_elem_of_here].
    + rewrite Forall_forall in IH, Hch. apply Forall_forall.
      intros [k t] Hkt. apply (IH _ Hkt); [by apply Hch | done |].
      intros l Hl. apply Hown. by eapply locs_child.
Qed.

Lemma is_superdict_is_dict h v : is_dict h v = false -> is_superdict h v = false.
Proof.
  destruct v as [| | | |l]; try done. unfold is_dict, is_superdict.
  by destruct (h !! l) as [[[|] ?|?]|].
Qed.

Lemma dict_get_items_of k ch : dict_get k (items_of ch) = root <$> dict_get k ch.
Proof.
  induction ch as [|[k' t] ch IH]; [done|]. cbn.
  by destruct (key_eqb k k').
Qed.

Lemma items_of_dict_set k t ch :
  items_of (dict_set k t ch) = dict_set k (root t) (items_of ch).
Proof.
  unfold items_of. induction ch as [|[k' t'] ch IH]; [done|]. csimpl.
  destruct (key_eqb k k'); [done|]. csimpl. by rewrite IH.
Qed.

Lemma items_of_keys ch : (items_of ch).*1 = ch.*1.
Proof. unfold items_of. rewrite <- list_fmap_compose. done. Qed.

Section AssocSplit.
Context {V : Type}.
Implicit Types (k : key) (v : V) (es : list (key * V)).

Lemma dict_set_same k v es : dict_get k es = Some v -> dict_set k v es = es.
Proof.
  induction es as [|[k' v'] es IH]; [done|]. cbn.
  destruct (key_eqb_spec k k') as [->|Hne].
  - by intros [= ->].
  - intros H. by rewrite IH.
Qed.

Lemma dict_set_elem k v es x : x ∈ dict_set k v es -> x = (k, v) \/ x ∈ es.
Proof.
  induction es as [|[k' v'] es IH]; cbn.
  - intros H. apply list_elem_of_singleton in H. by left.
  - destruct (key_eqb k k').
    + intros H. apply elem_of_cons in H as [->|H]; [by left|].
      right. by apply list_elem_of_further.
    + intros H. apply elem_of_cons in H as [->|H].
      * right. apply list_elem_of_here.
      * destruct (IH H) as [->|?]; [by left|]. right. by apply list_elem_of_further.
Qed.

(** [d[k] = v] replaces the entry of [k], or adds one after the others. *)
Lemma dict_set_split k v es :
  exists es1 old es2,
    es = es1 ++ old ++ es2 /\
    dict_set k v es = es1 ++ (k, v) :: es2 /\
    (k ∉ es1.*1) /\
    match dict_get k es with
    | Some v0 => old = [(k, v0)]
    | None => old = [] /\ es2 = []
    end.
Proof.
  induction es as [|[k' v'] es IH]; cbn.
  - exists [], [], []. split_and!; try done. apply not_elem_of_nil.
  - destruct (key_eqb_spec k k') as [->|Hne].
    + exists [], [(k', v')], es. split_and!; try done. apply not_elem_of_nil.
    + destruct IH as (es1 & old & es2 & -> & -> & Hk & Hold).
      exists ((k', v') :: es1), old, es2. split_and!; try done.
      cbn. rewrite not_elem_of_cons. by split.
Qed.

End AssocSplit.

Lemma NoDup_replace_middle {A} (xs ys ys' zs : list A) :
  NoDup (xs ++ ys ++ zs) ->
  NoDup ys' ->
  (forall x, x ∈ ys' -> x ∈ ys \/ ((x ∉ xs) /\ (x ∉ zs))) ->
  NoDup (xs ++ ys' ++ zs).
Proof.
  intros Hnd Hys' Hin.
  apply NoDup_app in Hnd as (Hxs & Hd1 & Hnd).
  apply NoDup_app in Hnd as (Hys & Hd2 & Hzs).
  apply NoDup_app. split_and!; [done | | ].
  - intros x Hx Hx'. apply elem_of_app in Hx' as [Hx'|Hx'].
    + destruct (Hin _ Hx') as [Hy|[Hn _]]; [|done].
      apply (Hd1 _ Hx). apply elem_of_app. by left.
    + apply (Hd1 _ Hx). apply elem_of_app. by right.
  - apply NoDup_app. split_and!; [done | | done].
    intros x Hx Hx'. destruct (Hin _ Hx) as [Hy|[_ Hn]]; [|done].
    by apply (Hd2 _ Hy).
Qed.

Lemma locs_node_app l ch1 ch2 :
  locs (FNode l (ch1 ++ ch2)) =
    l :: (ch1 ≫= fun kt => locs kt.2) ++ (ch2 ≫= fun kt => locs kt.2).
Proof. cbn [locs]. by rewrite bind_app. Qed.

(** Replacing (or adding) the child [k] of a realized node by a tree [t']
    realized in the new store gives a realized node again. *)
Lemma realized_replace_child n0 h h' self ch k t' :
  realized n0 h (FNode self ch) ->
  NoDup (locs (FNode self ch)) ->
  h' !! self = Some (ODict CSuperDict (items_of (dict_set k t' ch))) ->
  realized n0 h' t' ->
  NoDup (locs t') ->
  (forall l, l < n0 -> h' !! l = h !! l) ->
  (forall l, l < length h -> l <> self ->
     l ∉ match dict_get k ch with Some t0 => locs t0 | None => [] end ->
     h' !! l = h !! l) ->
  (forall x, x ∈ locs t' ->
     x ∈ match dict_get k ch with Some t0 => locs t0 | None => [] end \/
     length h <= x) ->
  realized n0 h' (FNode self (dict_set k t' ch)) /\
  NoDup (locs (FNode self (dict_set k t' ch))) /\
  (forall x, x ∈ locs (FNode self (dict_set k t' ch)) ->
     x ∈ locs (FNode self ch) \/ length h <= x).
Proof.
  intros Hr Hnd Hself Hr' Hnd' Hold Hframe Hnew.
  assert (Hin : forall x, x ∈ locs (FNode self ch) -> n0 <= x /\ x < length h)
    by (intros x; by apply realized_locs).
  inversion Hr as [|? ? Hn0 Hs Hkeys Hch]; subst.
  destruct (dict_set_split k t' ch) as (ch1 & old & ch2 & Hsplit & Hset & Hk & Hcase).
  set (oldlocs := match dict_get k ch with Some t0 => locs t0 | None => [] end) in *.
  assert (Holdlocs : (old ≫= fun kt => locs kt.2) = oldlocs).
  { unfold oldlocs. destruct (dict_get k ch) as [t0|].
    - subst old. cbn. by rewrite app_nil_r.
    - by destruct Hcase as [-> _]. }
  set (L1 := ch1 ≫= fun kt => locs kt.2) in *.
  set (L2 := ch2 ≫= fun kt => locs kt.2) in *.
  assert (Hlocs : locs (FNode self ch) = self :: L1 ++ oldlocs ++ L2).
  { rewrite Hsplit at 1. by rewrite locs_node_app, bind_app, Holdlocs. }
  assert (Hlocs' : locs (FNode self (dict_set k t' ch)) =
                   self :: L1 ++ locs t' ++ L2).
  { rewrite Hset. change ((k, t') :: ch2) with ([(k, t')] ++ ch2).
    rewrite locs_node_app, bind_app. cbn [mbind list_bind snd].
    by rewrite app_nil_r. }
  rewrite Hlocs in Hnd, Hin. rewrite Hlocs', Hlocs. clear Hlocs Hlocs'.
  rewrite Hsplit in Hch.
  apply NoDup_cons in Hnd as [Hself_out Hnd].
  assert (Hself_lt : self < length h) by by eapply lookup_lt_Some.
  assert (Hsib : forall kt, kt ∈ ch1 ++ ch2 -> realized n0 h' kt.2).
  { intros [k1 t1] Hkt.
    assert (Hr1 : realized n0 h t1).
    { rewrite Forall_forall in Hch. apply (Hch (k1, t1)).
      apply elem_of_app in Hkt as [?|?]; apply elem_of_app;
        [by left | right; apply elem_of_app; by right]. }
    assert (Hsub : forall l, l ∈ locs t1 -> l ∈ L1 \/ l ∈ L2).
    { intros l Hl. apply elem_of_app in Hkt as [?|?]; [left|right];
        apply list_elem_of_bind; by exists (k1, t1). }
    eapply realized_frame; [exact Hr1 | exact Hold |].
    intros l Hl. cbn [snd] in Hl.
    apply NoDup_app in Hnd as (_ & Hd1 & Hnd2).
    apply NoDup_app in Hnd2 as (_ & Hd2 & _).
    apply Hframe.
    - apply (realized_locs _ _ _ _ Hr1 Hl).
    - intros ->. apply Hself_out. destruct (Hsub _ Hl);
        apply elem_of_app; [by left | right; apply elem_of_app; by right].
    - intros Ho. destruct (Hsub _ Hl) as [H1|H2].
      + apply (Hd1 _ H1). apply elem_of_app. by left.
      + by apply (Hd2 _ Ho). }
  split_and!.
  - constructor; [done | done | by apply dict_set_NoDup |].
    + rewrite Hset. apply Forall_app. split; [|apply Forall_cons; split].
      * apply Forall_forall. intros kt Hkt. apply Hsib, elem_of_app. by left.
      * done.
      * apply Forall_forall. intros kt Hkt. apply Hsib, elem_of_app. by right.
  - apply NoDup_cons. split.
    + intros Hs'. apply elem_of_app in Hs' as [Hs'|Hs'];
        [|apply elem_of_app in Hs' as [Hs'|Hs']].
      * apply Hself_out, elem_of_app. by left.
      * destruct (Hnew _ Hs') as [Ho|?]; [|lia].
        apply Hself_out, elem_of_app. right. apply elem_of_app. by left.
      * apply Hself_out, elem_of_app. right. apply elem_of_app. by right.
    + eapply NoDup_replace_middle; [exact Hnd | exact Hnd' |].
      intros x Hx. destruct (Hnew _ Hx) as [?|Hge]; [by left|]. right.
      split; intros Hx'.
      * assert (x < length h); [|lia].
        apply Hin, list_elem_of_further, elem_of_app. by left.
      * assert (x < length h); [|lia].
        apply Hin, list_elem_of_further, elem_of_app. right.
        apply elem_of_app. by right.
  - intros x Hx. apply elem_of_cons in Hx as [->|Hx];
      [left; apply list_elem_of_here|].
    apply elem_of_app in Hx as [Hx|Hx]; [|apply elem_of_app in Hx as [Hx|Hx]].
    + left. apply list_elem_of_further, elem_of_app. by left.
    + destruct (Hnew _ Hx) as [?|?]; [|by right].
      left. apply list_elem_of_further, elem_of_app. right.
      apply elem_of_app. by left.
    + left. apply list_elem_of_further, elem_of_app. right.
      apply elem_of_app. by right.
Qed.

(** ** [set_m] on trees *)

(** One level of [set_m]: descend into the [SuperDict] found at the first
    key, or else put a new [SuperDict] there and descend into it. *)
Lemma set_m_descend self k k2 rest value h c es :
  h !! self = Some (ODict c es) ->
  SuperDict.set_m self (k :: k2 :: rest) value h =
    if match dict_get k es with
       | Some cur => is_superdict h cur
       | None => false
       end
    then (match dict_get k es with
          | Some (VRef l) => SuperDict.set_m l (k2 :: rest) value ;;; ret (VRef self)
          | _ => raise SystemError
          end) h
    else (SuperDict.set_m (length h) (k2 :: rest) value ;;; ret (VRef self))
           (<[self := ODict c (dict_set k (VRef (length h)) es)]>
              (h ++ [ODict CSuperDict []])).
Proof.
  intros Hself.
  assert (Hlt : self < length h) by by eapply lookup_lt_Some.
  assert (Hself' : (h ++ [ODict CSuperDict []]) !! self = Some (ODict c es))
    by by apply lookup_app_l_Some.
  assert (Hnew : forall (K : val -> M val),
    ((d <- alloc (ODict CSuperDict []) ;; set_item self k (VRef d)) ;;;
     sub <- get_item self k ;; K sub) h =
    K (VRef (length h))
      (<[self := ODict c (dict_set k (VRef (length h)) es)]>
         (h ++ [ODict CSuperDict []]))).
  { intros K.
    mstep ltac:(mstep ltac:(reflexivity); by eapply set_item_Ok).
    mstep ltac:(eapply get_item_Ok;
                [by eapply lookup_insert_same | apply dict_get_set_eq]).
    reflexivity. }
  cbn [SuperDict.set_m].
  mstep ltac:(by eapply contains_Ok).
  unfold dict_mem. destruct (dict_get k es) as [cur|] eqn:Ecur.
  - mstep ltac:(mstep ltac:(by eapply get_item_Ok); reflexivity).
    destruct (is_superdict h cur) eqn:Esd.
    + mstep ltac:(reflexivity).
      mstep ltac:(by eapply get_item_Ok).
      destruct cur; try done.
    + apply Hnew.
  - mstep ltac:(reflexivity). apply Hnew.
Qed.

Lemma fset_nonempty_path n ch k rest value :
  fset n ch (k :: rest) value =
    match rest with
    | [] => (dict_set k (FLeaf value) ch, n)
    | _ :: _ =>
        match dict_get k ch with
        | Some (FNode l sub) =>
            (dict_set k (FNode l (fset n sub rest value).1) ch,
             (fset n sub rest value).2)
        | _ =>
            (dict_set k (FNode n (fset (S n) [] rest value).1) ch,
             (fset (S n) [] rest value).2)
        end
    end.
Proof. by destruct rest. Qed.

Lemma realized_value_grow n0 h h' value :
  is_dict h value = false ->
  (forall l, value = VRef l -> l < n0) ->
  (forall l, l < n0 -> h' !! l = h !! l) ->
  is_dict h' value = false.
Proof.
  intros Hv Hlt Hold. destruct value as [| | | |l]; try done.
  unfold is_dict in *. by rewrite Hold by by apply Hlt.
Qed.

Lemma locs_child_NoDup s ch k t :
  NoDup (locs (FNode s ch)) -> (k, t) ∈ ch ->
  NoDup (locs t) /\ s ∉ locs t.
Proof.
  intros Hnd Hkt. apply list_elem_of_split in Hkt as (ch1 & ch2 & ->).
  change ((k, t) :: ch2) with ([(k, t)] ++ ch2) in Hnd.
  rewrite locs_node_app, bind_app in Hnd. cbn [mbind list_bind snd] in Hnd.
  rewrite app_nil_r in Hnd.
  apply NoDup_cons in Hnd as [Hs Hnd].
  apply NoDup_app in Hnd as (_ & _ & Hnd). apply NoDup_app in Hnd as (Hnd & _ & _).
  split; [done|]. intros Hin. apply Hs.
  apply elem_of_app. right. apply elem_of_app. by left.
Qed.

Lemma set_m_tree n0 args :
  forall self ch value h,
    args <> [] ->
    realized n0 h (FNode self ch) ->
    NoDup (locs (FNode self ch)) ->
    is_dict h value = false ->
    (forall l, value = VRef l -> l < n0) ->
    exists h',
      SuperDict.set_m self args value h = (Ok (VRef self), h') /\
      realized n0 h' (FNode self (fset (length h) ch args value).1) /\
      NoDup (locs (FNode self (fset (length h) ch args value).1)) /\
      length h' = (fset (length h) ch args value).2 /\
      length h <= length h' /\
      (forall x, x ∈ locs (FNode self (fset (length h) ch args value).1) ->
         x ∈ locs (FNode self ch) \/ length h <= x) /\
      (forall l, l < length h -> l ∉ locs (FNode self ch) -> h' !! l = h !! l).
Proof.
  induction args as [|k rest IH]; intros self ch value h Hne Hr Hnd Hv Hvlt; [done|].
  clear Hne.
  assert (Hself : h !! self = Some (ODict CSuperDict (items_of ch)))
    by by inversion Hr.
  assert (Hn0 : n0 <= self) by by inversion Hr.
  assert (Hself_lt : self < length h) by by eapply lookup_lt_Some.
  rewrite fset_nonempty_path. destruct rest as [|k2 rest].
  { (* the last key: assign *)
    set (h' := <[self := ODict CSuperDict (dict_set k value (items_of ch))]> h).
    assert (Hframe : forall l, l <> self -> h' !! l = h !! l).
    { intros l Hl. unfold h'. by rewrite list_lookup_insert_ne. }
    destruct (realized_replace_child n0 h h' self ch k (FLeaf value))
      as (Hr' & Hnd' & Hsub); try done.
    - unfold h'. rewrite items_of_dict_set. by eapply lookup_insert_same.
    - constructor; [|done]. eapply realized_value_grow; try done.
      intros l Hl. apply Hframe. lia.
    - apply NoDup_nil_2.
    - intros l Hl. apply Hframe. lia.
    - intros l _ Hl _. by apply Hframe.
    - intros x Hx. by apply elem_of_nil in Hx.
    - exists h'. cbn [fst snd]. split_and!; try done.
      + by apply set_m_single.
      + unfold h'. by rewrite length_insert.
      + unfold h'. by rewrite length_insert.
      + intros l _ Hl. apply Hframe. intros ->. apply Hl, list_elem_of_here. }
  rewrite (set_m_descend _ _ _ _ _ _ _ _ Hself), dict_get_items_of.
  (* the path through a new dictionary *)
  assert (Halloc :
    match dict_get k ch with Some t0 => locs t0 | None => [] end = [] ->
    let r := fset (S (length h)) [] (k2 :: rest) value in
    exists h',
      (SuperDict.set_m (length h) (k2 :: rest) value ;;; ret (VRef self))
        (<[self := ODict CSuperDict (dict_set k (VRef (length h)) (items_of ch))]>
           (h ++ [ODict CSuperDict []])) = (Ok (VRef self), h') /\
      realized n0 h' (FNode self (dict_set k (FNode (length h) r.1) ch)) /\
      NoDup (locs (FNode self (dict_set k (FNode (length h) r.1) ch))) /\
      length h' = r.2 /\
      length h <= length h' /\
      (forall x, x ∈ locs (FNode self (dict_set k (FNode (length h) r.1) ch)) ->
         x ∈ locs (FNode self ch) \/ length h <= x) /\
      (forall l, l < length h -> l ∉ locs (FNode self ch) -> h' !! l = h !! l)).
  { intros Hold0 r.
    set (d := length h) in *.
    set (h1 := <[self := ODict CSuperDict (dict_set k (VRef d) (items_of ch))]>
                 (h ++ [ODict CSuperDict []])).
    assert (Hlen1 : length h1 = S d).
    { unfold h1. rewrite length_insert, length_app. cbn. lia. }
    assert (Hh1 : forall l, l <> self -> l < d -> h1 !! l = h !! l).
    { intros l Hl Hld. unfold h1. rewrite list_lookup_insert_ne by done.
      by apply lookup_app_l. }
    assert (Hd1 : h1 !! d = Some (ODict CSuperDict [])).
    { unfold h1, d. by apply lookup_alloc_insert. }
    assert (Hself1 : h1 !! self =
              Some (ODict CSuperDict (dict_set k (VRef d) (items_of ch)))).
    { unfold h1. apply list_lookup_insert_eq. rewrite length_app. lia. }
    destruct (IH d [] value h1) as (h' & Hrun & Hr' & Hnd' & Hlen' & Hle' & Hsub' & Hframe');
      [done | | | | done |].
    { constructor; [lia | done | apply NoDup_nil_2 | constructor]. }
    { cbn. apply NoDup_singleton. }
    { eapply realized_value_grow; try done. intros l Hl. apply Hh1; lia. }
    rewrite Hlen1 in Hlen', Hsub', Hframe', Hr', Hnd'. fold r in Hlen', Hsub', Hr', Hnd'.
    assert (Hkeep : forall l, l < d -> l <> self -> h' !! l = h !! l).
    { intros l Hld Hl. rewrite Hframe'; [by apply Hh1 | lia |].
      cbn. intros Hin. apply list_elem_of_singleton in Hin. lia. }
    destruct (realized_replace_child n0 h h' self ch k (FNode d r.1))
      as (Hr2 & Hnd2 & Hsub2); try done.
    - rewrite items_of_dict_set. cbn [root].
      rewrite Hframe'; [done | lia |].
      cbn. intros Hin. apply list_elem_of_singleton in Hin. lia.
    - intros l Hl. apply Hkeep; lia.
    - intros l Hl Hne _. by apply Hkeep.
    - intros x Hx. right. destruct (Hsub' _ Hx) as [Hin|?]; [|lia].
      cbn in Hin. apply list_elem_of_singleton in Hin. fold d. lia.
    - exists h'. split_and!; try done.
      + mstep ltac:(exact Hrun). reflexivity.
      + lia.
      + intros l Hld Hl. apply Hkeep; [done|].
        intros ->. apply Hl, list_elem_of_here. }
  destruct (dict_get k ch) as [[v0|l sub]|] eqn:Ek;
    cbn [fmap option_fmap option_map root fst snd].
  - (* a leaf in the way: it is replaced by a new dictionary *)
    assert (is_superdict h v0 = false) as ->; [|by apply Halloc].
    apply is_superdict_is_dict.
    apply dict_get_Some_elem in Ek.
    inversion Hr as [|? ? ? ? ? Hch]; subst.
    rewrite Forall_forall in Hch. specialize (Hch _ Ek). by inversion Hch.
  - (* a dictionary of the tree: descend *)
    assert (Hkt : (k, FNode l sub) ∈ ch) by by apply dict_get_Some_elem.
    assert (Hrl : realized n0 h (FNode l sub)).
    { inversion Hr as [|? ? ? ? ? Hch]; subst.
      rewrite Forall_forall in Hch. apply (Hch _ Hkt). }
    destruct (locs_child_NoDup _ _ _ _ Hnd Hkt) as [Hndl Hself_out].
    assert (Hl : h !! l = Some (ODict CSuperDict (items_of sub)))
      by by inversion Hrl.
    unfold is_superdict. rewrite Hl.
    destruct (IH l sub value h) as (h' & Hrun & Hr' & Hnd' & Hlen' & Hle' & Hsub' & Hframe');
      try done.
    destruct (realized_replace_child n0 h h' self ch k
                (FNode l (fset (length h) sub (k2 :: rest) value).1))
      as (Hr2 & Hnd2 & Hsub2); try done.
    + rewrite items_of_dict_set. cbn [root].
      rewrite dict_set_same by (by rewrite dict_get_items_of, Ek).
      by rewrite Hframe'.
    + intros x Hx. apply Hframe'; [lia|].
      intros Hin. apply (realized_locs _ _ _ _ Hrl) in Hin. lia.
    + rewrite Ek. intros x Hx _ Hout. by apply Hframe'.
    + by rewrite Ek.
    + exists h'. split_and!; try done.
      * mstep ltac:(exact Hrun). reflexivity.
      * intros x Hx Hout. apply Hframe'; [done|].
        intros Hin. apply Hout. by eapply locs_child.
  - by apply Halloc.
Qed.

(** ** [to_dictdict] on a mapping with tuple keys *)

Lemma fset_all_snoc st paths pv :
  fset_all st (paths ++ [pv]) =
    fset (fset_all st paths).2 (fset_all st paths).1 pv.1 pv.2.
Proof. unfold fset_all. by rewrite fold_left_app. Qed.

Lemma to_dictdict_tree h m c paths :
  h !! m = Some (ODict c (tuple_items paths)) ->
  Forall (fun pv => pv.1 <> []) paths ->
  Forall (fun pv => leaf_value (length h) h pv.2) paths ->
  let d := length h in
  let r := fset_all ([], S d) paths in
  exists h',
    SuperDict.to_dictdict m h = (Ok (VRef d), h') /\
    realized d h' (FNode d r.1) /\
    NoDup (locs (FNode d r.1)) /\
    length h' = r.2 /\
    (forall l, l < d -> h' !! l = h !! l).
Proof.
  intros Hm Hne Hleaf d r.
  assert (Hmlt : m < d) by by eapply lookup_lt_Some.
  set (h0 := h ++ [ODict CSuperDict []]).
  set (I := fun (i : nat) (H : heap) =>
              let st := fset_all ([], S d) (take i paths) in
              realized d H (FNode d st.1) /\
              NoDup (locs (FNode d st.1)) /\
              length H = st.2 /\
              (forall l, l < d -> H !! l = h !! l)).
  destruct (for_items_inv m
    (fun tup value =>
       args <- SuperDict.unpack tup ;;
       SuperDict.set_m d args value ;;; ret tt)
    I (length paths) h0) as (h' & Hloop & HI).
  - intros i H (Hr & Hnd & Hlen & Hold).
    exists c, (tuple_items paths). split_and!.
    + by rewrite Hold.
    + unfold tuple_items. by rewrite length_fmap.
    + intros k v Hi. unfold tuple_items in Hi.
      rewrite list_lookup_fmap in Hi.
      destruct (paths !! i) as [[p v']|] eqn:Hpi; [|done].
      cbn in Hi. injection Hi as <- <-.
      rewrite Forall_forall in Hne, Hleaf.
      assert (Hin : (p, v') ∈ paths) by by eapply list_elem_of_lookup_2.
      destruct (Hleaf _ Hin) as [Hv Hvlt]. cbn [snd] in Hv, Hvlt.
      destruct (set_m_tree d p d _ v' H (Hne _ Hin) Hr Hnd)
        as (H' & Hrun & Hr' & Hnd' & Hlen' & Hle' & _ & Hframe'); [|done|].
      { by eapply realized_value_grow. }
      exists H'. split.
      * mstep ltac:(reflexivity). mstep ltac:(exact Hrun). reflexivity.
      * unfold I. rewrite (take_S_r _ _ _ Hpi), fset_all_snoc.
        cbn [fst snd]. rewrite <- Hlen. split_and!; try done.
        intros l Hl. rewrite <- Hold by done. apply Hframe'.
        -- assert (d < length H); [|lia].
           apply (realized_locs _ _ _ d Hr), list_elem_of_here.
        -- intros Hin'. apply (realized_locs _ _ _ _ Hr) in Hin'. lia.
  - unfold I, h0. rewrite take_0. cbn. split_and!.
    + constructor; [done | by apply lookup_alloc | apply NoDup_nil_2 | constructor].
    + apply NoDup_singleton.
    + rewrite length_app. cbn. unfold d. lia.
    + intros l Hl. by apply lookup_app_l.
  - exists h'. unfold I in HI. rewrite firstn_all in HI.
    destruct HI as (Hr & Hnd & Hlen & Hold).
    split_and!; try done.
    unfold SuperDict.to_dictdict.
    mstep ltac:(reflexivity). mstep ltac:(exact Hloop). reflexivity.
Qed.

(** ** [dicts_to_tup] on trees *)

Lemma depth_child l ch k t : (k, t) ∈ ch -> depth t < depth (FNode l ch).
Proof.
  intros Hkt. cbn [depth]. apply Nat.lt_succ_r.
  induction ch as [|[k' t'] ch IH]; [by apply elem_of_nil in Hkt|].
  cbn. apply elem_of_cons in Hkt as [[= <- <-]|Hkt]; [lia|].
  specialize (IH Hkt). lia.
Qed.

Lemma dict_update_all_assoc {V} (es a b : list (key * V)) :
  dict_update_all (dict_update_all es a) b = dict_update_all es (a ++ b).
Proof. unfold dict_update_all. by rewrite fold_left_app. Qed.

(** Flattening a realized tree into the dictionary [out], which is not part
    of the tree, adds the tree's [tflat] entries to [out] and changes nothing
    else. *)
Lemma dicts_to_tup_tree n0 out t :
  forall fuel keys H c items,
    depth t < fuel ->
    realized n0 H t ->
    out ∉ locs t ->
    n0 <= out ->
    H !! out = Some (ODict c items) ->
    SuperDict.dicts_to_tup fuel out keys (root t) H =
      (Ok (VRef out),
       <[out := ODict c (dict_update_all items (tflat keys t))]> H).
Proof.
  induction t as [v|l ch IH] using ftree_ind';
    intros fuel keys H c items Hfuel Hr Hout Hn0 Hitems.
  - destruct fuel as [|fuel]; [lia|]. cbn [SuperDict.dicts_to_tup root].
    inversion Hr as [? Hv _|]; subst.
    mstep ltac:(reflexivity). rewrite Hv. cbn [negb].
    mstep ltac:(by eapply set_item_Ok). reflexivity.
  - destruct fuel as [|fuel]; [lia|]. cbn [SuperDict.dicts_to_tup root].
    inversion Hr as [|? ? Hl_n0 Hl Hkeys Hch]; subst.
    assert (Hlout : l <> out).
    { intros ->. apply Hout, list_elem_of_here. }
    mstep ltac:(reflexivity). unfold is_dict. rewrite Hl. cbn [negb].
    set (store := fun (i : nat) =>
           <[out := ODict c (dict_update_all items
                     (take i ch ≫= fun kt => tflat (keys ++ [kt.1]) kt.2))]> H).
    destruct (for_items_inv l
      (fun key value =>
         SuperDict.dicts_to_tup fuel out (keys ++ [key]) value ;;; ret tt)
      (fun i H' => H' = store i) (length ch) H) as (H' & Hloop & ->).
    + intros i ? ->. exists CSuperDict, (items_of ch). split_and!.
      * unfold store. by rewrite list_lookup_insert_ne.
      * unfold items_of. by rewrite length_fmap.
      * intros k v Hi. unfold items_of in Hi. rewrite list_lookup_fmap in Hi.
        destruct (ch !! i) as [[k' t]|] eqn:Hchi; [|done].
        cbn in Hi. injection Hi as <- <-.
        assert (Hkt : (k', t) ∈ ch) by by eapply list_elem_of_lookup_2.
        rewrite Forall_forall in IH, Hch.
        exists (store (S i)). split; [|done].
        mstep ltac:(eapply (IH _ Hkt)).
        -- pose proof (depth_child l _ _ _ Hkt). cbn [snd]. lia.
        -- eapply realized_frame; [by apply (Hch _ Hkt) | |].
           ++ intros x Hx. unfold store. apply list_lookup_insert_ne. lia.
           ++ intros x Hx. unfold store. apply list_lookup_insert_ne.
              intros <-. apply Hout. by eapply locs_child.
        -- intros Hin. apply Hout. by eapply locs_child.
        -- done.
        -- unfold store. by eapply lookup_insert_same.
        -- unfold ret, store. rewrite list_insert_insert_eq.
           rewrite dict_update_all_assoc, (take_S_r _ _ _ Hchi), bind_app.
           cbn. by rewrite app_nil_r.
    + unfold store. rewrite take_0. cbn. by rewrite list_insert_id.
    + mstep ltac:(exact Hloop). unfold store. by rewrite firstn_all.
Qed.

(** ** The leaves of the tree [to_dictdict] builds *)

Lemma tflat_tleaves t :
  forall keys,
    tflat keys t = (fun pv => (KTuple (keys ++ pv.1), pv.2)) <$> tleaves t.
Proof.
  induction t as [v|l ch IH] using ftree_ind'; intros keys.
  - cbn. by rewrite app_nil_r.
  - cbn [tflat tleaves]. induction IH as [|[k t] ch Ht _ IHch]; [done|].
    cbn [mbind list_bind fst snd] in *.
    fold (@mbind list _ _ _ (fun kt : key * ftree => tflat (keys ++ [kt.1]) kt.2) ch).
    fold (@mbind list _ _ _
            (fun kt : key * ftree =>
               (fun pv : list key * val => (kt.1 :: pv.1, pv.2)) <$> tleaves kt.2) ch).
    rewrite fmap_app, IHch, Ht. f_equal.
    rewrite <- list_fmap_compose. apply list_fmap_ext.
    intros i [p v] _. cbn. by rewrite <- app_assoc.
Qed.

Lemma tleaves_node_app l ch1 ch2 :
  tleaves (FNode l (ch1 ++ ch2)) = tleaves (FNode l ch1) ++ tleaves (FNode l ch2).
Proof. cbn [tleaves]. by rewrite bind_app. Qed.

Lemma tleaves_node_single l k t :
  tleaves (FNode l [(k, t)]) = (fun pv => (k :: pv.1, pv.2)) <$> tleaves t.
Proof. cbn. by rewrite app_nil_r. Qed.

Lemma tleaves_node_irrel l l' ch : tleaves (FNode l ch) = tleaves (FNode l' ch).
Proof. done. Qed.

(** Setting a path that is incomparable with the paths of the leaves adds
    one leaf and keeps the others. *)
Lemma fset_leaves args :
  forall l ch value n,
    args <> [] ->
    (forall q, q ∈ (tleaves (FNode l ch)).*1 ->
       ~ args `prefix_of` q /\ ~ q `prefix_of` args) ->
    tleaves (FNode l (fset n ch args value).1) ≡ₚ
      tleaves (FNode l ch) ++ [(args, value)].
Proof.
  induction args as [|k rest IH]; intros l ch value n Hne Hinc; [done|]. clear Hne.
  rewrite fset_nonempty_path.
  (* it is enough to compare the new child with the old one *)
  assert (Hchild : forall t',
    (fun pv => (k :: pv.1, pv.2)) <$> tleaves t' ≡ₚ
      match dict_get k ch with
      | Some t0 => (fun pv => (k :: pv.1, pv.2)) <$> tleaves t0
      | None => []
      end ++ [(k :: rest, value)] ->
    tleaves (FNode l (dict_set k t' ch)) ≡ₚ
      tleaves (FNode l ch) ++ [(k :: rest, value)]).
  { intros t' Ht'.
    destruct (dict_set_split k t' ch) as (ch1 & old & ch2 & Hsplit & -> & _ & Hcase).
    rewrite Hsplit at 1.
    change ((k, t') :: ch2) with ([(k, t')] ++ ch2).
    rewrite !tleaves_node_app, tleaves_node_single, Ht'.
    assert (tleaves (FNode l old) =
            match dict_get k ch with
            | Some t0 => (fun pv => (k :: pv.1, pv.2)) <$> tleaves t0
            | None => []
            end) as <-.
    { destruct (dict_get k ch) as [t0|].
      - subst old. apply tleaves_node_single.
      - by destruct Hcase as [-> _]. }
    rewrite <- !app_assoc. apply Permutation_app_head, Permutation_app_head.
    apply Permutation_app_comm. }
  (* the leaves below the old child [k] *)
  assert (Hbelow : forall t0 q, dict_get k ch = Some t0 -> q ∈ (tleaves t0).*1 ->
            ~ rest `prefix_of` q /\ ~ q `prefix_of` rest).
  { intros t0 q Hk Hq.
    destruct (Hinc (k :: q)) as [H1 H2].
    - apply dict_get_Some_elem, list_elem_of_split in Hk as (ch1 & ch2 & ->).
      change ((k, t0) :: ch2) with ([(k, t0)] ++ ch2).
      rewrite !tleaves_node_app, tleaves_node_single, !fmap_app.
      apply elem_of_app. right. apply elem_of_app. left.
      rewrite <- list_fmap_compose.
      apply list_elem_of_fmap in Hq as ([q' v'] & -> & Hq).
      apply list_elem_of_fmap. by exists (q', v').
    - split; intros Hp; [apply H1 | apply H2]; by apply prefix_cons. }
  destruct rest as [|k2 rest].
  - cbn [fst]. apply Hchild. cbn.
    destruct (dict_get k ch) as [t0|] eqn:Ek; [|done].
    destruct (tleaves t0) as [|[q v] tl] eqn:Et0; [done|].
    destruct (Hbelow t0 q eq_refl) as [H1 _].
    + rewrite Et0. apply list_elem_of_here.
    + exfalso. apply H1, prefix_nil.
  - destruct (dict_get k ch) as [[v0|l0 sub]|] eqn:Ek; cbn [fst].
    + destruct (Hbelow (FLeaf v0) [] eq_refl) as [_ H2].
      * cbn. apply list_elem_of_here.
      * exfalso. apply H2, prefix_nil.
    + apply Hchild.
      rewrite (IH l0 sub value n); [by rewrite fmap_app | done |].
      intros q Hq. by apply (Hbelow (FNode l0 sub)).
    + apply Hchild.
      rewrite (IH n [] value (S n)); [done | done |].
      intros q Hq. by apply elem_of_nil in Hq.
Qed.

Lemma prefix_free_Permutation ps qs :
  ps ≡ₚ qs -> prefix_free ps -> prefix_free qs.
Proof.
  intros Hp [Hnd Hpre]. split; [by rewrite <- Hp|].
  intros p q. rewrite <- !Hp. apply Hpre.
Qed.

Lemma fset_all_cons st pv paths :
  fset_all st (pv :: paths) = fset_all (fset st.2 st.1 pv.1 pv.2) paths.
Proof. done. Qed.

Lemma fset_all_leaves paths :
  forall l ch n,
    Forall (fun pv => pv.1 <> []) paths ->
    prefix_free ((tleaves (FNode l ch)).*1 ++ paths.*1) ->
    tleaves (FNode l (fset_all (ch, n) paths).1) ≡ₚ tleaves (FNode l ch) ++ paths.
Proof.
  induction paths as [|[p v] paths IH]; intros l ch n Hne Hfree.
  - cbn. by rewrite app_nil_r.
  - apply Forall_cons in Hne as [Hp Hne]. cbn [fst] in Hp.
    rewrite fset_all_cons. cbn [fst snd].
    assert (Hstep : tleaves (FNode l (fset n ch p v).1) ≡ₚ
                    tleaves (FNode l ch) ++ [(p, v)]).
    { apply fset_leaves; [done|]. intros q Hq.
      destruct Hfree as [Hnd Hpre].
      assert (Hqin : q ∈ (tleaves (FNode l ch)).*1 ++ ((p, v) :: paths).*1)
        by (apply elem_of_app; by left).
      assert (Hpin : p ∈ (tleaves (FNode l ch)).*1 ++ ((p, v) :: paths).*1)
        by (apply elem_of_app; right; apply list_elem_of_here).
      assert (Hpq : p <> q).
      { intros ->. apply NoDup_app in Hnd as (_ & Hd & _).
        apply (Hd _ Hq), list_elem_of_here. }
      split; intros Hpref.
      - by apply Hpq, Hpre.
      - apply Hpq. symmetry. by apply Hpre. }
    destruct (fset n ch p v) as [ch1 n1]. cbn [fst snd] in *.
    rewrite IH; [| done |].
    + rewrite Hstep, <- app_assoc. done.
    + eapply prefix_free_Permutation; [|exact Hfree].
      rewrite Hstep, fmap_app, <- app_assoc. done.
Qed.

Lemma tuple_items_keys_NoDup paths :
  NoDup paths.*1 -> NoDup (tuple_items paths).*1.
Proof.
  intros Hnd. unfold tuple_items. rewrite <- list_fmap_compose.
  change (fst ∘ (fun pv : list key * val => (KTuple pv.1, pv.2)))
    with (KTuple ∘ (fst : list key * val -> list key)).
  rewrite list_fmap_compose. apply NoDup_fmap_2; [|done].
  by intros x y [= ->].
Qed.

Section RoundTrip.
Context (h : heap) (m : loc) (c : cls) (paths : list (list key * val)).
Hypothesis mapping : h !! m = Some (ODict c (tuple_items paths)).
Hypothesis nonempty_keys : Forall (fun pv => pv.1 <> []) paths.
Hypothesis prefix_free_keys : prefix_free paths.*1.
Hypothesis leaf_values : Forall (fun pv => leaf_value (length h) h pv.2) paths.

(** C1 (as the code has it): for a mapping whose keys are non-empty tuples,
    none of them a prefix of another, and whose values are not mappings,
    [to_dictdict] followed by [to_dictup] returns a new mapping with the same
    entries as the original, up to their order, and leaves the original
    untouched. *)
Theorem to_dictdict_to_dictup_roundtrip :
  exists fuel0, forall fuel, fuel0 <= fuel ->
    exists r h' es',
      roundtrip fuel m h = (Ok (VRef r), h') /\
      h' !! r = Some (ODict CSuperDict es') /\
      es' ≡ₚ tuple_items paths /\
      length h <= r /\
      (forall l, l < length h -> h' !! l = h !! l).
Proof using mapping nonempty_keys prefix_free_keys leaf_values.
  destruct (to_dictdict_tree h m c paths mapping nonempty_keys leaf_values)
    as (h1 & Hrun & Hr & Hnd & Hlen & Hold).
  set (d := length h) in *.
  set (t := FNode d (fset_all ([], S d) paths).1) in *.
  exists (S (depth t)). intros fuel Hfuel.
  assert (Hleaves : tleaves t ≡ₚ paths).
  { unfold t. rewrite fset_all_leaves; [done | done |]. by cbn. }
  assert (Hflat : tflat [] t = tuple_items (tleaves t)).
  { by rewrite tflat_tleaves. }
  assert (Hperm : tflat [] t ≡ₚ tuple_items paths).
  { rewrite Hflat. unfold tuple_items. by rewrite Hleaves. }
  assert (Hd_lt : d < length h1).
  { apply (realized_locs _ _ _ d Hr), list_elem_of_here. }
  set (out := length h1).
  set (H := h1 ++ [ODict CSuperDict []]).
  assert (HrH : realized d H t).
  { eapply realized_frame; [exact Hr | |].
    - intros l Hl. unfold H. apply lookup_app_l. lia.
    - intros l Hl. unfold H. apply lookup_app_l.
      by apply (realized_locs _ _ _ _ Hr). }
  assert (Hout : out ∉ locs t).
  { intros Hin. apply (realized_locs _ _ _ _ Hr) in Hin. unfold out in Hin. lia. }
  exists out, (<[out := ODict CSuperDict (tflat [] t)]> H), (tflat [] t).
  split_and!.
  - unfold roundtrip. mstep ltac:(exact Hrun).
    unfold SuperDict.to_dictup. mstep ltac:(reflexivity).
    fold out H. change (VRef d) with (root t).
    rewrite (dicts_to_tup_tree d out t fuel [] H CSuperDict []);
      [| lia | done | done | unfold out; lia | by apply lookup_alloc].
    rewrite dict_update_all_nil; [done|].
    rewrite Hflat. apply tuple_items_keys_NoDup.
    rewrite Hleaves. apply prefix_free_keys.
  - apply list_lookup_insert_eq. unfold H, out. rewrite length_app. cbn. lia.
  - done.
  - unfold out. lia.
  - intros l Hl. rewrite list_lookup_insert_ne by (unfold out; lia).
    unfold H. rewrite lookup_app_l by lia. by apply Hold.
Qed.

End RoundTrip.

Lemma to_dictdict_to_dictup_roundtrip_witness :
  let paths := [([KStr "a"; KStr "x"], VInt 1); ([KStr "b"], VInt 2);
                ([KStr "a"; KStr "z"], VInt 3)] in
  let h := [ODict CSuperDict (tuple_items paths)] in
  h !! 0 = Some (ODict CSuperDict (tuple_items paths)) /\
  Forall (fun pv => pv.1 <> []) paths /\
  prefix_free paths.*1 /\
  Forall (fun pv => leaf_value (length h) h pv.2) paths /\
  exists fuel0, forall fuel, fuel0 <= fuel ->
    exists r h' es',
      roundtrip fuel 0 h = (Ok (VRef r), h') /\
      h' !! r = Some (ODict CSuperDict es') /\
      es' ≡ₚ tuple_items paths /\
      length h <= r /\
      (forall l, l < length h -> h' !! l = h !! l).
Proof.
  intros paths h.
  assert (H1 : Forall (fun pv : list key * val => pv.1 <> []) paths)
    by (repeat constructor; discriminate).
  assert (H2 : prefix_free paths.*1).
  { split; [apply (bool_decide_unpack _); vm_compute; reflexivity|].
    intros p q Hp Hq [k Hk]. cbn in Hp, Hq.
    repeat (apply elem_of_cons in Hp as [->|Hp]);
      try (by apply elem_of_nil in Hp);
      repeat (apply elem_of_cons in Hq as [->|Hq]);
      try (by apply elem_of_nil in Hq); done. }
  assert (H3 : Forall (fun pv : list key * val => leaf_value (length h) h pv.2) paths)
    by (repeat constructor; discriminate).
  split_and!; [reflexivity | exact H1 | exact H2 | exact H3 |].
  exact (to_dictdict_to_dictup_roundtrip h 0 CSuperDict paths eq_refl H1 H2 H3).
Defined.

(** The claim itself fails on three kinds of tuple-keyed mappings.  On
    [{('a',): 1, ('a', 'b'): 2}] the second key overwrites the first one's
    leaf and the round trip gives [{('a', 'b'): 2}]; on [{(): 1}] the empty
    path makes [set_m] raise [IndexError]; on [{('a',): {'b': 1}}] the value
    is itself a mapping, which [to_dictup] flattens into [{('a', 'b'): 1}]. *)
Lemma roundtrip_loses_entries :
  (let h := [ODict CSuperDict [(KTuple [KStr "a"], VInt 1);
                               (KTuple [KStr "a"; KStr "b"], VInt 2)]] in
   roundtrip 5 0 h =
     (Ok (VRef 3),
      h ++ [ODict CSuperDict [(KStr "a", VRef 2)];
            ODict CSuperDict [(KStr "b", VInt 2)];
            ODict CSuperDict [(KTuple [KStr "a"; KStr "b"], VInt 2)]])) /\
  (let h := [ODict CSuperDict [(KTuple [], VInt 1)]] in
   roundtrip 5 0 h = (Raise IndexError, h ++ [ODict CSuperDict []])) /\
  (let h := [ODict CSuperDict [(KTuple [KStr "a"], VRef 1)];
             ODict CDict [(KStr "b", VInt 1)]] in
   roundtrip 5 0 h =
     (Ok (VRef 3),
      h ++ [ODict CSuperDict [(KStr "a", VRef 1)];
            ODict CSuperDict [(KTuple [KStr "a"; KStr "b"], VInt 1)]])).
Proof. repeat split; vm_compute; reflexivity. Qed.

(** ** [from_dict]: a deep copy of the dictionaries *)

Lemma dict_set_middle {V} k (v v0 : V) es1 es2 :
  k ∉ es1.*1 ->
  dict_set k v (es1 ++ (k, v0) :: es2) = es1 ++ (k, v) :: es2.
Proof.
  induction es1 as [|[k1 v1] es1 IH]; cbn.
  - by rewrite key_eqb_refl.
  - rewrite not_elem_of_cons. intros [Hne Hk].
    rewrite key_eqb_neq by done. by rewrite IH.
Qed.

Lemma copy_keys h (es : list (key * val)) (ch : list (key * ftree)) :
  Forall2 (fun kv kt => kv.1 = kt.1 /\ copy_of h kv.2 kt.2) es ch ->
  es.*1 = ch.*1.
Proof. induction 1 as [|[k v] [k' t] es ch [Hk _] _ IH]; [done|]. cbn in *. by f_equal. Qed.

Lemma depth_node_le l ch n :
  Forall (fun kt => depth kt.2 <= n) ch -> depth (FNode l ch) <= S n.
Proof.
  intros H. cbn [depth]. apply le_n_S.
  induction H as [|[k t] ch Ht _ IH]; cbn in *; lia.
Qed.

Lemma is_dict_old n0 (h0 H : heap) v :
  (forall l, v = VRef l -> l < n0) ->
  (forall l, l < n0 -> H !! l = h0 !! l) ->
  is_dict H v = is_dict h0 v.
Proof.
  intros Hv Hold. destruct v as [| | | |l]; try done.
  unfold is_dict. by rewrite Hold by by apply Hv.
Qed.

Section DeepCopy.
Context (h0 : heap).
Hypothesis h0_ok : heap_ok h0.

Lemma from_dict_leaf fuel v H :
  (forall l, v = VRef l -> l < length h0) ->
  (forall l, l < length h0 -> H !! l = h0 !! l) ->
  is_dict h0 v = false ->
  SuperDict.from_dict (S fuel) v H = (Ok v, H).
Proof.
  intros Hv Hold Hd. cbn [SuperDict.from_dict].
  mstep ltac:(reflexivity). by rewrite (is_dict_old _ h0 H v Hv Hold), Hd.
Qed.

Lemma from_dict_tree n :
  forall v H,
    nested_depth h0 n v ->
    (forall l, v = VRef l -> l < length h0) ->
    (forall l, l < length h0 -> H !! l = h0 !! l) ->
    length h0 <= length H ->
    exists t H',
      SuperDict.from_dict (S n) v H = (Ok (root t), H') /\
      realized (length h0) H' t /\
      NoDup (locs t) /\
      (forall x, x ∈ locs t -> length H <= x) /\
      length H <= length H' /\
      (forall l, l < length H -> H' !! l = H !! l) /\
      copy_of h0 v t /\
      depth t <= n.
Proof using h0_ok.
  induction n as [|n IH]; intros v H Hdepth Hv Hold Hlen;
    (destruct (is_dict h0 v) eqn:Ed;
     [| exists (FLeaf v), H; split_and!;
        [ by apply from_dict_leaf
        | constructor; [by rewrite (is_dict_old _ h0 H v Hv Hold) | done]
        | apply NoDup_nil_2
        | intros x Hx; by apply elem_of_nil in Hx
        | done | done | by constructor | cbn; lia ] ]);
    (destruct v as [| | | |l]; try done); unfold is_dict in Ed;
    (destruct (h0 !! l) as [[c es|]|] eqn:El; try done);
    cbn [nested_depth] in Hdepth; rewrite El in Hdepth; [done|].
  clear Ed.
  destruct (h0_ok _ _ _ El) as [Hkeys Hrefs].
  assert (Hl : H !! l = Some (ODict c es)).
  { rewrite Hold; [done | by apply Hv]. }
  set (d := length H).
  set (Inv := fun (i : nat) (Hi : heap) =>
    exists ch,
      i <= length es /\
      Hi !! d = Some (ODict CSuperDict (items_of ch ++ drop i es)) /\
      Forall2 (fun kv kt => kv.1 = kt.1 /\ copy_of h0 kv.2 kt.2) (take i es) ch /\
      Forall (fun kt => realized (length h0) Hi kt.2 /\ depth kt.2 <= n) ch /\
      NoDup (ch ≫= fun kt => locs kt.2) /\
      (forall x, x ∈ (ch ≫= fun kt => locs kt.2) -> d < x /\ x < length Hi) /\
      d < length Hi /\
      (forall l, l < d -> Hi !! l = H !! l)).
  destruct (for_items_inv d
    (fun key value =>
       v <- SuperDict.from_dict (S n) value ;; set_item d key v)
    Inv (length es) (H ++ [ODict CSuperDict es]))
    as (Hf & Hloop & ch & _ & Hd & Hcopy & Hch & Hnd & Hbound & Hdlt & Hframe).
  - (* one iteration *)
    intros i Hi (ch & Hi_le & Hd & Hcopy & Hch & Hnd & Hbound & Hdlt & Hframe).
    assert (Hlen_ch : length ch = i).
    { rewrite <- (Forall2_length _ _ _ Hcopy), length_take. lia. }
    exists CSuperDict, (items_of ch ++ drop i es). split_and!; [done | |].
    { rewrite length_app, length_drop. unfold items_of. rewrite length_fmap. lia. }
    intros k v Hi_entry.
    rewrite lookup_app_r in Hi_entry
      by (unfold items_of; rewrite length_fmap; lia).
    unfold items_of in Hi_entry. rewrite length_fmap, Hlen_ch, Nat.sub_diag in Hi_entry.
    rewrite lookup_drop, Nat.add_0_r in Hi_entry.
    assert (Hin : (k, v) ∈ es) by by eapply list_elem_of_lookup_2.
    rewrite Forall_forall in Hdepth, Hrefs.
    destruct (IH v Hi) as (t & Hi' & Hrun & Hr & Hndt & Hfresh & Hle & Hkeep & Hcopyt & Hdt).
    { apply (Hdepth _ Hin). }
    { apply (Hrefs _ Hin). }
    { intros x Hx. rewrite Hframe by (unfold d; lia). by apply Hold. }
    { unfold d in Hdlt. lia. }
    assert (Hk : k ∉ (items_of ch).*1).
    { rewrite items_of_keys, <- (copy_keys _ _ _ Hcopy).
      rewrite <- (take_drop i es), fmap_app in Hkeys.
      apply NoDup_app in Hkeys as (_ & Hdisj & _).
      intros Hk. apply (Hdisj _ Hk).
      apply list_elem_of_fmap. exists (k, v). split; [done|].
      eapply list_elem_of_lookup_2. by rewrite lookup_drop, Nat.add_0_r. }
    assert (Hdrop : drop i es = (k, v) :: drop (S i) es).
    { by apply drop_S. }
    eexists. split.
    { mstep ltac:(exact Hrun). eapply set_item_Ok.
      rewrite Hkeep by done. exact Hd. }
    rewrite Hdrop, dict_set_middle by done.
    exists (ch ++ [(k, t)]). split_and!.
    + by eapply lookup_lt_Some.
    + rewrite list_lookup_insert_eq by lia.
      unfold items_of. rewrite fmap_app, <- app_assoc. done.
    + rewrite (take_S_r _ _ _ Hi_entry). apply Forall2_app; [done|].
      by constructor.
    + apply Forall_app. split.
      * apply Forall_forall. intros [k1 t1] Hkt1.
        rewrite Forall_forall in Hch. destruct (Hch _ Hkt1) as [Hr1 Hd1].
        split; [|done]. cbn [snd] in *.
        eapply realized_frame; [exact Hr1 | |].
        -- intros x Hx. rewrite list_lookup_insert_ne by (unfold d; lia).
           apply Hkeep. unfold d in Hdlt. lia.
        -- intros x Hx.
           assert (d < x /\ x < length Hi) as [? ?].
           { apply Hbound, list_elem_of_bind. by exists (k1, t1). }
           rewrite list_lookup_insert_ne by lia. by apply Hkeep.
      * constructor; [|done]. split; [|done]. cbn [snd].
        eapply realized_frame; [exact Hr | |].
        -- intros x Hx. apply list_lookup_insert_ne. unfold d. lia.
        -- intros x Hx. apply list_lookup_insert_ne.
           specialize (Hfresh _ Hx). lia.
    + rewrite bind_app. cbn. rewrite app_nil_r. apply NoDup_app. split_and!; [done | | done].
      intros x Hx Hx'. specialize (Hfresh _ Hx'). apply Hbound in Hx. lia.
    + intros x Hx. rewrite bind_app in Hx. cbn in Hx. rewrite app_nil_r in Hx.
      rewrite length_insert. apply elem_of_app in Hx as [Hx|Hx].
      * apply Hbound in Hx. lia.
      * split; [specialize (Hfresh _ Hx); lia|].
        apply (realized_locs _ _ _ _ Hr Hx).
    + rewrite length_insert. lia.
    + intros x Hx. rewrite list_lookup_insert_ne by lia.
      rewrite Hkeep by lia. by apply Hframe.
  - (* before the loop *)
    exists []. unfold d. rewrite take_0, drop_0. split_and!.
    + lia.
    + by apply lookup_alloc.
    + constructor.
    + constructor.
    + apply NoDup_nil_2.
    + intros x Hx. by apply elem_of_nil in Hx.
    + rewrite length_app. cbn. lia.
    + intros x Hx. by apply lookup_app_l.
  - (* after the loop *)
    rewrite firstn_all in Hcopy. rewrite drop_all, app_nil_r in Hd.
    exists (FNode d ch), Hf. split_and!.
    + cbn [SuperDict.from_dict root].
      mstep ltac:(reflexivity). unfold is_dict. rewrite Hl. cbn [negb].
      mstep ltac:(by eapply get_items_Ok).
      mstep ltac:(reflexivity).
      mstep ltac:(exact Hloop). reflexivity.
    + constructor; [unfold d; lia | done | |].
      * by rewrite <- (copy_keys _ _ _ Hcopy).
      * eapply Forall_impl; [exact Hch|]. by intros kt [? _].
    + cbn [locs]. apply NoDup_cons. split; [|done].
      intros Hin. apply Hbound in Hin. lia.
    + intros x Hx. cbn [locs] in Hx. apply elem_of_cons in Hx as [->|Hx]; [done|].
      apply Hbound in Hx. unfold d in Hx. lia.
    + unfold d in Hdlt. lia.
    + done.
    + by econstructor.
    + apply depth_node_le. eapply Forall_impl; [exact Hch|]. by intros kt [_ ?].
Qed.


Lemma bind_cong {A B} (m m' : M A) (f : A -> M B) h :
  m h = m' h -> bind m f h = bind m' f h.
Proof. unfold bind. by intros ->. Qed.

Lemma children_disjoint s ch k tk k' tk' x :
  NoDup (locs (FNode s ch)) ->
  (k, tk) ∈ ch -> (k', tk') ∈ ch -> k <> k' ->
  x ∈ locs tk -> x ∉ locs tk'.
Proof.
  intros Hnd Hk Hk' Hne Hx Hx'.
  apply list_elem_of_split in Hk as (ch1 & ch2 & ->).
  change ((k, tk) :: ch2) with ([(k, tk)] ++ ch2) in Hnd.
  rewrite locs_node_app, bind_app in Hnd. cbn [mbind list_bind snd] in Hnd.
  rewrite app_nil_r in Hnd.
  apply NoDup_cons in Hnd as [_ Hnd].
  apply NoDup_app in Hnd as (_ & Hd1 & Hnd).
  apply NoDup_app in Hnd as (_ & Hd2 & _).
  apply elem_of_app in Hk' as [Hk'|Hk'].
  - apply (Hd1 x); [|apply elem_of_app; by left].
    apply list_elem_of_bind. by exists (k', tk').
  - apply elem_of_cons in Hk' as [[= -> ->]|Hk']; [done|].
    apply (Hd2 x Hx). apply list_elem_of_bind. by exists (k', tk').
Qed.

(** [update] on a tree of new dictionaries, with an argument [a] of the
    original store: it returns [None] and writes to the tree's own
    dictionaries only. *)
Lemma update_tree t :
  match t with
  | FLeaf _ => True
  | FNode s ch =>
      forall fuel H a ca ea,
        depth t < fuel ->
        realized (length h0) H t ->
        NoDup (locs t) ->
        (forall l, l < length h0 -> H !! l = h0 !! l) ->
        h0 !! a = Some (ODict ca ea) ->
        exists H',
          SuperDict.update fuel s [VRef a] [] H = (Ok VNone, H') /\
          length H' = length H /\
          (forall l, l ∉ locs t -> H' !! l = H !! l)
  end.
Proof using h0_ok.
  induction t as [v|s ch IH] using ftree_ind'; [done|].
  intros fuel H a ca ea Hfuel Hr Hnd Hold Ha.
  destruct fuel as [|f]; [lia|].
  destruct (h0_ok _ _ _ Ha) as [Hkeys Hrefs].
  assert (Halt : a < length h0) by by eapply lookup_lt_Some.
  inversion Hr as [|? ? Hn0 Hs Hchkeys Hch]; subst.
  assert (Hlow : forall l, l < length h0 -> l ∉ locs (FNode s ch)).
  { intros l Hl Hin. apply (realized_locs _ _ _ _ Hr) in Hin. lia. }
  (* the loop over the entries of the argument *)
  assert (Hloop : forall other H1,
    NoDup other.*1 ->
    Forall (fun kv => forall l', kv.2 = VRef l' -> l' < length h0) other ->
    length H1 = length H ->
    (forall l, l ∉ locs (FNode s ch) -> H1 !! l = H !! l) ->
    (exists items1, H1 !! s = Some (ODict CSuperDict items1) /\
       forall k, k ∈ other.*1 -> dict_get k items1 = dict_get k (items_of ch)) ->
    (forall k tk x, k ∈ other.*1 -> (k, tk) ∈ ch -> x ∈ locs tk ->
       H1 !! x = H !! x) ->
    exists H2,
      for_each other (SuperDict.update_entry (SuperDict.update f) s) H1 = (Ok tt, H2) /\
      length H2 = length H /\
      (forall l, l ∉ locs (FNode s ch) -> H2 !! l = H !! l)).
  { induction other as [|[k v] other IHo];
      intros H1 Hnd_o Hold_o Hlen1 Hframe1 (items1 & Hs1 & Hitems1) Hkids1.
    { exists H1. by split_and!. }
    apply NoDup_cons in Hnd_o as [Hk_out Hnd_o].
    apply Forall_cons in Hold_o as [Hv_old Hold_o]. cbn [snd] in Hv_old.
    cbn [for_each].
    assert (Hold1 : forall l, l < length h0 -> H1 !! l = h0 !! l).
    { intros l Hl. rewrite Hframe1 by by apply Hlow. by apply Hold. }
    (* the continuation after an assignment [self[k] = v] *)
    assert (Hassign :
      exists H2,
        (set_item s k v ;;; for_each other
           (SuperDict.update_entry (SuperDict.update f) s)) H1 = (Ok tt, H2) /\
        length H2 = length H /\
        (forall l, l ∉ locs (FNode s ch) -> H2 !! l = H !! l)).
    { destruct (IHo (<[s := ODict CSuperDict (dict_set k v items1)]> H1))
        as (H2 & Hrun2 & Hlen2 & Hframe2); try done.
      - by rewrite length_insert.
      - intros l Hl. rewrite list_lookup_insert_ne; [by apply Hframe1|].
        intros <-. apply Hl, list_elem_of_here.
      - exists (dict_set k v items1). split; [by eapply lookup_insert_same|].
        intros k' Hk'. rewrite dict_get_set_ne by (intros ->; done).
        apply Hitems1. by apply list_elem_of_further.
      - intros k' tk x Hk' Hkt Hx.
        rewrite list_lookup_insert_ne.
        + eapply Hkids1; [by apply list_elem_of_further | done | done].
        + intros <-. by apply (locs_child_NoDup _ _ _ _ Hnd Hkt).
      - exists H2. split_and!; try done.
        mstep ltac:(by eapply set_item_Ok). exact Hrun2. }
    assert (Hk_items : dict_get k items1 = root <$> dict_get k ch).
    { rewrite Hitems1 by apply list_elem_of_here. apply dict_get_items_of. }
    destruct (dict_get k ch) as [tk|] eqn:Ek; cbn in Hk_items.
    2:{ (* the key is new *)
      destruct Hassign as (H2 & Hrun2 & Hrest). exists H2. split; [|done].
      rewrite <- Hrun2. apply bind_cong.
      unfold SuperDict.update_entry. cbn [fst snd].
      mstep ltac:(by eapply contains_Ok).
      unfold dict_mem. rewrite Hk_items.
      mstep ltac:(reflexivity). reflexivity. }
    assert (Hkt : (k, tk) ∈ ch) by by apply dict_get_Some_elem.
    assert (Hrk : realized (length h0) H tk).
    { rewrite Forall_forall in Hch. apply (Hch _ Hkt). }
    destruct (is_dict H1 (root tk) && is_dict H1 v) eqn:Emerge.
    2:{ (* one of the two is not a dictionary *)
      destruct Hassign as (H2 & Hrun2 & Hrest). exists H2. split; [|done].
      rewrite <- Hrun2. apply bind_cong.
      unfold SuperDict.update_entry. cbn [fst snd].
      mstep ltac:(by eapply contains_Ok).
      unfold dict_mem. rewrite Hk_items.
      mstep ltac:(mstep ltac:(by eapply get_item_Ok);
                  mstep ltac:(reflexivity);
                  mstep ltac:(reflexivity); reflexivity).
      by rewrite Emerge. }
    (* both are dictionaries: merge into the child *)
    apply andb_true_iff in Emerge as [Ecur Ev].
    destruct tk as [v0|lk chk].
    { exfalso. inversion Hrk as [? Hv0 Hv0_old|]; subst. cbn [root] in Ecur.
      rewrite (is_dict_old _ h0 H1 v0 Hv0_old Hold1) in Ecur.
      rewrite (is_dict_old _ h0 H v0 Hv0_old Hold) in Hv0. congruence. }
    cbn [root] in *.
    destruct v as [| | | |a']; try done.
    rewrite (is_dict_old _ h0 H1 (VRef a') Hv_old Hold1) in Ev.
    unfold is_dict in Ev.
    destruct (h0 !! a') as [[ca' ea'|]|] eqn:Ea'; try done.
    assert (Hlk : H1 !! lk = Some (ODict CSuperDict (items_of chk))).
    { rewrite (Hkids1 k (FNode lk chk) lk);
        [by inversion Hrk | apply list_elem_of_here | done | apply list_elem_of_here]. }
    rewrite Forall_forall in IH. specialize (IH _ Hkt). cbn [snd] in IH.
    destruct (IH f H1 a' ca' ea') as (H1' & Hrun1 & Hlen1' & Hframe1'); try done.
    { pose proof (depth_child s _ _ _ Hkt). lia. }
    { eapply realized_frame; [exact Hrk | |].
      - intros l Hl. rewrite Hold1 by done. symmetry. by apply Hold.
      - intros l Hl. eapply Hkids1; [apply list_elem_of_here | done | done]. }
    { by apply (locs_child_NoDup _ _ _ _ Hnd Hkt). }
    destruct (IHo H1') as (H2 & Hrun2 & Hlen2 & Hframe2); try done.
    { lia. }
    { intros l Hl. rewrite Hframe1'; [by apply Hframe1|].
      intros Hin. apply Hl. by eapply locs_child. }
    { exists items1. split.
      - rewrite Hframe1'; [done|]. by apply (locs_child_NoDup _ _ _ _ Hnd Hkt).
      - intros k' Hk'. apply Hitems1. by apply list_elem_of_further. }
    { intros k' tk' x Hk' Hkt' Hx. rewrite Hframe1'.
      - eapply Hkids1; [by apply list_elem_of_further | done | done].
      - eapply (children_disjoint s ch k' tk' k (FNode lk chk)); try done.
        intros ->. done. }
    exists H2. split; [|done].
    assert (Hentry :
      SuperDict.update_entry (SuperDict.update f) s (k, VRef a') H1 = (Ok tt, H1')).
    { unfold SuperDict.update_entry. cbn [fst snd].
      mstep ltac:(by eapply contains_Ok).
      unfold dict_mem. rewrite Hk_items.
      mstep ltac:(mstep ltac:(by eapply get_item_Ok);
                  mstep ltac:(reflexivity);
                  mstep ltac:(reflexivity); reflexivity).
      unfold is_dict. rewrite Hlk, (Hold1 a') by (by apply Hv_old).
      rewrite Ea'. cbn [andb negb].
      mstep ltac:(by eapply get_item_Ok).
      mstep ltac:(unfold deref; by rewrite Hlk).
      mstep ltac:(exact Hrun1). reflexivity. }
    mstep ltac:(exact Hentry). exact Hrun2. }
  destruct (Hloop ea H) as (H' & Hrun & Hlen' & Hframe'); try done.
  { exists (items_of ch). by split. }
  exists H'. split_and!; try done.
  cbn [SuperDict.update].
  mstep ltac:(eapply dict_update_from_dict; rewrite Hold by done; exact Ha).
  cbn [fmap list_fmap]. unfold dict_update_all at 1. cbn [fold_left].
  rewrite dict_update_all_nil by done.
  mstep ltac:(exact Hrun). reflexivity.
Qed.

End DeepCopy.

Lemma nested_depth_mono h n :
  forall n' v, n <= n' -> nested_depth h n v -> nested_depth h n' v.
Proof.
  induction n as [|n IH]; intros n' v Hle Hd; destruct n' as [|n'];
    (destruct v as [| | | |l]; cbn [nested_depth] in *; try done);
    (destruct (h !! l) as [[c es|]|]; try done); try lia.
  eapply Forall_impl; [exact Hd|]. intros kv Hkv. apply (IH n'); [lia | done].
Qed.

(** C8: [_update] returns a new mapping: a deep copy of the receiver (a tree
    of new [SuperDict]s with the receiver's content, built by [from_dict])
    on which [update] has been run with the argument; the receiver, its
    nested mappings and every other object that existed before the call are
    unchanged. *)
Theorem update_copy_leaves_self_unchanged (h : heap) (m other : loc)
    (c co : cls) (es eo : list (key * val)) (n : nat) :
  heap_ok h ->
  h !! m = Some (ODict c es) ->
  nested_depth h n (VRef m) ->
  h !! other = Some (ODict co eo) ->
  forall fuel, n < fuel ->
    exists r t h1 h',
      SuperDict.from_dict fuel (VRef m) h = (Ok (VRef r), h1) /\
      root t = VRef r /\
      copy_of h (VRef m) t /\
      realized (length h) h1 t /\
      NoDup (locs t) /\
      SuperDict.update fuel r [VRef other] [] h1 = (Ok VNone, h') /\
      SuperDict._update fuel m (VRef other) h = (Ok (VRef r), h') /\
      length h <= r /\
      (forall l, l < length h -> h' !! l = h !! l).
Proof.
  intros Hok Hm Hdepth Hother fuel Hfuel.
  destruct fuel as [|f]; [lia|].
  assert (Hmlt : m < length h) by by eapply lookup_lt_Some.
  destruct (from_dict_tree h Hok f (VRef m) h)
    as (t & h1 & Hcopy_run & Hr & Hnd & Hfresh & Hle & Hkeep & Hcopy & Hdt);
    try done.
  { apply (nested_depth_mono h n); [lia | done]. }
  { by intros l [= <-]. }
  destruct t as [v|r ch].
  { inversion Hcopy as [? Hd|]; subst. unfold is_dict in Hd. by rewrite Hm in Hd. }
  cbn [root] in Hcopy_run.
  pose proof (update_tree h Hok (FNode r ch)) as Hupd. cbn beta iota in Hupd.
  destruct (Hupd (S f) h1 other co eo)
    as (h' & Hupd_run & Hlen' & Hframe'); try done.
  { lia. }
  exists r, (FNode r ch), h1, h'. split_and!; try done.
  - unfold SuperDict._update.
    mstep ltac:(exact Hcopy_run). mstep ltac:(exact Hupd_run). reflexivity.
  - apply Hfresh, list_elem_of_here.
  - intros l Hl. rewrite Hframe'; [by apply Hkeep|].
    intros Hin. apply Hfresh in Hin. lia.
Qed.

Lemma update_copy_leaves_self_unchanged_witness :
  let h := [ODict CSuperDict [(KStr "a", VRef 1); (KStr "b", VInt 1)];
            ODict CDict [(KStr "x", VInt 1)];
            ODict CDict [(KStr "a", VRef 3)];
            ODict CDict [(KStr "y", VInt 2)]] in
  heap_ok h /\
  h !! 0 = Some (ODict CSuperDict [(KStr "a", VRef 1); (KStr "b", VInt 1)]) /\
  nested_depth h 2 (VRef 0) /\
  h !! 2 = Some (ODict CDict [(KStr "a", VRef 3)]) /\
  2 < 3 /\
  exists r t h1 h',
    SuperDict.from_dict 3 (VRef 0) h = (Ok (VRef r), h1) /\
    root t = VRef r /\
    copy_of h (VRef 0) t /\
    realized (length h) h1 t /\
    NoDup (locs t) /\
    SuperDict.update 3 r [VRef 2] [] h1 = (Ok VNone, h') /\
    SuperDict._update 3 0 (VRef 2) h = (Ok (VRef r), h') /\
    length h <= r /\
    (forall l, l < length h -> h' !! l = h !! l).
Proof.
  intros h.
  assert (Hok : heap_ok h).
  { intros l c es Hl.
    do 4 (destruct l as [|l]; [injection Hl as <- <-; split;
      [apply (bool_decide_unpack _); vm_compute; reflexivity
      | apply Forall_forall; intros [k v] Hin l' Hv; cbn in Hv; subst v;
        repeat (apply elem_of_cons in Hin as [Hin|Hin]; [simplify_eq; cbn; lia|]);
        by apply elem_of_nil in Hin] |]).
    done. }
  assert (Hdepth : nested_depth h 2 (VRef 0)) by (cbn; repeat constructor).
  split_and!; [exact Hok | reflexivity | exact Hdepth | reflexivity | lia |].
  apply (update_copy_leaves_self_unchanged h 0 2 CSuperDict CDict
           [(KStr "a", VRef 1); (KStr "b", VInt 1)] [(KStr "a", VRef 3)] 2);
    [exact Hok | reflexivity | exact Hdepth | reflexivity | lia].
Defined.

(** On [m = {'a': {'x': 1}, 'b': 1}] and [other = {'a': {'y': 2}}],
    [m._update(other)] is the new [{'a': {'x': 1, 'y': 2}, 'b': 1}]; [m] and
    its nested dictionary (objects 0 and 1) are as before. *)
Example update_copy_example :
  let h := [ODict CSuperDict [(KStr "a", VRef 1); (KStr "b", VInt 1)];
            ODict CDict [(KStr "x", VInt 1)];
            ODict CDict [(KStr "a", VRef 3)];
            ODict CDict [(KStr "y", VInt 2)]] in
  SuperDict._update 3 0 (VRef 2) h =
    (Ok (VRef 4),
     h ++ [ODict CSuperDict [(KStr "a", VRef 5); (KStr "b", VInt 1)];
           ODict CSuperDict [(KStr "x", VInt 1); (KStr "y", VInt 2)]]).
Proof. vm_compute. reflexivity. Qed.

(** * Further properties *)

(** ** Nested lookups in a tree of dictionaries *)

Lemma realized_child n0 h l ch k t :
  realized n0 h (FNode l ch) -> dict_get k ch = Some t -> realized n0 h t.
Proof.
  intros Hr Hk. inversion Hr as [|? ? _ _ _ Hch]; subst.
  rewrite Forall_forall in Hch. by apply (Hch (k, t)), dict_get_Some_elem.
Qed.

Lemma subscript_node n0 h l ch k :
  realized n0 h (FNode l ch) ->
  subscript (VRef l) (val_of_key k) h =
    match dict_get k ch with
    | Some t => (Ok (root t), h)
    | None => (Raise (KeyError [k]), h)
    end.
Proof.
  intros Hr. inversion Hr as [|? ? _ Hl _ _]; subst.
  unfold subscript, bind, deref. rewrite Hl, key_of_val_of_key, dict_get_items_of.
  by destruct (dict_get k ch).
Qed.

Lemma descend_tree n0 h path :
  forall t t',
    realized n0 h t ->
    tfind path t = Some t' ->
    SuperDict.descend (root t) (val_of_key <$> path) h = (Ok (root t'), h).
Proof.
  induction path as [|k rest IH]; intros t t' Hr Hfind.
  - cbn in *. by injection Hfind as ->.
  - destruct t as [v|l ch]; [done|]. cbn [tfind] in Hfind.
    destruct (dict_get k ch) as [t1|] eqn:Ek; [|done].
    cbn [fmap list_fmap SuperDict.descend root].
    fold (@fmap list _ _ _ val_of_key rest).
    mstep ltac:(by rewrite (subscript_node _ _ _ _ _ Hr), Ek).
    apply IH; [by eapply realized_child | done].
Qed.

Lemma get_m_tree n0 h l ch path t' :
  realized n0 h (FNode l ch) ->
  tfind path (FNode l ch) = Some t' ->
  SuperDict.get_m l (val_of_key <$> path) h = (Ok (root t'), h).
Proof.
  intros Hr Hfind. unfold SuperDict.get_m, except_KeyError.
  pose proof (descend_tree _ _ _ (FNode l ch) t' Hr Hfind) as E.
  cbn [root] in E. by rewrite E.
Qed.

(** Where the path stops at a key that a dictionary of the tree does not
    have, the answer is [None], whatever follows in the path. *)
Lemma get_m_tree_missing n0 h path :
  forall t l ch k rest,
    realized n0 h t ->
    tfind path t = Some (FNode l ch) ->
    dict_get k ch = None ->
    except_KeyError
      (SuperDict.descend (root t) (val_of_key <$> (path ++ k :: rest)))
      (ret VNone) h = (Ok VNone, h).
Proof.
  induction path as [|k0 path IH]; intros t l ch k rest Hr Hfind Hk.
  - cbn in Hfind. injection Hfind as ->.
    cbn [app fmap list_fmap SuperDict.descend root].
    unfold except_KeyError, bind.
    by rewrite (subscript_node _ _ _ _ _ Hr), Hk.
  - destruct t as [v|l0 ch0]; [done|]. cbn [tfind] in Hfind.
    destruct (dict_get k0 ch0) as [t1|] eqn:Ek; [|done].
    specialize (IH t1 l ch k rest (realized_child _ _ _ _ _ _ Hr Ek) Hfind Hk).
    cbn [app fmap list_fmap SuperDict.descend root].
    fold (@fmap list _ _ _ val_of_key (path ++ k :: rest)).
    unfold except_KeyError, bind in *.
    by rewrite (subscript_node _ _ _ _ _ Hr), Ek.
Qed.

Lemma tfind_cons k rest l ch :
  tfind (k :: rest) (FNode l ch) =
    match dict_get k ch with
    | Some t' => tfind rest t'
    | None => None
    end.
Proof. done. Qed.

Lemma fset_tfind args :
  forall l n ch value,
    args <> [] ->
    tfind args (FNode l (fset n ch args value).1) = Some (FLeaf value).
Proof.
  induction args as [|k rest IH]; intros l n ch value Hne; [done|].
  rewrite fset_nonempty_path. destruct rest as [|k2 rest].
  - cbn [fst]. by rewrite tfind_cons, dict_get_set_eq.
  - destruct (dict_get k ch) as [[v0|l0 sub]|]; cbn [fst];
      rewrite tfind_cons, dict_get_set_eq; by apply IH.
Qed.

Lemma fset_other_key n ch args value k' :
  head args <> Some k' ->
  dict_get k' (fset n ch args value).1 = dict_get k' ch.
Proof.
  destruct args as [|k rest]; [done|]. intros Hne.
  assert (k <> k') by (intros ->; by apply Hne).
  rewrite fset_nonempty_path. destruct rest as [|k2 rest].
  - by apply dict_get_set_ne.
  - destruct (dict_get k ch) as [[v0|l0 sub]|]; by apply dict_get_set_ne.
Qed.

(** Concrete trees are checked entry by entry. *)
Ltac solve_NoDup :=
  repeat (apply NoDup_cons; split;
          [rewrite ?elem_of_cons, ?elem_of_nil; intros ?; intuition congruence|]);
  apply NoDup_nil; exact I.

Ltac solve_realized :=
  repeat first
    [ apply realized_leaf; [reflexivity | intros ? ?; first [discriminate | simplify_eq; cbn; lia]]
    | apply realized_node; [cbn; lia | reflexivity | cbn; solve_NoDup |]
    | apply Forall_cons; split
    | apply Forall_nil; exact I ].

(** X1: on a receiver that is a tree of [SuperDict]s (no dictionary shared
    between two places), what [set_m] has put at a path is what [get_m]
    finds at that path. *)
Theorem set_m_then_get_m n0 h self ch args value :
  realized n0 h (FNode self ch) ->
  NoDup (locs (FNode self ch)) ->
  args <> [] ->
  leaf_value n0 h value ->
  exists h',
    SuperDict.set_m self args value h = (Ok (VRef self), h') /\
    SuperDict.get_m self (val_of_key <$> args) h' = (Ok value, h').
Proof.
  intros receiver owned path [Hv Hvlt].
  destruct (set_m_tree n0 args self ch value h path receiver owned Hv Hvlt)
    as (h' & Hrun & Hr' & _).
  exists h'. split; [done|].
  apply (get_m_tree _ _ _ _ _ (FLeaf value) Hr'). by apply fset_tfind.
Qed.

Lemma set_m_then_get_m_witness :
  let h := [ODict CSuperDict [(KStr "a", VRef 1)];
            ODict CSuperDict [(KStr "b", VInt 1)]] in
  exists h',
    SuperDict.set_m 0 [KStr "a"; KStr "c"; KStr "d"] (VInt 7) h =
      (Ok (VRef 0), h') /\
    SuperDict.get_m 0 [VStr "a"; VStr "c"; VStr "d"] h' = (Ok (VInt 7), h').
Proof.
  intros h.
  apply (set_m_then_get_m 0 h 0
           [(KStr "a", FNode 1 [(KStr "b", FLeaf (VInt 1))])]
           [KStr "a"; KStr "c"; KStr "d"] (VInt 7)).
  - solve_realized.
  - cbn. solve_NoDup.
  - discriminate.
  - split; [reflexivity | discriminate].
Defined.

(** X2: under the same conditions [set_m] leaves the other branches alone:
    a path that starts with another key than the one set leads to the same
    value after the call as before. *)
Theorem set_m_keeps_other_branches n0 h self ch args value k q t' :
  realized n0 h (FNode self ch) ->
  NoDup (locs (FNode self ch)) ->
  args <> [] ->
  leaf_value n0 h value ->
  head args <> Some k ->
  tfind (k :: q) (FNode self ch) = Some t' ->
  exists h',
    SuperDict.set_m self args value h = (Ok (VRef self), h') /\
    SuperDict.get_m self (val_of_key <$> k :: q) h = (Ok (root t'), h) /\
    SuperDict.get_m self (val_of_key <$> k :: q) h' = (Ok (root t'), h').
Proof.
  intros receiver owned path [Hv Hvlt] Hk Hfind.
  destruct (set_m_tree n0 args self ch value h path receiver owned Hv Hvlt)
    as (h' & Hrun & Hr' & _).
  exists h'. split_and!; [done | by eapply get_m_tree |].
  apply (get_m_tree _ _ _ _ _ t' Hr').
  rewrite tfind_cons in *. by rewrite fset_other_key.
Qed.

Lemma set_m_keeps_other_branches_witness :
  let h := [ODict CSuperDict [(KStr "a", VRef 1); (KStr "z", VInt 9)];
            ODict CSuperDict [(KStr "b", VInt 1)]] in
  exists h',
    SuperDict.set_m 0 [KStr "z"; KStr "y"] (VInt 7) h = (Ok (VRef 0), h') /\
    SuperDict.get_m 0 [VStr "a"; VStr "b"] h = (Ok (VInt 1), h) /\
    SuperDict.get_m 0 [VStr "a"; VStr "b"] h' = (Ok (VInt 1), h').
Proof.
  intros h.
  apply (set_m_keeps_other_branches 0 h 0
           [(KStr "a", FNode 1 [(KStr "b", FLeaf (VInt 1))]);
            (KStr "z", FLeaf (VInt 9))]
           [KStr "z"; KStr "y"] (VInt 7) (KStr "a") [KStr "b"]
           (FLeaf (VInt 1))).
  - solve_realized.
  - cbn. solve_NoDup.
  - discriminate.
  - split; [reflexivity | discriminate].
  - discriminate.
  - reflexivity.
Defined.

Lemma tleaves_tfind n0 h t :
  realized n0 h t ->
  forall p v, (p, v) ∈ tleaves t -> tfind p t = Some (FLeaf v).
Proof.
  induction t as [v0|l ch IH] using ftree_ind'; intros Hr p v Hin.
  - cbn in Hin. apply list_elem_of_singleton in Hin. by simplify_eq.
  - cbn [tleaves] in Hin. apply list_elem_of_bind in Hin as ([k t1] & Hin & Hkt).
    apply list_elem_of_fmap in Hin as ([p' v'] & Heq & Hin).
    cbn [fst snd] in *. simplify_eq.
    inversion Hr as [|? ? _ _ Hnd Hch]; subst.
    rewrite tfind_cons, (dict_get_elem _ _ _ Hnd Hkt).
    rewrite Forall_forall in IH, Hch.
    apply (IH _ Hkt); [apply (Hch _ Hkt) | done].
Qed.

(** X3: for a mapping whose keys are non-empty tuples, none a prefix of
    another, and whose values are not mappings, the nested mapping that
    [to_dictdict] builds answers [get_m] with the original value at every
    original key, the key's components being the path. *)
Theorem to_dictdict_then_get_m h m c paths :
  h !! m = Some (ODict c (tuple_items paths)) ->
  Forall (fun pv => pv.1 <> []) paths ->
  prefix_free paths.*1 ->
  Forall (fun pv => leaf_value (length h) h pv.2) paths ->
  exists d h',
    SuperDict.to_dictdict m h = (Ok (VRef d), h') /\
    forall p v, (p, v) ∈ paths ->
      SuperDict.get_m d (val_of_key <$> p) h' = (Ok v, h').
Proof.
  intros Hm Hne Hfree Hleaf.
  destruct (to_dictdict_tree h m c paths Hm Hne Hleaf)
    as (h' & Hrun & Hr & _).
  exists (length h), h'. split; [done|]. intros p v Hin.
  apply (get_m_tree _ _ _ _ _ (FLeaf v) Hr).
  apply (tleaves_tfind _ _ _ Hr).
  rewrite fset_all_leaves; [| done | by cbn]. by cbn.
Qed.

Lemma to_dictdict_then_get_m_witness :
  let paths := [([KStr "a"; KStr "x"], VInt 1); ([KStr "b"], VInt 2);
                ([KStr "a"; KStr "z"], VInt 3)] in
  let h := [ODict CSuperDict (tuple_items paths)] in
  exists d h',
    SuperDict.to_dictdict 0 h = (Ok (VRef d), h') /\
    forall p v, (p, v) ∈ paths ->
      SuperDict.get_m d (val_of_key <$> p) h' = (Ok v, h').
Proof.
  intros paths h.
  apply (to_dictdict_then_get_m h 0 CSuperDict paths).
  - reflexivity.
  - repeat constructor; discriminate.
  - split; [apply (bool_decide_unpack _); vm_compute; reflexivity|].
    intros p q Hp Hq [k Hk]. cbn in Hp, Hq.
    repeat (apply elem_of_cons in Hp as [->|Hp]);
      try (by apply elem_of_nil in Hp);
      repeat (apply elem_of_cons in Hq as [->|Hq]);
      try (by apply elem_of_nil in Hq); done.
  - repeat constructor; discriminate.
Defined.

(** X4: on a receiver that is a tree of [SuperDict]s, [get_m] follows the
    path: it returns what is at the end of the path when every key is
    there, and [None], without raising, when the path stops at a dictionary
    that lacks the next key, whatever comes after that key. *)
Theorem get_m_follows_path n0 h self ch :
  realized n0 h (FNode self ch) ->
  (forall path t',
     tfind path (FNode self ch) = Some t' ->
     SuperDict.get_m self (val_of_key <$> path) h = (Ok (root t'), h)) /\
  (forall path l sub k rest,
     tfind path (FNode self ch) = Some (FNode l sub) ->
     dict_get k sub = None ->
     SuperDict.get_m self (val_of_key <$> path ++ k :: rest) h = (Ok VNone, h)).
Proof.
  intros Hr. split.
  - intros path t' Hfind. by eapply get_m_tree.
  - intros path l sub k rest Hfind Hk.
    apply (get_m_tree_missing n0 h path (FNode self ch) l sub k rest Hr Hfind Hk).
Qed.

Lemma get_m_follows_path_witness :
  let h := [ODict CSuperDict [(KStr "a", VRef 1); (KStr "z", VInt 9)];
            ODict CSuperDict [(KStr "b", VInt 1)]] in
  SuperDict.get_m 0 [VStr "a"; VStr "b"] h = (Ok (VInt 1), h) /\
  SuperDict.get_m 0 [VStr "a"; VStr "c"; VStr "d"] h = (Ok VNone, h).
Proof.
  intros h.
  pose proof (get_m_follows_path 0 h 0
                [(KStr "a", FNode 1 [(KStr "b", FLeaf (VInt 1))]);
                 (KStr "z", FLeaf (VInt 9))]) as W.
  destruct W as [W1 W2]; [solve_realized|]. split.
  - exact (W1 [KStr "a"; KStr "b"] (FLeaf (VInt 1)) eq_refl).
  - exact (W2 [KStr "a"] 1 [(KStr "b", FLeaf (VInt 1))] (KStr "c") [KStr "d"]
              eq_refl eq_refl).
Defined.

(** ** [from_dict]: the copy answers like the original *)

Lemma subscript_frame d i h w h' :
  subscript d i h = (Ok w, h) ->
  (forall l, l < length h -> h' !! l = h !! l) ->
  subscript d i h' = (Ok w, h').
Proof.
  intros Hrun Hold. destruct d as [| z | s | xs | l]; try done.
  - unfold subscript, ret, raise in *. destruct i as [|z| | |]; try done.
    destruct (seq_index (chars s) z); by simplify_eq.
  - unfold subscript, ret, raise in *. destruct i as [|z| | |]; try done.
    destruct (seq_index xs z); by simplify_eq.
  - unfold subscript, bind, deref, ret, raise in *.
    destruct (h !! l) as [o|] eqn:El; [|done].
    rewrite Hold, El by by eapply lookup_lt_Some.
    destruct o as [c es|xs].
    + destruct (key_of_val i); [|done]. destruct (dict_get k es); by simplify_eq.
    + destruct i as [|z| | |]; try done. destruct (seq_index xs z); by simplify_eq.
Qed.

Lemma descend_frame path :
  forall d h w h',
    SuperDict.descend d path h = (Ok w, h) ->
    (forall l, l < length h -> h' !! l = h !! l) ->
    SuperDict.descend d path h' = (Ok w, h').
Proof.
  induction path as [|i path IH]; intros d h w h' Hrun Hold.
  - cbn in *. unfold ret in *. by simplify_eq.
  - cbn [SuperDict.descend] in *. unfold bind in Hrun.
    destruct (subscript d i h) as [[d'|e] h1] eqn:E; [|done].
    pose proof (subscript_pure _ _ _ _ _ E) as ->.
    mstep ltac:(by eapply subscript_frame). by eapply IH.
Qed.

Lemma copy_lookup h es ch k v :
  Forall2 (fun (kv : key * val) (kt : key * ftree) =>
             kv.1 = kt.1 /\ copy_of h kv.2 kt.2) es ch ->
  dict_get k es = Some v ->
  exists t, dict_get k ch = Some t /\ copy_of h v t.
Proof.
  induction 1 as [|[k1 v1] [k2 t2] es ch [Hk Hc] _ IH]; [done|].
  cbn in Hk, Hc. subst k2. cbn [dict_get].
  destruct (key_eqb k k1); [|done]. intros [= ->]. by exists t2.
Qed.

Lemma copy_descend h0 n0 H path :
  (forall l, l < length h0 -> H !! l = h0 !! l) ->
  forall v t w,
    copy_of h0 v t ->
    realized n0 H t ->
    SuperDict.descend v path h0 = (Ok w, h0) ->
    is_dict h0 w = false ->
    SuperDict.descend (root t) path H = (Ok w, H).
Proof.
  intros Hold. induction path as [|i path IH]; intros v t w Hcopy Hr Hrun Hw.
  - cbn in Hrun. unfold ret in Hrun. simplify_eq.
    destruct Hcopy as [v Hv|l c es l' ch Hl _]; [done|].
    unfold is_dict in Hw. by rewrite Hl in Hw.
  - destruct Hcopy as [v Hv|l c es l' ch Hl Hch].
    { by eapply descend_frame. }
    cbn [SuperDict.descend] in Hrun. unfold bind in Hrun.
    unfold subscript at 1, bind, deref in Hrun. rewrite Hl in Hrun.
    destruct (key_of_val i) as [k|] eqn:Ek; [|done].
    destruct (dict_get k es) as [v1|] eqn:Ev; [|done].
    unfold ret in Hrun.
    destruct (copy_lookup _ _ _ _ _ Hch Ev) as (t1 & Ht1 & Hc1).
    inversion Hr as [|? ? _ Hl' _ _]; subst.
    cbn [SuperDict.descend root].
    mstep ltac:(unfold subscript, bind, deref;
                by rewrite Hl', Ek, dict_get_items_of, Ht1).
    eapply IH; [exact Hc1 | by eapply realized_child | done | done].
Qed.

(** X5: [from_dict] on a mapping of finite nesting, in a well-formed store,
    returns a new [SuperDict] and leaves every existing object as it was;
    every chain of subscripts that reaches a value other than a dictionary
    in the original reaches the very same value in the copy. *)
Theorem from_dict_same_lookups h l c es n :
  heap_ok h ->
  h !! l = Some (ODict c es) ->
  nested_depth h n (VRef l) ->
  exists r h',
    SuperDict.from_dict (S n) (VRef l) h = (Ok (VRef r), h') /\
    length h <= r /\
    is_superdict h' (VRef r) = true /\
    (forall x, x < length h -> h' !! x = h !! x) /\
    forall path w,
      SuperDict.descend (VRef l) path h = (Ok w, h) ->
      is_dict h w = false ->
      SuperDict.descend (VRef r) path h' = (Ok w, h').
Proof.
  intros Hok Hl Hdepth.
  destruct (from_dict_tree h Hok n (VRef l) h Hdepth) as
    (t & h' & Hrun & Hr & _ & Hfresh & _ & Hold & Hcopy & _);
    [ intros ? [= <-]; by eapply lookup_lt_Some | done | done |].
  inversion Hcopy as [v Hv|? ? ? r ch Hl0 Hch]; subst.
  { unfold is_dict in Hv. by rewrite Hl in Hv. }
  cbn [root] in Hrun. exists r, h'. split_and!.
  - done.
  - apply Hfresh. cbn. apply list_elem_of_here.
  - inversion Hr; subst. unfold is_superdict. by simplify_option_eq.
  - done.
  - intros path w Hpath Hw.
    by apply (copy_descend h (length h) h' path Hold (VRef l) (FNode r ch) w).
Qed.

Lemma from_dict_same_lookups_witness :
  let h := [ODict CDict [(KStr "a", VRef 1); (KStr "b", VInt 1)];
            ODict CDict [(KStr "x", VRef 2)];
            OList [VInt 4; VInt 5]] in
  exists r h',
    SuperDict.from_dict 3 (VRef 0) h = (Ok (VRef r), h') /\
    length h <= r /\
    is_superdict h' (VRef r) = true /\
    (forall x, x < length h -> h' !! x = h !! x) /\
    forall path w,
      SuperDict.descend (VRef 0) path h = (Ok w, h) ->
      is_dict h w = false ->
      SuperDict.descend (VRef r) path h' = (Ok w, h').
Proof.
  intros h.
  apply (from_dict_same_lookups h 0 CDict [(KStr "a", VRef 1); (KStr "b", VInt 1)] 2).
  - intros l c es Hl.
    do 3 (destruct l as [|l]; [first [discriminate | injection Hl as <- <-; split;
      [apply (bool_decide_unpack _); vm_compute; reflexivity
      | apply Forall_forall; intros [k v] Hin l' Hv; cbn in Hv; subst v;
        repeat (apply elem_of_cons in Hin as [Hin|Hin]; [simplify_eq; cbn; lia|]);
        by apply elem_of_nil in Hin]] |]).
    done.
  - reflexivity.
  - cbn. repeat constructor.
Defined.

(** ** [update] only adds or overwrites entries *)

Lemma pure_ret {A} (a : A) : pure_op (ret a).
Proof. intros h r h' [= _ <-]. done. Qed.

Lemma pure_raise {A} e : pure_op (@raise A e).
Proof. intros h r h' [= _ <-]. done. Qed.

Lemma pure_bind {A B} (m : M A) (f : A -> M B) :
  pure_op m -> (forall a, pure_op (f a)) -> pure_op (bind m f).
Proof.
  intros Hm Hf h r h'. unfold bind.
  destruct (m h) as [[a|e] h1] eqn:E; apply Hm in E as ->.
  - apply Hf.
  - by intros [= _ <-].
Qed.

Lemma pure_deref l : pure_op (deref l).
Proof. intros h r h'. unfold deref. destruct (h !! l); by intros [= _ <-]. Qed.

Lemma pure_get_items l : pure_op (get_items l).
Proof.
  apply pure_bind; [apply pure_deref|].
  intros [c es|xs]; [apply pure_ret | apply pure_raise].
Qed.

Lemma pure_contains l k : pure_op (contains l k).
Proof. apply pure_bind; [apply pure_get_items | intros; apply pure_ret]. Qed.

Lemma pure_get_item l k : pure_op (get_item l k).
Proof.
  apply pure_bind; [apply pure_get_items|]. intros es.
  destruct (dict_get k es); [apply pure_ret | apply pure_raise].
Qed.

Lemma pure_isinstance_dict v : pure_op (isinstance_dict v).
Proof. by intros h r h' [= _ <-]. Qed.

Lemma pure_iter_val v : pure_op (iter_val v).
Proof.
  destruct v; try apply pure_raise; try apply pure_ret.
  apply pure_bind; [apply pure_deref|]. intros [c es|xs]; apply pure_ret.
Qed.

Lemma pure_hash v : pure_op (hash v).
Proof. unfold hash. destruct (key_of_val v); [apply pure_ret | apply pure_raise]. Qed.

Lemma pure_pair_of v : pure_op (pair_of v).
Proof.
  apply pure_bind; [apply pure_iter_val|]. intros xs.
  destruct xs as [|a [|b [|c xs]]]; try apply pure_raise.
  apply pure_bind; [apply pure_hash | intros; apply pure_ret].
Qed.

Lemma pure_pairs_of vs : pure_op (pairs_of vs).
Proof.
  induction vs as [|v vs IH]; [apply pure_ret|]. cbn [pairs_of].
  apply pure_bind; [apply pure_pair_of|]. intros p.
  apply pure_bind; [apply IH | intros; apply pure_ret].
Qed.

Lemma pure_dict_update_from es a : pure_op (dict_update_from es a).
Proof.
  apply pure_bind; [apply pure_isinstance_dict|]. intros [|].
  - destruct a; try apply pure_raise.
    apply pure_bind; [apply pure_get_items | intros; apply pure_ret].
  - apply pure_bind; [apply pure_iter_val|]. intros vs.
    apply pure_bind; [apply pure_pairs_of | intros; apply pure_ret].
Qed.

(** What follows a computation that leaves the store alone runs in the same
    store, if it runs at all. *)
Lemma bind_pure_inv {A B} (m : M A) (f : A -> M B) h r h' :
  pure_op m ->
  bind m f h = (r, h') ->
  (exists a, m h = (Ok a, h) /\ f a h = (r, h')) \/ h' = h.
Proof.
  intros Hm. unfold bind. destruct (m h) as [[a|e] h1] eqn:E;
    pose proof (Hm _ _ _ E) as ->.
  - intros H. left. by exists a.
  - intros [= _ <-]. by right.
Qed.

Lemma dict_update_all_keys_subseteq {V} (other es : list (key * V)) :
  es.*1 ⊆ (dict_update_all es other).*1.
Proof.
  unfold dict_update_all. revert es.
  induction other as [|[k v] other IH]; intros es; [done|]. cbn [fold_left].
  etrans; [|apply IH]. apply dict_set_keys_subseteq.
Qed.

Lemma dict_update_from_keys es a h es' h' :
  dict_update_from es a h = (Ok es', h') -> es.*1 ⊆ es'.*1.
Proof.
  unfold dict_update_from. intros H.
  apply bind_inv_Ok in H as (b & h1 & _ & H). destruct b.
  - destruct a; try done.
    apply bind_inv_Ok in H as (other & h2 & _ & [= <- _]).
    apply dict_update_all_keys_subseteq.
  - apply bind_inv_Ok in H as (vs & h2 & _ & H).
    apply bind_inv_Ok in H as (ps & h3 & _ & [= <- _]).
    apply dict_update_all_keys_subseteq.
Qed.

Lemma entries_kept_refl h : entries_kept h h.
Proof. split_and!; [apply heap_grows_refl | done | done]. Qed.

Lemma entries_kept_trans h1 h2 h3 :
  entries_kept h1 h2 -> entries_kept h2 h3 -> entries_kept h1 h3.
Proof.
  intros (Hg1 & Hl1 & Hx1) (Hg2 & Hl2 & Hx2). split_and!.
  - by eapply heap_grows_trans.
  - congruence.
  - intros l xs H. by apply Hx2, Hx1.
Qed.

Lemma entries_kept_insert h l c es es' :
  h !! l = Some (ODict c es) ->
  es.*1 ⊆ es'.*1 ->
  entries_kept h (<[l := ODict c es']> h).
Proof.
  intros Hl Hsub. split_and!.
  - intros l' c' es0 H'. destruct (decide (l = l')) as [->|Hne].
    + rewrite Hl in H'. injection H' as <- <-.
      exists es'. split; [by eapply lookup_insert_same | done].
    + exists es0. by rewrite list_lookup_insert_ne.
  - by rewrite length_insert.
  - intros l' xs H'. destruct (decide (l = l')) as [->|Hne]; [congruence|].
    by rewrite list_lookup_insert_ne.
Qed.

Lemma for_each_kept {A} (body : A -> M unit) xs :
  (forall x h r h', body x h = (r, h') -> entries_kept h h') ->
  forall h r h', for_each xs body h = (r, h') -> entries_kept h h'.
Proof.
  intros Hbody. induction xs as [|x xs IH]; intros h r h'.
  - intros [= _ <-]. apply entries_kept_refl.
  - cbn [for_each]. unfold bind.
    destruct (body x h) as [[u|e] h1] eqn:E; apply Hbody in E.
    + intros H. eapply entries_kept_trans; [exact E | by eapply IH].
    + by intros [= _ <-].
Qed.

Lemma update_entry_kept rec self kv :
  (forall l args kwargs h r h',
     rec l args kwargs h = (r, h') -> entries_kept h h') ->
  forall h r h',
    SuperDict.update_entry rec self kv h = (r, h') -> entries_kept h h'.
Proof.
  intros Hrec h r h'. unfold SuperDict.update_entry. intros H.
  apply bind_pure_inv in H as [(present & _ & H)| ->];
    [| apply entries_kept_refl | apply pure_contains].
  apply bind_pure_inv in H as [(merge & _ & H)| ->];
    [| apply entries_kept_refl |].
  2:{ destruct present; [|apply pure_ret].
      apply pure_bind; [apply pure_get_item|]. intros cur.
      apply pure_bind; [apply pure_isinstance_dict|]. intros b1.
      apply pure_bind; [apply pure_isinstance_dict|]. intros b2.
      apply pure_ret. }
  destruct merge; cbn [negb] in H.
  - apply bind_pure_inv in H as [(cur & _ & H)| ->];
      [| apply entries_kept_refl | apply pure_get_item].
    destruct cur as [| | | |l]; try (injection H as _ <-; apply entries_kept_refl).
    apply bind_pure_inv in H as [(o & Ho & H)| ->];
      [| apply entries_kept_refl | apply pure_deref].
    unfold deref in Ho. destruct (h !! l) as [o'|] eqn:El; [|done].
    injection Ho as ->.
    destruct o as [[|] es|xs].
    + apply bind_pure_inv in H as [(es' & Hes & H)| ->];
        [| apply entries_kept_refl | apply pure_dict_update_from].
      injection H as _ <-. apply (entries_kept_insert _ _ _ es); [done|].
      by eapply dict_update_from_keys.
    + unfold bind in H.
      destruct (rec l [kv.2] [] h) as [[u|e] h1] eqn:E; apply Hrec in E.
      * by injection H as _ <-.
      * by injection H as _ <-.
    + injection H as _ <-. apply entries_kept_refl.
  - unfold set_item in H. destruct (h !! self) as [[c es|xs]|] eqn:El;
      try (injection H as _ <-; apply entries_kept_refl).
    injection H as _ <-. apply (entries_kept_insert _ _ _ es); [done|].
    apply dict_set_keys_subseteq.
Qed.

(** X6: whatever its arguments and whether it returns or raises, [update]
    creates no object and removes nothing: every dictionary of the store
    keeps its class and all the keys it had, and every list is unchanged. *)
Theorem update_keeps_entries fuel :
  forall self args kwargs h r h',
    SuperDict.update fuel self args kwargs h = (r, h') -> entries_kept h h'.
Proof.
  induction fuel as [|fuel IH]; intros self args kwargs h r h' H.
  - injection H as _ <-. apply entries_kept_refl.
  - cbn [SuperDict.update] in H.
    apply bind_pure_inv in H as [(other & _ & H)| ->];
      [| apply entries_kept_refl |].
    2:{ destruct args as [|a [|b args]];
          [apply pure_ret | apply pure_dict_update_from | apply pure_raise]. }
    unfold bind in H.
    match type of H with
    | context [for_each ?xs ?body h] =>
        destruct (for_each xs body h) as [[u|e] h1] eqn:E;
        apply (for_each_kept body xs) in E
    end; try (intros x h2 r2 h2'; apply update_entry_kept; apply IH).
    + by injection H as _ <-.
    + by injection H as _ <-.
Qed.

Lemma update_keeps_entries_witness :
  let h := [ODict CSuperDict [(KStr "a", VRef 1); (KStr "b", VInt 1)];
            ODict CSuperDict [(KStr "x", VInt 1)];
            ODict CDict [(KStr "a", VRef 3); (KStr "b", VRef 3)];
            ODict CDict [(KStr "y", VInt 2)]] in
  SuperDict.update 3 0 [VRef 2] [] h =
    (Ok VNone,
     [ODict CSuperDict [(KStr "a", VRef 1); (KStr "b", VRef 3)];
      ODict CSuperDict [(KStr "x", VInt 1); (KStr "y", VInt 2)];
      ODict CDict [(KStr "a", VRef 3); (KStr "b", VRef 3)];
      ODict CDict [(KStr "y", VInt 2)]]) /\
  entries_kept h (SuperDict.update 3 0 [VRef 2] [] h).2.
Proof.
  intros h. split; [reflexivity|].
  apply (update_keeps_entries 3 0 [VRef 2] [] h
           (SuperDict.update 3 0 [VRef 2] [] h).1).
  apply surjective_pairing.
Defined.

(** ** [filter] composed with itself and with [fill_with_default] *)

Lemma filter_unchecked_run setdiff1d h self c es ks :
  h !! self = Some (ODict c es) ->
  SuperDict.filter setdiff1d self (SuperDict.IList ks) false h =
    (Ok (VRef (length h)), h ++ [ODict CSuperDict (restrict_to es ks [])]).
Proof.
  intros Hself. unfold SuperDict.filter. cbn [negb].
  by rewrite (bind_Ok _ _ _ _ _ (comp_present_run _ _ _ _ _ [] Hself)).
Qed.

Lemma filter_checked_run setdiff1d h self c es ks :
  (forall ar1 ar2,
     ar1 <> [] -> one_kind (ar1 ++ ar2) = true ->
     exists bad,
       setdiff1d ar1 ar2 = Ok bad /\ NoDup bad /\
       forall x, x ∈ bad <-> x ∈ ar1 /\ x ∉ ar2) ->
  h !! self = Some (ODict c es) ->
  ks <> [] ->
  one_kind (ks ++ es.*1) = true ->
  (forall k, k ∈ ks -> k ∈ es.*1) ->
  SuperDict.filter setdiff1d self (SuperDict.IList ks) true h =
    (Ok (VRef (length h)), h ++ [ODict CSuperDict (restrict_to es ks [])]).
Proof.
  intros Hspec Hself Hne Hkind Hall. unfold SuperDict.filter. cbn [negb].
  rewrite (bind_Ok _ _ _ _ _ (get_items_Ok _ _ _ _ Hself)).
  destruct (Hspec ks es.*1 Hne Hkind) as (bad & -> & _ & Hbad).
  destruct bad as [|b bad].
  - cbn. by rewrite (bind_Ok _ _ _ _ _ (comp_getitem_run _ _ _ _ _ [] Hself Hall)).
  - exfalso. assert (Hb : b ∈ b :: bad) by apply list_elem_of_here.
    apply Hbad in Hb as [Hb Hb']. by apply Hb', Hall.
Qed.

Lemma one_kind_elements xs ys :
  (forall k, k ∈ ys -> k ∈ xs) -> one_kind xs = true -> one_kind ys = true.
Proof.
  unfold one_kind. intros Hsub [H|H]%orb_prop; apply orb_true_iff; [left|right];
    apply forallb_forall; intros k Hk%list_elem_of_In%Hsub%list_elem_of_In;
    exact (proj1 (forallb_forall _ _) H k Hk).
Qed.

Lemma restrict_to_cons es k ks acc :
  restrict_to es (k :: ks) acc =
    restrict_to es ks
      (match dict_get k es with Some v => dict_set k v acc | None => acc end).
Proof. done. Qed.

Lemma restrict_to_twice es ks1 ks2 :
  forall acc,
    restrict_to (restrict_to es ks1 []) ks2 acc =
    restrict_to es (List.filter (fun k => bool_decide (k ∈ ks1)) ks2) acc.
Proof.
  induction ks2 as [|k ks2 IH]; intros acc; [done|].
  cbn [List.filter]. rewrite restrict_to_cons, dict_get_restrict_to.
  cbn [dict_get].
  destruct (decide (k ∈ ks1)) as [Hin|Hout].
  - rewrite bool_decide_eq_true_2, restrict_to_cons, IH by done.
    by destruct (dict_get k es).
  - rewrite bool_decide_eq_false_2 by done. apply IH.
Qed.

Lemma filter_elements_all (ks1 ks : list key) :
  (forall k, k ∈ ks -> k ∈ ks1) ->
  List.filter (fun k => bool_decide (k ∈ ks1)) ks = ks.
Proof.
  induction ks as [|k ks IH]; intros Hall; [done|]. cbn [List.filter].
  rewrite bool_decide_eq_true_2 by apply Hall, list_elem_of_here.
  f_equal. apply IH. intros k' Hk'. by apply Hall, list_elem_of_further.
Qed.

(** X7: filtering the result of an unchecked [filter] again is the same as
    one [filter] with the keys of the second list that the first list has,
    in the order of the second list; in particular filtering twice with the
    same list changes nothing. *)
Theorem filter_twice setdiff1d h self c es ks1 ks2 :
  h !! self = Some (ODict c es) ->
  exists r1 h1 r2 h2 es',
    SuperDict.filter setdiff1d self (SuperDict.IList ks1) false h =
      (Ok (VRef r1), h1) /\
    SuperDict.filter setdiff1d r1 (SuperDict.IList ks2) false h1 =
      (Ok (VRef r2), h2) /\
    h2 !! r2 = Some (ODict CSuperDict es') /\
    SuperDict.filter setdiff1d self
      (SuperDict.IList (List.filter (fun k => bool_decide (k ∈ ks1)) ks2))
      false h = (Ok (VRef (length h)), h ++ [ODict CSuperDict es']) /\
    (ks1 = ks2 -> h1 !! r1 = Some (ODict CSuperDict es')).
Proof.
  intros Hself.
  set (es1 := restrict_to es ks1 []).
  set (h1 := h ++ [ODict CSuperDict es1]).
  assert (H1 : h1 !! length h = Some (ODict CSuperDict es1)) by apply lookup_alloc.
  exists (length h), h1, (length h1), (h1 ++ [ODict CSuperDict (restrict_to es1 ks2 [])]),
    (restrict_to es1 ks2 []).
  split_and!.
  - by eapply filter_unchecked_run.
  - by eapply filter_unchecked_run.
  - apply lookup_alloc.
  - unfold es1. rewrite restrict_to_twice. by eapply filter_unchecked_run.
  - intros <-. rewrite H1. do 2 f_equal. unfold es1. rewrite restrict_to_twice.
    by rewrite filter_elements_all.
Qed.

Lemma filter_twice_witness :
  let es := [(KStr "a", VInt 1); (KStr "b", VInt 0); (KStr "c", VInt 1)] in
  let h := [ODict CSuperDict es] in
  exists r1 h1 r2 h2 es',
    SuperDict.filter setdiff1d_ref 0 (SuperDict.IList [KStr "c"; KStr "a"]) false h =
      (Ok (VRef r1), h1) /\
    SuperDict.filter setdiff1d_ref r1 (SuperDict.IList [KStr "a"; KStr "b"]) false h1 =
      (Ok (VRef r2), h2) /\
    h2 !! r2 = Some (ODict CSuperDict es') /\
    SuperDict.filter setdiff1d_ref 0
      (SuperDict.IList
         (List.filter (fun k => bool_decide (k ∈ [KStr "c"; KStr "a"]))
            [KStr "a"; KStr "b"]))
      false h = (Ok (VRef (length h)), h ++ [ODict CSuperDict es']) /\
    ([KStr "c"; KStr "a"] = [KStr "a"; KStr "b"] ->
     h1 !! r1 = Some (ODict CSuperDict es')).
Proof.
  intros es h.
  apply (filter_twice setdiff1d_ref h 0 CSuperDict es). reflexivity.
Defined.


(** X8: when the keys of the receiver and the keys of [keys] are all
    integers or all strings, and [keys] is not empty,
    [fill_with_default(keys, default)] followed by a checked [filter(keys)]
    does not raise, and gives a mapping with exactly the keys of [keys]:
    each with the receiver's value when the receiver has the key, with
    [default] otherwise.  The receiver is as before.  [setdiff1d] is any
    function that, on lists of keys of one kind, returns the distinct
    elements of the first list that are not in the second. *)
Theorem fill_with_default_then_filter setdiff1d h self c es ks d :
  (forall ar1 ar2,
     ar1 <> [] -> one_kind (ar1 ++ ar2) = true ->
     exists bad,
       setdiff1d ar1 ar2 = Ok bad /\ NoDup bad /\
       forall x, x ∈ bad <-> x ∈ ar1 /\ x ∉ ar2) ->
  h !! self = Some (ODict c es) ->
  NoDup es.*1 ->
  ks <> [] ->
  one_kind (ks ++ es.*1) = true ->
  exists r1 h1 r2 h2 es',
    SuperDict.fill_with_default self ks d h = (Ok (VRef r1), h1) /\
    SuperDict.filter setdiff1d r1 (SuperDict.IList ks) true h1 =
      (Ok (VRef r2), h2) /\
    h2 !! r2 = Some (ODict CSuperDict es') /\
    NoDup es'.*1 /\
    (forall k, dict_get k es' =
               if decide (k ∈ ks)
               then Some (default d (dict_get k es))
               else None) /\
    h2 !! self = Some (ODict c es).
Proof.
  intros Hspec Hself Hnd Hne Hkind.
  set (filled := dict_update_all
                   (fold_left (fun acc k => dict_set k d acc) ks []) es).
  set (h1 := h ++ [ODict CSuperDict filled]).
  assert (Hfilled : forall k,
            dict_get k filled =
              match dict_get k es with
              | Some v => Some v
              | None => if decide (k ∈ ks) then Some d else None
              end).
  { intros k. unfold filled. rewrite dict_get_update_all by done.
    by rewrite dict_get_const_comp. }
  assert (H1 : h1 !! length h = Some (ODict CSuperDict filled)) by apply lookup_alloc.
  exists (length h), h1, (length h1),
    (h1 ++ [ODict CSuperDict (restrict_to filled ks [])]),
    (restrict_to filled ks []).
  split_and!.
  - by eapply fill_with_default_run.
  - eapply filter_checked_run; [done | done | done | |].
    + apply (one_kind_elements (ks ++ es.*1)); [|done].
      intros k [Hk|Hk]%elem_of_app; apply elem_of_app; [by left|].
      apply dict_get_is_Some in Hk as [v Hv]. rewrite Hfilled in Hv.
      destruct (dict_get k es) eqn:E.
      * right. apply dict_get_is_Some. by rewrite E.
      * left. by destruct (decide (k ∈ ks)).
    + intros k Hk. apply dict_get_is_Some. rewrite Hfilled.
      destruct (dict_get k es); [by eexists|]. rewrite decide_True by done. by eexists.
  - apply lookup_alloc.
  - apply restrict_to_NoDup, NoDup_nil_2.
  - intros k. rewrite dict_get_restrict_to, Hfilled. cbn [dict_get].
    destruct (decide (k ∈ ks)); [|done].
    by destruct (dict_get k es).
  - apply lookup_app_l_Some. unfold h1. by apply lookup_app_l_Some.
Qed.

Lemma fill_with_default_then_filter_witness :
  let es := [(KStr "a", VInt 5); (KStr "z", VInt 7)] in
  let ks := [KStr "b"; KStr "a"] in
  let h := [ODict CSuperDict es] in
  exists r1 h1 r2 h2 es',
    SuperDict.fill_with_default 0 ks (VInt 0) h = (Ok (VRef r1), h1) /\
    SuperDict.filter setdiff1d_ref r1 (SuperDict.IList ks) true h1 =
      (Ok (VRef r2), h2) /\
    h2 !! r2 = Some (ODict CSuperDict es') /\
    NoDup es'.*1 /\
    (forall k, dict_get k es' =
               if decide (k ∈ ks)
               then Some (default (VInt 0) (dict_get k es))
               else None) /\
    h2 !! 0 = Some (ODict CSuperDict es).
Proof.
  intros es ks h.
  apply (fill_with_default_then_filter setdiff1d_ref h 0 CSuperDict es ks (VInt 0)).
  - exact setdiff1d_ref_spec.
  - reflexivity.
  - apply (bool_decide_unpack _); vm_compute; reflexivity.
  - done.
  - reflexivity.
Defined.

(** ** Comprehensions over the items of the receiver *)

Lemma store_extends_refl h : store_extends h h.
Proof. by split. Qed.

Lemma store_extends_trans h1 h2 h3 :
  store_extends h1 h2 -> store_extends h2 h3 -> store_extends h1 h3.
Proof.
  intros [Hl1 H1] [Hl2 H2]. split; [lia|].
  intros l Hl. rewrite H2 by lia. by apply H1.
Qed.

Lemma store_extends_app h os : store_extends h (h ++ os).
Proof.
  split; [rewrite length_app; lia|]. intros l Hl. by apply lookup_app_l.
Qed.

Lemma store_extends_lookup h H l o :
  store_extends h H -> h !! l = Some o -> H !! l = Some o.
Proof. intros [_ Hold] Hl. rewrite Hold; [done | by eapply lookup_lt_Some]. Qed.

Lemma insert_alloc (h : heap) (o o' : obj) :
  <[length h := o']> (h ++ [o]) = h ++ [o'].
Proof. rewrite insert_app_r_alt by lia. by rewrite Nat.sub_diag. Qed.

Lemma collect_snoc f es k v :
  collect f (es ++ [(k, v)]) =
    collect f es ++ match f k v with Some r => [(k, r)] | None => [] end.
Proof.
  unfold collect. rewrite omap_app. f_equal. cbn. by destruct (f k v).
Qed.

Lemma collect_keys f es : (collect f es).*1 ⊆ es.*1.
Proof.
  induction es as [|[k v] es IH]; [done|]. unfold collect in *. cbn.
  intros x Hx. destruct (f k v); cbn in Hx.
  - apply elem_of_cons in Hx as [->|Hx]; [apply list_elem_of_here|].
    by apply list_elem_of_further, IH.
  - by apply list_elem_of_further, IH.
Qed.

Lemma NoDup_take_lookup (es : list (key * val)) i k v :
  NoDup es.*1 -> es !! i = Some (k, v) -> k ∉ (take i es).*1.
Proof.
  intros Hnd Hi Hin.
  apply list_elem_of_fmap in Hin as ([k' v'] & Hk & Hin). cbn in Hk. subst k'.
  apply list_elem_of_lookup in Hin as [j Hj].
  assert (Hji : j < i).
  { apply lookup_lt_Some in Hj. rewrite length_take in Hj. lia. }
  rewrite lookup_take_lt in Hj by done.
  assert (j = i); [|lia].
  eapply (NoDup_lookup _ _ _ k Hnd); rewrite list_lookup_fmap.
  - by rewrite Hj.
  - by rewrite Hi.
Qed.

(** A comprehension whose entry computations leave the store alone. *)
Lemma comp_items_run self c es h entry f :
  h !! self = Some (ODict c es) ->
  NoDup es.*1 ->
  (forall k v H,
     (k, v) ∈ es -> store_extends h H ->
     entry (length h) k v H =
       match f k v with
       | Some r => set_item (length h) k r H
       | None => (Ok tt, H)
       end) ->
  comp_items self entry h =
    (Ok (VRef (S (length h))),
     h ++ [ODict CDict (collect f es); ODict CSuperDict (collect f es)]).
Proof.
  intros Hself Hnd Hentry.
  assert (Hlt : self < length h) by by eapply lookup_lt_Some.
  set (tmp := length h).
  set (I := fun (i : nat) (H : heap) =>
              H = h ++ [ODict CDict (collect f (take i es))]).
  destruct (for_items_inv self (entry tmp) I (length es)
              (h ++ [ODict CDict []])) as (h' & Hloop & HI).
  - intros i H ->. exists c, es. split_and!; [by apply lookup_app_l_Some | done |].
    intros k v Hi.
    rewrite Hentry; [| by eapply list_elem_of_lookup_2 | apply store_extends_app].
    unfold I. rewrite (take_S_r _ _ _ Hi), collect_snoc.
    destruct (f k v) as [r|].
    + eexists. split; [eapply set_item_Ok, lookup_alloc|].
      rewrite dict_set_fresh.
      * by rewrite insert_alloc.
      * intros Hin. apply collect_keys in Hin.
        by eapply NoDup_take_lookup.
    + eexists. split; [done|]. by rewrite app_nil_r.
  - done.
  - unfold I in HI. rewrite firstn_all in HI. subst h'.
    unfold comp_items. mstep ltac:(reflexivity). fold tmp.
    mstep ltac:(exact Hloop).
    mstep ltac:(eapply get_items_Ok, lookup_alloc).
    unfold bind, alloc, ret. rewrite length_app. cbn [length].
    rewrite Nat.add_1_r. by rewrite <- app_assoc.
Qed.

(** A loop whose body raises at the entry of index [i], the entries before
    it having been processed under the invariant [I]. *)
Lemma for_items_from_raise (l : loc) (body : key -> val -> M unit)
    (I : nat -> heap -> Prop) (Q : heap -> Prop) (len i : nat) e :
  i < len ->
  (forall j h, j <= i -> I j h ->
     exists c es, h !! l = Some (ODict c es) /\ length es = len /\
       forall k v, es !! j = Some (k, v) ->
         if decide (j < i)
         then exists h', body k v h = (Ok tt, h') /\ I (S j) h'
         else exists h', body k v h = (Raise e, h') /\ Q h') ->
  forall n j h, j + n = len -> j <= i -> I j h ->
    exists h', for_items_from n j len l body h = (Raise e, h') /\ Q h'.
Proof.
  intros Hi Hbody. induction n as [|n IH]; intros j h Hlen Hj HI; [lia|].
  destruct (Hbody _ _ Hj HI) as (c & es & Hl & Hes & Hstep).
  destruct (lookup_lt_is_Some_2 es j) as [[k v] Hk]; [lia|].
  specialize (Hstep _ _ Hk). cbn [for_items_from].
  destruct (decide (j < i)) as [Hlt|Hge].
  - destruct Hstep as (h1 & Hrun & HI1).
    destruct (IH (S j) h1) as (h' & Hloop & HQ); [lia | lia | done |].
    exists h'. split; [|done].
    mstep ltac:(by eapply get_items_Ok).
    rewrite Hes, Nat.eqb_refl, Hk. cbn [negb].
    mstep ltac:(exact Hrun). exact Hloop.
  - destruct Hstep as (h1 & Hrun & HQ). exists h1. split; [|done].
    mstep ltac:(by eapply get_items_Ok).
    rewrite Hes, Nat.eqb_refl, Hk. cbn [negb].
    unfold bind. by rewrite Hrun.
Qed.

Lemma for_items_raise (l : loc) (body : key -> val -> M unit)
    (I : nat -> heap -> Prop) (Q : heap -> Prop) (len i : nat) e h :
  i < len ->
  (forall j h, j <= i -> I j h ->
     exists c es, h !! l = Some (ODict c es) /\ length es = len /\
       forall k v, es !! j = Some (k, v) ->
         if decide (j < i)
         then exists h', body k v h = (Ok tt, h') /\ I (S j) h'
         else exists h', body k v h = (Raise e, h') /\ Q h') ->
  I 0 h ->
  exists h', for_items l body h = (Raise e, h') /\ Q h'.
Proof.
  intros Hi Hbody HI.
  destruct (Hbody 0 h) as (c & es & Hl & Hes & _); [lia | done |].
  destruct (for_items_from_raise l body I Q len i e Hi Hbody len 0 h)
    as (h' & Hrun & HQ); [lia | lia | done |].
  exists h'. split; [|done]. unfold for_items.
  mstep ltac:(by eapply get_items_Ok). by rewrite Hes.
Qed.

(** A comprehension whose entry for the item of index [i] raises: the
    exception leaves the call, which returns nothing. *)
Lemma comp_items_raise self c es h entry f i ki vi e :
  h !! self = Some (ODict c es) ->
  NoDup es.*1 ->
  es !! i = Some (ki, vi) ->
  (forall j k v H,
     j < i -> es !! j = Some (k, v) -> store_extends h H ->
     entry (length h) k v H =
       match f k v with
       | Some r => set_item (length h) k r H
       | None => (Ok tt, H)
       end) ->
  (forall H, store_extends h H -> entry (length h) ki vi H = (Raise e, H)) ->
  comp_items self entry h =
    (Raise e, h ++ [ODict CDict (collect f (take i es))]).
Proof.
  intros Hself Hnd Hi Hentry Hraise.
  assert (Hlt : self < length h) by by eapply lookup_lt_Some.
  set (tmp := length h).
  set (I := fun (j : nat) (H : heap) =>
              H = h ++ [ODict CDict (collect f (take j es))]).
  destruct (for_items_raise self (entry tmp) I (I i) (length es) i e
              (h ++ [ODict CDict []])) as (h' & Hloop & HI).
  - by eapply lookup_lt_Some.
  - intros j H Hj ->. exists c, es.
    split_and!; [by apply lookup_app_l_Some | done |].
    intros k v Hk. destruct (decide (j < i)) as [Hji|Hji].
    + rewrite (Hentry j); [| done | done | apply store_extends_app].
      unfold I. rewrite (take_S_r _ _ _ Hk), collect_snoc.
      destruct (f k v) as [r|].
      * eexists. split; [eapply set_item_Ok, lookup_alloc|].
        rewrite dict_set_fresh; [by rewrite insert_alloc|].
        intros Hin. apply collect_keys in Hin. by eapply NoDup_take_lookup.
      * eexists. split; [done|]. by rewrite app_nil_r.
    + assert (j = i) as -> by lia. rewrite Hi in Hk. injection Hk as <- <-.
      eexists. split; [apply Hraise, store_extends_app | done].
  - done.
  - unfold I in HI. subst h'.
    unfold comp_items. mstep ltac:(reflexivity). fold tmp.
    unfold bind. by rewrite Hloop.
Qed.

Lemma collect_total (f : key -> val -> option val) (g : key -> val -> val) es :
  (forall k v, (k, v) ∈ es -> f k v = Some (g k v)) ->
  collect f es = (fun kv => (kv.1, g kv.1 kv.2)) <$> es.
Proof.
  induction es as [|[k v] es IH]; intros Hf; [done|].
  unfold collect in *. cbn. rewrite (Hf k v) by apply list_elem_of_here. cbn.
  f_equal. apply IH. intros k' v' Hin. by apply Hf, list_elem_of_further.
Qed.

Lemma apply_run h self c es func g :
  h !! self = Some (ODict c es) ->
  NoDup es.*1 ->
  (forall k v H,
     (k, v) ∈ es -> store_extends h H ->
     func (val_of_key k) v H = (Ok (g k v), H)) ->
  let es' := (fun kv => (kv.1, g kv.1 kv.2)) <$> es in
  SuperDict.apply self func h =
    (Ok (VRef (S (length h))), h ++ [ODict CDict es'; ODict CSuperDict es']).
Proof.
  intros Hself Hnd Hfunc es'. unfold SuperDict.apply, es'.
  rewrite <- (collect_total (fun k v => Some (g k v))) by done.
  eapply comp_items_run; [done | done |].
  intros k v H Hin Hext. by rewrite (bind_Ok _ _ _ _ _ (Hfunc _ _ _ Hin Hext)).
Qed.

(** X9: when [func] computes its result without changing the store, [apply]
    and [vapply] return a new [SuperDict] with the receiver's keys in the
    receiver's order, each with the result of [func] on its entry; no
    object that existed before the call is changed. *)
Theorem apply_vapply_map_entries h self c es :
  h !! self = Some (ODict c es) ->
  NoDup es.*1 ->
  (forall func g,
     (forall k v H, (k, v) ∈ es -> store_extends h H ->
                    func (val_of_key k) v H = (Ok (g k v), H)) ->
     exists r h',
       SuperDict.apply self func h = (Ok (VRef r), h') /\
       h' !! r = Some (ODict CSuperDict ((fun kv => (kv.1, g kv.1 kv.2)) <$> es)) /\
       length h <= r /\ store_extends h h') /\
  (forall func g,
     (forall v H, v ∈ es.*2 -> store_extends h H -> func v H = (Ok (g v), H)) ->
     exists r h',
       SuperDict.vapply self func h = (Ok (VRef r), h') /\
       h' !! r = Some (ODict CSuperDict ((fun kv => (kv.1, g kv.2)) <$> es)) /\
       length h <= r /\ store_extends h h').
Proof.
  intros Hself Hnd.
  assert (Happly : forall func g,
     (forall k v H, (k, v) ∈ es -> store_extends h H ->
                    func (val_of_key k) v H = (Ok (g k v), H)) ->
     exists r h',
       SuperDict.apply self func h = (Ok (VRef r), h') /\
       h' !! r = Some (ODict CSuperDict ((fun kv => (kv.1, g kv.1 kv.2)) <$> es)) /\
       length h <= r /\ store_extends h h').
  { intros func g Hfunc. eexists _, _. split_and!.
    - by eapply apply_run.
    - rewrite (lookup_app_r h) by lia.
      by replace (S (length h) - length h) with 1 by lia.
    - lia.
    - apply store_extends_app. }
  split; [exact Happly|].
  intros func g Hfunc.
  apply (Happly (fun _ v => func v) (fun _ v => g v)).
  intros k v H Hin Hext. apply Hfunc; [|done].
  apply list_elem_of_fmap. by exists (k, v).
Qed.

Lemma apply_vapply_map_entries_witness :
  let es := [(KStr "a", VInt 1); (KStr "b", VTuple [VInt 2; VInt 3])] in
  let h := [ODict CSuperDict es] in
  let pair := fun k v : val => VTuple [k; v] in
  let wrap := fun v : val => VTuple [v] in
  (exists r h',
     SuperDict.apply 0 (fun k v => ret (pair k v)) h = (Ok (VRef r), h') /\
     h' !! r = Some (ODict CSuperDict
                       ((fun kv => (kv.1, pair (val_of_key kv.1) kv.2)) <$> es)) /\
     length h <= r /\ store_extends h h') /\
  (exists r h',
     SuperDict.vapply 0 (fun v => ret (wrap v)) h = (Ok (VRef r), h') /\
     h' !! r = Some (ODict CSuperDict ((fun kv => (kv.1, wrap kv.2)) <$> es)) /\
     length h <= r /\ store_extends h h').
Proof.
  intros es h pair wrap.
  assert (Hnd : NoDup es.*1)
    by (apply (bool_decide_unpack _); vm_compute; reflexivity).
  destruct (apply_vapply_map_entries h 0 CSuperDict es eq_refl Hnd) as [W1 W2].
  split.
  - apply (W1 (fun k v => ret (pair k v)) (fun k v => pair (val_of_key k) v)).
    reflexivity.
  - apply (W2 (fun v => ret (wrap v)) wrap). reflexivity.
Defined.

(** ** [to_lendict] *)

Lemma len_val_frame h H v :
  store_extends h H ->
  (forall l, v = VRef l -> l < length h) ->
  len_val v H = ((len_val v h).1, H).
Proof.
  intros [_ Hold] Hv. destruct v as [| z | s | xs | l]; try done.
  unfold len_val, bind, deref. rewrite Hold by by apply Hv.
  destruct (h !! l) as [[c es|xs]|]; done.
Qed.

Lemma len_val_sized h v :
  (forall l, v = VRef l -> l < length h) ->
  v <> VNone -> (forall z, v <> VInt z) ->
  exists n, (len_val v h).1 = Ok (VInt n).
Proof.
  intros Hv Hnone Hint. destruct v as [| z | s | xs | l]; try done.
  - by destruct (Hint z).
  - by eexists.
  - by eexists.
  - destruct (lookup_lt_is_Some_2 h l) as [o Ho]; [by apply Hv|].
    unfold len_val, bind, deref. rewrite Ho. destruct o; by eexists.
Qed.

Lemma first_index {A} (P : A -> Prop) (xs : list A) :
  (forall x, Decision (P x)) ->
  (exists x, x ∈ xs /\ P x) ->
  exists i x, xs !! i = Some x /\ P x /\
              forall j y, j < i -> xs !! j = Some y -> ~ P y.
Proof.
  intros Hdec. induction xs as [|x xs IH]; intros (x0 & Hin & HP).
  { by apply elem_of_nil in Hin. }
  destruct (decide (P x)) as [Hx|Hx].
  - exists 0, x. split_and!; [done | done | intros; lia].
  - destruct IH as (i & y & Hi & Hy & Hfirst).
    { apply elem_of_cons in Hin as [->|Hin]; [done | by exists x0]. }
    exists (S i), y. split_and!; [done | done |].
    intros [|j] z Hj Hz; [by injection Hz as <- | ].
    apply (Hfirst j); [lia | done].
Qed.

(** X10: [to_lendict] returns a new [SuperDict] that maps every key of the
    receiver to the length of its value when every value is a string, a
    tuple, a list or a dictionary; as soon as one value is [None] or an
    integer the call raises [TypeError] and returns nothing.  In both cases
    the objects that existed before the call are unchanged. *)
Theorem to_lendict_lengths h self c es :
  h !! self = Some (ODict c es) ->
  NoDup es.*1 ->
  (forall k l, (k, VRef l) ∈ es -> l < length h) ->
  ((forall k v, (k, v) ∈ es -> v <> VNone /\ forall z, v <> VInt z) ->
   exists r h' es',
     SuperDict.to_lendict self h = (Ok (VRef r), h') /\
     h' !! r = Some (ODict CSuperDict es') /\
     Forall2 (fun kv kv' =>
                kv'.1 = kv.1 /\ exists n, kv'.2 = VInt n /\
                len_val kv.2 h = (Ok (VInt n), h)) es es' /\
     length h <= r /\ store_extends h h') /\
  ((exists k v, (k, v) ∈ es /\ (v = VNone \/ exists z, v = VInt z)) ->
   exists h',
     SuperDict.to_lendict self h = (Raise TypeError, h') /\
     store_extends h h').
Proof.
  intros Hself Hnd Hrefs.
  set (f := fun (_ : key) (v : val) =>
              match (len_val v h).1 with Ok r => Some r | Raise _ => None end).
  assert (Hentry : forall k v H r,
            (k, v) ∈ es -> store_extends h H -> (len_val v h).1 = Ok r ->
            (r0 <- len_val v ;; set_item (length h) k r0) H =
              match f k v with
              | Some r => set_item (length h) k r H
              | None => (Ok tt, H)
              end).
  { intros k v H r Hin Hext Hr. unfold f, bind.
    rewrite (len_val_frame h H v Hext); [|intros l ->; by eapply Hrefs].
    destruct (len_val v h) as [[r'|e] h0]; cbn in *; by simplify_eq. }
  split.
  - intros Hsized.
    assert (Hlen : forall k v, (k, v) ∈ es -> exists n, (len_val v h).1 = Ok (VInt n)).
    { intros k v Hin. destruct (Hsized _ _ Hin) as [Hnone Hint].
      apply len_val_sized; [| done | done]. intros l ->. by eapply Hrefs. }
    exists (S (length h)), (h ++ [ODict CDict (collect f es); ODict CSuperDict (collect f es)]),
      (collect f es).
    split_and!.
    + unfold SuperDict.to_lendict, SuperDict.vapply.
      eapply comp_items_run; [done | done |].
      intros k v H Hin Hext. destruct (Hlen _ _ Hin) as [n Hn].
      by eapply Hentry.
    + rewrite (lookup_app_r h) by lia.
      by replace (S (length h) - length h) with 1 by lia.
    + rewrite (collect_total f
                 (fun _ v => match (len_val v h).1 with Ok r => r | Raise _ => VNone end)).
      2:{ intros k v Hin. destruct (Hlen _ _ Hin) as [n Hn]. unfold f.
          destruct (len_val v h) as [[r|e] h0]; cbn in *; congruence. }
      apply Forall2_fmap_r, Forall_Forall2_diag, Forall_forall.
      intros [k v] Hin. cbn -[len_val]. split; [done|].
      destruct (Hlen _ _ Hin) as [n Hn]. exists n.
      assert (E : len_val v h = ((len_val v h).1, h)).
      { apply len_val_frame; [apply store_extends_refl|].
        intros l ->. by eapply Hrefs. }
      destruct (len_val v h) as [[r|e] h0]; cbn in *; by simplify_eq.
    + lia.
    + apply store_extends_app.
  - intros (k0 & v0 & Hin0 & Hbad).
    destruct (first_index (fun kv : key * val =>
                             kv.2 = VNone \/ exists z, kv.2 = VInt z) es)
      as (i & [ki vi] & Hi & Hvi & Hfirst).
    { intros [k v]. destruct v as [| z | | |]; cbn;
        first [ by left; left | by left; right; eexists
              | right; intros [?|[? ?]]; done ]. }
    { by exists (k0, v0). }
    cbn [snd] in Hvi.
    eexists. split.
    + unfold SuperDict.to_lendict, SuperDict.vapply.
      eapply (comp_items_raise self c es h _ f i ki vi); [done | done | done | |].
      * intros j k v H Hj Hk Hext.
        assert (Hin : (k, v) ∈ es) by by eapply list_elem_of_lookup_2.
        destruct (len_val_sized h v) as [n Hn].
        -- intros l ->. by eapply Hrefs.
        -- intros ->. apply (Hfirst j (k, VNone) Hj Hk). by left.
        -- intros z ->. apply (Hfirst j (k, VInt z) Hj Hk). right. by eexists.
        -- by eapply Hentry.
      * intros H Hext. by destruct Hvi as [->|[z ->]].
    + apply store_extends_app.
Qed.

Lemma to_lendict_lengths_witness :
  let h := [ODict CSuperDict [(KStr "a", VRef 1); (KStr "b", VStr "xyz");
                              (KStr "c", VTuple [])];
            OList [VInt 4; VInt 5]] in
  let h2 := [ODict CSuperDict [(KStr "a", VRef 1); (KStr "b", VInt 3)];
             OList [VInt 4; VInt 5]] in
  (exists r h' es',
     SuperDict.to_lendict 0 h = (Ok (VRef r), h') /\
     h' !! r = Some (ODict CSuperDict es') /\
     Forall2 (fun kv kv' =>
                kv'.1 = kv.1 /\ exists n, kv'.2 = VInt n /\
                len_val kv.2 h = (Ok (VInt n), h))
       [(KStr "a", VRef 1); (KStr "b", VStr "xyz"); (KStr "c", VTuple [])] es' /\
     length h <= r /\ store_extends h h') /\
  (exists h',
     SuperDict.to_lendict 0 h2 = (Raise TypeError, h') /\
     store_extends h2 h').
Proof.
  intros h h2. split.
  - apply (to_lendict_lengths h 0 CSuperDict
             [(KStr "a", VRef 1); (KStr "b", VStr "xyz"); (KStr "c", VTuple [])]).
    + reflexivity.
    + apply (bool_decide_unpack _); vm_compute; reflexivity.
    + intros k l Hin.
      repeat (apply elem_of_cons in Hin as [Hin|Hin]; [simplify_eq; cbn; lia|]).
      by apply elem_of_nil in Hin.
    + intros k v Hin.
      repeat (apply elem_of_cons in Hin as [Hin|Hin]; [by simplify_eq|]).
      by apply elem_of_nil in Hin.
  - apply (to_lendict_lengths h2 0 CSuperDict
             [(KStr "a", VRef 1); (KStr "b", VInt 3)]).
    + reflexivity.
    + apply (bool_decide_unpack _); vm_compute; reflexivity.
    + intros k l Hin.
      repeat (apply elem_of_cons in Hin as [Hin|Hin]; [simplify_eq; cbn; lia|]).
      by apply elem_of_nil in Hin.
    + exists (KStr "b"), (VInt 3). split; [|right; by eexists].
      apply list_elem_of_further, list_elem_of_here.
Defined.

(** ** [clean] and [get_property] *)

Lemma collect_filter (p : val -> bool) es :
  collect (fun _ v => if p v then Some v else None) es =
    List.filter (fun kv => p kv.2) es.
Proof.
  induction es as [|[k v] es IH]; [done|]. unfold collect in *. cbn.
  destruct (p v); cbn; by rewrite IH.
Qed.

Lemma filter_keys_NoDup (p : key * val -> bool) es :
  NoDup es.*1 -> NoDup (List.filter p es).*1.
Proof.
  induction es as [|[k v] es IH]; [done|]. cbn. intros Hnd.
  apply NoDup_cons in Hnd as [Hk Hnd]. destruct (p (k, v)); [|by apply IH].
  cbn. apply NoDup_cons. split; [|by apply IH].
  intros Hin. apply Hk.
  apply list_elem_of_fmap in Hin as (kv & -> & Hin).
  apply list_elem_of_fmap. exists kv. split; [done|].
  apply list_elem_of_In, List.filter_In in Hin as [Hin _].
  by apply list_elem_of_In.
Qed.

Lemma filter_twice_same {A} (p : A -> bool) xs :
  List.filter p (List.filter p xs) = List.filter p xs.
Proof.
  induction xs as [|x xs IH]; [done|]. cbn.
  destruct (p x) eqn:E; cbn; [rewrite E; by f_equal | done].
Qed.

Lemma clean_run py_eq h self c es d func (p : val -> bool) :
  h !! self = Some (ODict c es) ->
  NoDup es.*1 ->
  (forall v H, v ∈ es.*2 -> store_extends h H ->
     match func with
     | None => fun x => SuperDict.py_ne py_eq x d
     | Some f => f
     end v H = (Ok (p v), H)) ->
  let es' := List.filter (fun kv => p kv.2) es in
  SuperDict.clean py_eq self d func h =
    (Ok (VRef (S (length h))), h ++ [ODict CDict es'; ODict CSuperDict es']).
Proof.
  intros Hself Hnd Hkeep es'. unfold es'. rewrite <- collect_filter.
  unfold SuperDict.clean. eapply comp_items_run; [done | done |].
  intros k v H Hin Hext.
  assert (Hv : v ∈ es.*2) by (apply list_elem_of_fmap; by exists (k, v)).
  rewrite (bind_Ok _ _ _ _ _ (Hkeep v H Hv Hext)). by destruct (p v).
Qed.

(** X11: with a comparison that answers on the receiver's values without
    changing the store, [clean(default_value)] returns a new [SuperDict]
    holding, in the receiver's order, exactly the entries whose value is
    not equal to [default_value]; with [func] given it keeps exactly the
    entries on whose value [func] is true, whatever [default_value] is.
    The receiver is unchanged, and cleaning the result again gives the
    same entries. *)
Theorem clean_keeps_the_rest py_eq h self c es d :
  h !! self = Some (ODict c es) ->
  NoDup es.*1 ->
  (forall eqb,
     (forall v H, v ∈ es.*2 -> store_extends h H ->
                  py_eq v d H = (Ok (eqb v), H)) ->
     let es' := List.filter (fun kv => negb (eqb kv.2)) es in
     exists r h' r2 h2,
       SuperDict.clean py_eq self d None h = (Ok (VRef r), h') /\
       h' !! r = Some (ODict CSuperDict es') /\
       length h <= r /\ store_extends h h' /\
       SuperDict.clean py_eq r d None h' = (Ok (VRef r2), h2) /\
       h2 !! r2 = Some (ODict CSuperDict es')) /\
  (forall func p,
     (forall v H, v ∈ es.*2 -> store_extends h H ->
                  func v H = (Ok (p v), H)) ->
     exists r h',
       SuperDict.clean py_eq self d (Some func) h = (Ok (VRef r), h') /\
       h' !! r = Some (ODict CSuperDict (List.filter (fun kv => p kv.2) es)) /\
       length h <= r /\ store_extends h h').
Proof.
  intros Hself Hnd. split.
  - intros eqb Heq es'.
    assert (Hne : forall v H, v ∈ es.*2 -> store_extends h H ->
                    SuperDict.py_ne py_eq v d H = (Ok (negb (eqb v)), H)).
    { intros v H Hv Hext. unfold SuperDict.py_ne.
      by rewrite (bind_Ok _ _ _ _ _ (Heq v H Hv Hext)). }
    set (h' := h ++ [ODict CDict es'; ODict CSuperDict es']).
    assert (Hr : h' !! S (length h) = Some (ODict CSuperDict es')).
    { unfold h'. rewrite (lookup_app_r h) by lia.
      by replace (S (length h) - length h) with 1 by lia. }
    assert (Hext : store_extends h h') by apply store_extends_app.
    exists (S (length h)), h', (S (length h')),
      (h' ++ [ODict CDict es'; ODict CSuperDict es']).
    split_and!;
      [ exact (clean_run py_eq h self c es d None (fun v => negb (eqb v))
                 Hself Hnd Hne)
      | done | lia | done | |].
    + rewrite (clean_run py_eq h' (S (length h)) CSuperDict es' d None
                 (fun v => negb (eqb v)) Hr); [| |].
      * unfold es'. by rewrite filter_twice_same.
      * by apply filter_keys_NoDup.
      * intros v H Hv Hext'. apply Hne; [|by eapply store_extends_trans].
        apply list_elem_of_fmap in Hv as (kv & -> & Hin).
        apply list_elem_of_fmap. exists kv. split; [done|].
        apply list_elem_of_In, List.filter_In in Hin as [Hin _].
        by apply list_elem_of_In.
    + rewrite (lookup_app_r h') by lia.
      by replace (S (length h') - length h') with 1 by lia.
  - intros func p Hfunc. eexists _, _. split_and!.
    + exact (clean_run py_eq h self c es d (Some func) p Hself Hnd Hfunc).
    + rewrite (lookup_app_r h) by lia.
      by replace (S (length h) - length h) with 1 by lia.
    + lia.
    + apply store_extends_app.
Qed.

Lemma clean_keeps_the_rest_witness :
  let es := [(KStr "a", VInt 1); (KStr "b", VInt 0); (KStr "c", VInt 1)] in
  let h := [ODict CSuperDict es] in
  let kept := [(KStr "a", VInt 1); (KStr "c", VInt 1)] in
  (exists r h' r2 h2,
     SuperDict.clean py_eq_ref 0 (VInt 0) None h = (Ok (VRef r), h') /\
     h' !! r = Some (ODict CSuperDict kept) /\
     length h <= r /\ store_extends h h' /\
     SuperDict.clean py_eq_ref r (VInt 0) None h' = (Ok (VRef r2), h2) /\
     h2 !! r2 = Some (ODict CSuperDict kept)) /\
  (exists r h',
     SuperDict.clean py_eq_ref 0 (VInt 0)
       (Some (fun v => ret (val_eqb v (VInt 0)))) h = (Ok (VRef r), h') /\
     h' !! r = Some (ODict CSuperDict [(KStr "b", VInt 0)]) /\
     length h <= r /\ store_extends h h').
Proof.
  intros es h kept.
  assert (Hnd : NoDup es.*1)
    by (apply (bool_decide_unpack _); vm_compute; reflexivity).
  destruct (clean_keeps_the_rest py_eq_ref h 0 CSuperDict es (VInt 0) eq_refl Hnd)
    as [W1 W2].
  split.
  - change kept with
      (List.filter (fun kv : key * val => negb (val_eqb kv.2 (VInt 0))) es).
    apply (W1 (fun v => val_eqb v (VInt 0))). reflexivity.
  - change [(KStr "b", VInt 0)] with
      (List.filter (fun kv : key * val => val_eqb kv.2 (VInt 0)) es).
    apply (W2 (fun v => ret (val_eqb v (VInt 0)))
              (fun v => val_eqb v (VInt 0))). reflexivity.
Defined.

(** X12: on a receiver whose values are all dictionaries, [get_property]
    with a hashable [property] never raises: it returns a new [SuperDict]
    that maps, in the receiver's order, each key whose value has the
    property to the value of that property, and drops the keys whose value
    lacks it.  The objects that existed before the call are unchanged. *)
Theorem get_property_of_dicts py_eq h self c es property kp :
  h !! self = Some (ODict c es) ->
  NoDup es.*1 ->
  key_of_val property = Some kp ->
  (forall k v, (k, v) ∈ es -> is_dict h v = true) ->
  exists r h' es',
    SuperDict.get_property py_eq self property h = (Ok (VRef r), h') /\
    h' !! r = Some (ODict CSuperDict es') /\
    es' = collect (fun _ v => property_of h kp v) es /\
    (forall k, dict_get k es' =
               match dict_get k es with
               | Some v => property_of h kp v
               | None => None
               end) /\
    length h <= r /\ store_extends h h'.
Proof.
  intros Hself Hnd Hkp Hdicts.
  set (f := fun (_ : key) (v : val) => property_of h kp v).
  exists (S (length h)),
    (h ++ [ODict CDict (collect f es); ODict CSuperDict (collect f es)]),
    (collect f es).
  split_and!.
  - unfold SuperDict.get_property. eapply comp_items_run; [done | done |].
    intros k v H Hin Hext. specialize (Hdicts _ _ Hin).
    destruct v as [| | | |l]; try done. unfold is_dict in Hdicts.
    destruct (h !! l) as [[cl items|]|] eqn:El; try done.
    pose proof (store_extends_lookup _ _ _ _ Hext El) as HEl.
    unfold f, property_of. rewrite El.
    unfold SuperDict.py_in, subscript, hash, bind, deref, ret, raise.
    rewrite HEl, Hkp. unfold dict_mem.
    destruct (dict_get kp items) eqn:Ep; [|done]. by rewrite HEl, Ep.
  - rewrite (lookup_app_r h) by lia.
    by replace (S (length h) - length h) with 1 by lia.
  - done.
  - intros k. clear Hself Hdicts. unfold collect.
    induction es as [|[k1 v1] es IH]; [done|].
    apply NoDup_cons in Hnd as [Hk1 Hnd]. cbn [omap list_omap dict_get fst snd].
    destruct (key_eqb k k1) eqn:E.
    + apply key_eqb_true in E as ->.
      destruct (f k1 v1) as [r|] eqn:Ef; cbn.
      * rewrite key_eqb_refl. done.
      * rewrite IH by done.
        assert (Hnone : dict_get k1 es = None) by by apply dict_get_None.
        by rewrite Hnone.
    + destruct (f k1 v1) as [r|]; cbn; [rewrite E|]; by apply IH.
  - lia.
  - apply store_extends_app.
Qed.

Lemma get_property_of_dicts_witness :
  let es := [(KStr "t1", VRef 1); (KStr "t2", VRef 2); (KStr "t3", VRef 1)] in
  let h := [ODict CSuperDict es;
            ODict CDict [(KStr "name", VStr "x"); (KStr "size", VInt 3)];
            ODict CSuperDict [(KStr "name", VStr "y")]] in
  exists r h' es',
    SuperDict.get_property py_eq_ref 0 (VStr "size") h = (Ok (VRef r), h') /\
    h' !! r = Some (ODict CSuperDict es') /\
    es' = collect (fun _ v => property_of h (KStr "size") v) es /\
    (forall k, dict_get k es' =
               match dict_get k es with
               | Some v => property_of h (KStr "size") v
               | None => None
               end) /\
    length h <= r /\ store_extends h h'.
Proof.
  intros es h.
  apply (get_property_of_dicts py_eq_ref h 0 CSuperDict es (VStr "size") (KStr "size")).
  - reflexivity.
  - apply (bool_decide_unpack _); vm_compute; reflexivity.
  - reflexivity.
  - intros k v Hin.
    repeat (apply elem_of_cons in Hin as [Hin|Hin]; [by simplify_eq|]).
    by apply elem_of_nil in Hin.
Defined.

(** ** [index_by_part_of_tuple] and [index_by_property] *)

Lemma seen_order_snoc ps p :
  seen_order (ps ++ [p]) =
    if decide (p ∈ seen_order ps) then seen_order ps else seen_order ps ++ [p].
Proof. unfold seen_order. by rewrite fold_left_app. Qed.

Lemma seen_order_elem ps p : p ∈ seen_order ps <-> p ∈ ps.
Proof.
  induction ps as [|q ps IH] using rev_ind.
  - done.
  - rewrite seen_order_snoc, elem_of_app, list_elem_of_singleton.
    destruct (decide (q ∈ seen_order ps)) as [Hq|Hq].
    + rewrite IH. split; [by left|]. intros [?| ->]; [done | by apply IH].
    + rewrite elem_of_app, list_elem_of_singleton, IH. done.
Qed.

Lemma seen_order_NoDup ps : NoDup (seen_order ps).
Proof.
  induction ps as [|q ps IH] using rev_ind; [apply NoDup_nil_2|].
  rewrite seen_order_snoc. destruct (decide (q ∈ seen_order ps)); [done|].
  apply NoDup_app. split_and!; [done | | apply NoDup_singleton].
  intros x Hx Hx'. apply list_elem_of_singleton in Hx'. by subst.
Qed.

Lemma dict_set_keys_seen {V} p (v : V) rs :
  (dict_set p v rs).*1 = if decide (p ∈ rs.*1) then rs.*1 else rs.*1 ++ [p].
Proof.
  destruct (decide (p ∈ rs.*1)).
  - by apply dict_set_keys_old.
  - by rewrite dict_set_fresh, fmap_app.
Qed.

Lemma dict_set_elem_inv {V} k (v : V) es k' v' :
  NoDup es.*1 ->
  (k', v') ∈ dict_set k v es ->
  (k' = k /\ v' = v) \/ (k' <> k /\ (k', v') ∈ es).
Proof.
  intros Hnd Hin.
  assert (Hget : dict_get k' (dict_set k v es) = Some v').
  { apply dict_get_elem; [by apply dict_set_NoDup | done]. }
  rewrite dict_get_set in Hget. destruct (decide (k' = k)) as [->|Hne].
  - left. split; [done|]. rewrite decide_True in Hget by done. congruence.
  - right. split; [done|]. rewrite decide_False in Hget by done.
    by apply dict_get_Some_elem.
Qed.

Lemma seq_index_map {A B} (f : A -> B) xs z :
  seq_index (map f xs) z = f <$> seq_index xs z.
Proof.
  unfold seq_index. rewrite length_map.
  destruct (0 <=? z)%Z; [apply (list_lookup_fmap f)|].
  destruct (- Z.of_nat (length xs) <=? z)%Z; [apply (list_lookup_fmap f) | done].
Qed.

Lemma seq_index_Some_lt {A} (xs : list A) z x :
  seq_index xs z = Some x -> (z < Z.of_nat (length xs))%Z.
Proof.
  unfold seq_index. destruct (0 <=? z)%Z eqn:E.
  - intros H. apply lookup_lt_Some in H. lia.
  - intros _. lia.
Qed.

Lemma subscript_part position k p H :
  part_of position k = Some p ->
  subscript (val_of_key k) (VInt position) H = (Ok (val_of_key p), H).
Proof.
  destruct k as [| z | s | ks]; try done; cbn [part_of val_of_key subscript].
  - destruct (seq_index (chars s) position); [|done]. by intros [= <-].
  - rewrite seq_index_map. by intros ->.
Qed.

Lemma len_val_part position k p H :
  part_of position k = Some p ->
  exists n, len_val (val_of_key k) H = (Ok (VInt n), H) /\ (position < n)%Z.
Proof.
  destruct k as [| z | s | ks]; try done; cbn [part_of val_of_key len_val].
  - destruct (seq_index (chars s) position) eqn:E; [|done]. intros _.
    eexists. split; [done|]. by eapply seq_index_Some_lt.
  - intros E. eexists. split; [done|]. rewrite length_map.
    by eapply seq_index_Some_lt.
Qed.

Lemma copy_flat h0 l c items t :
  h0 !! l = Some (ODict c items) ->
  Forall (fun kv : key * val => is_dict h0 kv.2 = false) items ->
  copy_of h0 (VRef l) t ->
  exists l' ch, t = FNode l' ch /\ items_of ch = items.
Proof.
  intros Hl Hflat Hcopy.
  inversion Hcopy as [v Hv|? c' es' l' ch Hl' Hch]; subst.
  { unfold is_dict in Hv. by rewrite Hl in Hv. }
  rewrite Hl in Hl'. injection Hl' as <- <-.
  exists l', ch. split; [done|].
  clear Hl Hcopy. induction Hch as [|[k v] [k' t] es' ch [Hk Hc] _ IH]; [done|].
  apply Forall_cons in Hflat as [Hv Hflat]. cbn in Hk, Hc, Hv. subst k'.
  cbn. f_equal; [|by apply IH].
  f_equal. inversion Hc as [? _|? ? ? ? ? Hl0 _]; subst; [done|].
  unfold is_dict in Hv. by rewrite Hl0 in Hv.
Qed.

Lemma Forall2_elem_r {A B} (P : A -> B -> Prop) xs ys y :
  Forall2 P xs ys -> y ∈ ys -> exists x, x ∈ xs /\ P x y.
Proof.
  induction 1 as [|x0 y0 xs ys HP _ IH]; intros Hy.
  - by apply elem_of_nil in Hy.
  - apply elem_of_cons in Hy as [->|Hy].
    + exists x0. split; [apply list_elem_of_here | done].
    + destruct (IH Hy) as (x & Hx & HPx). exists x.
      split; [by apply list_elem_of_further | done].
Qed.

Lemma copy_flat_node h0 l t :
  is_dict h0 (VRef l) = true ->
  copy_of h0 (VRef l) t ->
  exists l' ch, t = FNode l' ch /\
    exists c es, h0 !! l = Some (ODict c es) /\
      Forall2 (fun kv kt => kv.1 = kt.1 /\ copy_of h0 kv.2 kt.2) es ch.
Proof.
  intros Hd Hcopy. inversion Hcopy as [v Hv|? c' es' l' ch Hl' Hch]; subst.
  { congruence. }
  exists l', ch. split; [done|]. by exists c', es'.
Qed.

Lemma index_keys_start es pk h1 :
  index_keys es pk h1 0 (h1 ++ [ODict CDict []]) [].
Proof.
  split_and!.
  - apply store_extends_app.
  - rewrite length_app. cbn. lia.
  - apply lookup_alloc.
  - by rewrite take_0.
  - intros p g Hin. by apply elem_of_nil in Hin.
  - intros p1 p2 g Hin. by apply elem_of_nil in Hin.
  - intros l. rewrite length_app. cbn. lia.
Qed.

(** One round of the first loop. *)
Lemma index_step1 es pk (PART : key -> val -> M val) h1 i H rs k v x p :
  index_keys es pk h1 i H rs ->
  es !! i = Some (k, v) ->
  PART k v H = (Ok x, H) ->
  key_of_val x = Some p ->
  pk k v = Some p ->
  exists H',
    (p <- PART k v ;;
     e <- alloc (ODict CDict []) ;;
     kp <- hash p ;;
     set_item (length h1) kp (VRef e)) H = (Ok tt, H') /\
    exists rs', index_keys es pk h1 (S i) H' rs'.
Proof.
  intros (HextH & HlenH & Hres & Hkeys & Hrefs & Hinj & Hempty) Hi Hx Hxp Hp.
  exists (<[length h1 := ODict CDict (dict_set p (VRef (length H)) rs)]>
            (H ++ [ODict CDict []])).
  split.
  { mstep ltac:(exact Hx). mstep ltac:(reflexivity).
    mstep ltac:(unfold hash; by rewrite Hxp).
    eapply set_item_Ok. by apply lookup_app_l_Some. }
  assert (Hnd_rs : NoDup rs.*1) by (rewrite Hkeys; apply seen_order_NoDup).
  exists (dict_set p (VRef (length H)) rs). split_and!.
  + destruct HextH as [Hl Hold]. split.
    * rewrite length_insert, length_app. lia.
    * intros l Hl1. rewrite list_lookup_insert_ne by lia.
      rewrite lookup_app_l by lia. by apply Hold.
  + rewrite length_insert, length_app. lia.
  + apply list_lookup_insert_eq. rewrite length_app. lia.
  + rewrite (take_S_r _ _ _ Hi), omap_app. cbn [omap list_omap fst snd].
    rewrite Hp. cbn. rewrite seen_order_snoc, <- Hkeys.
    apply dict_set_keys_seen.
  + intros p' g Hin. rewrite length_insert, length_app. cbn [length].
    apply dict_set_elem_inv in Hin as [[-> ->]|[_ Hin]]; [| |done].
    * exists (length H). split; [done | lia].
    * destruct (Hrefs _ _ Hin) as (lg & -> & Hlg). exists lg. split; [done | lia].
  + intros p1 p2 g Hin1 Hin2.
    apply dict_set_elem_inv in Hin1 as [[-> ->]|[Hne1 Hin1]]; [| |done];
      apply dict_set_elem_inv in Hin2 as [[-> Hg]|[Hne2 Hin2]]; try done.
    * destruct (Hrefs _ _ Hin2) as (lg & [= <-] & Hlg). lia.
    * subst g. destruct (Hrefs _ _ Hin1) as (lg & [= <-] & Hlg). lia.
    * by eapply Hinj.
  + intros l. rewrite length_insert, length_app. cbn [length]. intros Hl.
    rewrite list_lookup_insert_ne by lia.
    destruct (decide (l = length H)) as [->|Hne].
    * apply lookup_alloc.
    * rewrite lookup_app_l by lia. apply Hempty. lia.
Qed.

(** The first loop when [part] raises at the entry of index [i]. *)
Lemma index_loop1_raise h self c es pk (PART : key -> val -> M val)
    h1 i k v e :
  h !! self = Some (ODict c es) ->
  store_extends h h1 ->
  es !! i = Some (k, v) ->
  (forall j kj vj H,
     j < i -> es !! j = Some (kj, vj) -> store_extends h H ->
     exists x p, PART kj vj H = (Ok x, H) /\ key_of_val x = Some p /\
                 pk kj vj = Some p) ->
  (forall H, store_extends h H -> PART k v H = (Raise e, H)) ->
  exists H,
    for_items self (fun k v =>
      p <- PART k v ;;
      e <- alloc (ODict CDict []) ;;
      kp <- hash p ;;
      set_item (length h1) kp (VRef e)) (h1 ++ [ODict CDict []]) = (Raise e, H) /\
    store_extends h1 H.
Proof.
  intros Hself Hext Hi Hbefore Hraise.
  apply (for_items_raise self _
           (fun j H => exists rs, index_keys es pk h1 j H rs)
           (store_extends h1) (length es) i e).
  - by eapply lookup_lt_Some.
  - intros j H Hj (rs & HI).
    assert (HextH : store_extends h H).
    { eapply store_extends_trans; [exact Hext | apply HI]. }
    exists c, es. split_and!; [by eapply store_extends_lookup | done |].
    intros kj vj Hkj. destruct (decide (j < i)) as [Hlt|Hge].
    + destruct (Hbefore j kj vj H Hlt Hkj HextH) as (x & p & Hx & Hxp & Hp).
      by eapply index_step1.
    + assert (j = i) as -> by lia. rewrite Hi in Hkj. injection Hkj as <- <-.
      exists H. split; [|apply HI].
      unfold bind. by rewrite (Hraise H HextH).
  - exists []. apply index_keys_start.
Qed.

Lemma copy_of_frame h H :
  heap_ok h ->
  (forall l, l < length h -> H !! l = h !! l) ->
  forall t v,
    (forall l, v = VRef l -> l < length h) ->
    copy_of H v t -> copy_of h v t.
Proof.
  intros Hok Hold. induction t as [v0|l' ch IH] using ftree_ind';
    intros v Hv Hcopy.
  - inversion Hcopy as [? Hd|]; subst. constructor.
    by rewrite <- (is_dict_old (length h) h H v0 Hv Hold).
  - inversion Hcopy as [|l c es ? ? Hl Hch]; subst.
    rewrite Hold in Hl by by apply Hv.
    econstructor; [exact Hl|].
    destruct (Hok _ _ _ Hl) as [_ Hrefs].
    clear Hl Hcopy Hv.
    induction Hch as [|[k v] [k' t] es ch [Hk Hc] _ IHch]; [constructor|].
    apply Forall_cons in IH as [IHt IH].
    apply Forall_cons in Hrefs as [Hv Hrefs].
    constructor; [|by apply IHch].
    split; [done|]. cbn in *. by apply IHt.
Qed.

Lemma nested_depth_frame h H n :
  heap_ok h ->
  (forall l, l < length h -> H !! l = h !! l) ->
  forall v,
    (forall l, v = VRef l -> l < length h) ->
    nested_depth h n v -> nested_depth H n v.
Proof.
  intros Hok Hold. induction n as [|n IH]; intros v Hv Hd;
    (destruct v as [| | | |l]; [done..|]);
    cbn [nested_depth] in *; rewrite Hold by (by apply Hv);
    (destruct (h !! l) as [[c es|]|] eqn:El; [|done..]); [done|].
  destruct (Hok _ _ _ El) as [_ Hrefs].
  rewrite Forall_forall in Hd, Hrefs. apply Forall_forall.
  intros kv Hin. apply IH; [by apply Hrefs | by apply Hd].
Qed.

Section IndexLoops.
Context (h : heap) (self : loc) (c : cls) (es : list (key * val)).
Context (PART : key -> val -> M val) (pk : key -> val -> option key).
Hypothesis Hself : h !! self = Some (ODict c es).
Hypothesis Hnd : NoDup es.*1.
Hypothesis Hpart :
  forall k v H, (k, v) ∈ es -> store_extends h H ->
    exists x p, PART k v H = (Ok x, H) /\ key_of_val x = Some p /\
                pk k v = Some p.

Lemma index_loop1 h1 :
  store_extends h h1 ->
  exists H rs,
    for_items self (fun k v =>
      p <- PART k v ;;
      e <- alloc (ODict CDict []) ;;
      kp <- hash p ;;
      set_item (length h1) kp (VRef e)) (h1 ++ [ODict CDict []]) = (Ok tt, H) /\
    index_keys es pk h1 (length es) H rs.
Proof using Hself Hpart.
  intros Hext.
  destruct (for_items_inv self
              (fun k v =>
                 p <- PART k v ;;
                 e <- alloc (ODict CDict []) ;;
                 kp <- hash p ;;
                 set_item (length h1) kp (VRef e))
              (fun i H => exists rs, index_keys es pk h1 i H rs)
              (length es) (h1 ++ [ODict CDict []])) as (H & Hloop & rs & HI).
  - intros i H (rs & HI).
    assert (HextH : store_extends h H).
    { eapply store_extends_trans; [exact Hext | apply HI]. }
    exists c, es. split_and!; [by eapply store_extends_lookup | done |].
    intros k v Hi.
    destruct (Hpart k v H) as (x & p & Hx & Hxp & Hp);
      [by eapply list_elem_of_lookup_2 | done |].
    by eapply index_step1.
  - exists []. apply index_keys_start.
  - by exists H, rs.
Qed.

Lemma group_of_snoc p es' k v :
  group_of pk p (es' ++ [(k, v)]) =
    group_of pk p es' ++ (if decide (pk k v = Some p) then [(k, v)] else []).
Proof.
  unfold group_of. rewrite List.filter_app. f_equal. cbn.
  destruct (decide (pk k v = Some p)).
  - by rewrite bool_decide_eq_true_2.
  - by rewrite bool_decide_eq_false_2.
Qed.

Lemma group_of_keys p es' : (group_of pk p es').*1 ⊆ es'.*1.
Proof.
  intros k Hk. apply list_elem_of_fmap in Hk as (kv & -> & Hin).
  apply list_elem_of_In, List.filter_In in Hin as [Hin _].
  apply list_elem_of_fmap. exists kv. split; [done|]. by apply list_elem_of_In.
Qed.

Lemma index_loop2 h1 H1 rs :
  store_extends h h1 ->
  index_keys es pk h1 (length es) H1 rs ->
  exists H2,
    for_items self (fun k v =>
      p <- PART k v ;;
      d <- subscript (VRef (length h1)) p ;;
      store_subscript d (val_of_key k) v) H1 = (Ok tt, H2) /\
    index_groups es pk h1 (length H1) rs (length es) H2.
Proof using Hself Hnd Hpart.
  intros Hext (HextH1 & HlenH1 & Hres1 & Hkeys & Hrefs & Hinj & Hempty).
  rewrite firstn_all in Hkeys.
  assert (Hnd_rs : NoDup rs.*1) by (rewrite Hkeys; apply seen_order_NoDup).
  destruct (for_items_inv self
              (fun k v =>
                 p <- PART k v ;;
                 d <- subscript (VRef (length h1)) p ;;
                 store_subscript d (val_of_key k) v)
              (index_groups es pk h1 (length H1) rs)
              (length es) H1) as (H2 & Hloop & HI).
  - intros i H (HextH & HlenH & Hres & Hgroups).
    assert (HextH' : store_extends h H) by by eapply store_extends_trans.
    exists c, es. split_and!; [by eapply store_extends_lookup | done |].
    intros k v Hi.
    assert (Hin : (k, v) ∈ es) by by eapply list_elem_of_lookup_2.
    destruct (Hpart k v H Hin HextH') as (x & p & Hx & Hxp & Hp).
    assert (Hprs : p ∈ rs.*1).
    { rewrite Hkeys. apply seen_order_elem, list_elem_of_omap.
      exists (k, v). by split. }
    apply dict_get_is_Some in Hprs as [g Hg].
    pose proof (dict_get_Some_elem _ _ _ Hg) as Hpg.
    destruct (Hrefs _ _ Hpg) as (lg & -> & Hlg).
    destruct (Hgroups lg) as (items & Hitems & Hcase); [lia|].
    assert (items = group_of pk p (take i es)) as ->.
    { destruct Hcase as [(p0 & Hp0 & ->)|[Hno _]].
      - by rewrite (Hinj _ _ _ Hp0 Hpg).
      - by destruct (Hno p). }
    exists (<[lg := ODict CDict (group_of pk p (take (S i) es))]> H).
    split.
    { mstep ltac:(exact Hx).
      mstep ltac:(unfold subscript, bind, deref; by rewrite Hres, Hxp, Hg).
      unfold store_subscript, bind, deref. rewrite Hitems.
      unfold hash. rewrite key_of_val_of_key. unfold ret, set_item.
      rewrite Hitems. do 3 f_equal.
      rewrite (take_S_r _ _ _ Hi), group_of_snoc, decide_True by done.
      apply dict_set_fresh. intros Hk. apply group_of_keys in Hk.
      exact (NoDup_take_lookup es i k v Hnd Hi Hk). }
    split_and!.
    + destruct HextH as [Hl Hold]. split; [by rewrite length_insert|].
      intros l Hl1. rewrite list_lookup_insert_ne by lia. by apply Hold.
    + by rewrite length_insert.
    + by rewrite list_lookup_insert_ne by lia.
    + intros l Hl. destruct (decide (l = lg)) as [->|Hne].
      * eexists. split; [apply list_lookup_insert_eq; lia|].
        left. by exists p.
      * rewrite list_lookup_insert_ne by done.
        destruct (Hgroups l Hl) as (items & Hl' & Hcase').
        exists items. split; [done|].
        destruct Hcase' as [(p0 & Hp0 & ->)|Hno]; [|by right].
        left. exists p0. split; [done|].
        rewrite (take_S_r _ _ _ Hi), group_of_snoc, decide_False, app_nil_r; [done|].
        rewrite Hp. intros [= <-].
        assert (VRef l = VRef lg) as [= ->]; [|done].
        apply (dict_get_elem _ _ _ Hnd_rs) in Hp0. congruence.
  - split_and!; [done | done | done |].
    intros l Hl. exists []. split; [by apply Hempty|].
    destruct (decide (VRef l ∈ rs.*2)) as [Hyes|Hno].
    + apply list_elem_of_fmap in Hyes as ([p g] & Hg & Hp). cbn in Hg. subst g.
      left. exists p. by rewrite take_0.
    + right. split; [|done]. intros p Hp. apply Hno.
      apply list_elem_of_fmap. by exists (p, VRef l).
  - by exists H2.
Qed.

Lemma index_groups_heap_ok h1 H1 rs H2 :
  heap_ok h1 ->
  store_extends h h1 ->
  index_keys es pk h1 (length es) H1 rs ->
  index_groups es pk h1 (length H1) rs (length es) H2 ->
  heap_ok H2.
Proof using Hself Hnd.
  intros Hok Hext (HextH1 & HlenH1 & Hres1 & Hkeys & Hrefs & Hinj & Hempty)
    (HextH2 & HlenH2 & Hres2 & Hgroups).
  rewrite firstn_all in Hkeys.
  assert (Hes : Forall (fun kv : key * val =>
                          forall l', kv.2 = VRef l' -> l' < length h1) es).
  { apply (Hok self c es). by eapply store_extends_lookup. }
  intros l cl items Hl.
  assert (Hlt : l < length H2) by by eapply lookup_lt_Some.
  destruct (decide (l < length h1)) as [Hold|Hnew].
  - destruct HextH2 as [Hlen Hsame]. rewrite Hsame in Hl by done.
    destruct (Hok _ _ _ Hl) as [Hnd' Hrefs']. split; [done|].
    eapply Forall_impl; [exact Hrefs'|]. intros kv Hkv l' Hl'.
    specialize (Hkv _ Hl'). lia.
  - destruct (decide (l = length h1)) as [->|Hne].
    + rewrite Hres2 in Hl. injection Hl as <- <-. split.
      * rewrite Hkeys. apply seen_order_NoDup.
      * apply Forall_forall. intros [p g] Hin l' Hg. cbn in Hg. subst g.
        destruct (Hrefs _ _ Hin) as (lg & [= <-] & Hlg). lia.
    + destruct (Hgroups l) as (items' & Hl' & Hcase); [lia|].
      rewrite Hl' in Hl. injection Hl as <- <-.
      destruct Hcase as [(p & _ & ->)|[_ ->]].
      * rewrite firstn_all. split.
        -- unfold group_of. by apply filter_keys_NoDup.
        -- apply Forall_forall. intros kv Hin l' Hkv.
           apply list_elem_of_In, List.filter_In in Hin as [Hin _].
           apply list_elem_of_In in Hin.
           rewrite Forall_forall in Hes. specialize (Hes _ Hin _ Hkv).
           destruct HextH2 as [Hlen _]. lia.
      * split; [apply NoDup_nil_2 | apply Forall_nil_2].
Qed.

(** The two loops followed by [from_dict], when the receiver's values are
    not dictionaries: whatever comes next runs with a new [SuperDict] that
    has one key for each value to index by, in the order of their first
    occurrence, each with a new [SuperDict] of the entries filed under it. *)
Lemma index_build_flat h1 n :
  heap_ok h1 ->
  store_extends h h1 ->
  (forall k v, (k, v) ∈ es -> is_dict h1 v = false) ->
  2 <= n ->
  exists r H' groups,
    (forall K : val -> M val,
       (result <- alloc (ODict CDict []) ;;
        for_items self (fun k v =>
          p <- PART k v ;;
          e <- alloc (ODict CDict []) ;;
          kp <- hash p ;;
          set_item result kp (VRef e)) ;;;
        for_items self (fun k v =>
          p <- PART k v ;;
          d <- subscript (VRef result) p ;;
          store_subscript d (val_of_key k) v) ;;;
        result <- SuperDict.from_dict (S n) (VRef result) ;;
        K result) h1 = K (VRef r) H') /\
    store_extends h1 H' /\ length h1 <= r /\
    H' !! r = Some (ODict CSuperDict groups) /\
    groups.*1 = seen_order (omap (fun kv => pk kv.1 kv.2) es) /\
    (forall p g, (p, g) ∈ groups ->
       exists lg, g = VRef lg /\ length h1 <= lg /\
         H' !! lg = Some (ODict CSuperDict (group_of pk p es))).
Proof using Hself Hnd Hpart.
  intros Hok Hext Hleaf Hn.
  destruct (index_loop1 h1 Hext) as (H1 & rs & Hloop1 & Hkeys).
  destruct (index_loop2 h1 H1 rs Hext Hkeys) as (H2 & Hloop2 & Hgroups).
  pose proof (index_groups_heap_ok h1 H1 rs H2 Hok Hext Hkeys Hgroups) as Hok2.
  destruct Hkeys as (HextH1 & HlenH1 & Hres1 & Hkeys & Hrefs & Hinj & Hempty).
  destruct Hgroups as (HextH2 & HlenH2 & Hres2 & Hgroups).
  rewrite firstn_all in Hkeys.
  assert (Hnd_rs : NoDup rs.*1) by (rewrite Hkeys; apply seen_order_NoDup).
  assert (Hes1 : h1 !! self = Some (ODict c es)) by by eapply store_extends_lookup.
  assert (Hvals : forall k v, (k, v) ∈ es -> is_dict H2 v = false).
  { intros k v Hin. rewrite (is_dict_old (length h1) h1 H2); [by eapply Hleaf | |].
    - intros l ->. destruct (Hok _ _ _ Hes1) as [_ Hr].
      rewrite Forall_forall in Hr. by apply (Hr _ Hin).
    - apply HextH2. }
  assert (Hitems : forall p lg, (p, VRef lg) ∈ rs ->
            H2 !! lg = Some (ODict CDict (group_of pk p es))).
  { intros p lg Hin. destruct (Hrefs _ _ Hin) as (lg' & [= <-] & Hlg).
    destruct (Hgroups lg) as (items & Hl & Hcase); [lia|].
    rewrite firstn_all in Hcase.
    destruct Hcase as [(p0 & Hp0 & ->)|[Hno _]].
    - by rewrite (Hinj _ _ _ Hp0 Hin) in Hl.
    - by destruct (Hno p). }
  assert (Hgroup_flat : forall p, Forall (fun kv : key * val => is_dict H2 kv.2 = false)
                                    (group_of pk p es)).
  { intros p. apply Forall_forall. intros [k v] Hin.
    apply list_elem_of_In, List.filter_In in Hin as [Hin _].
    apply list_elem_of_In in Hin. by eapply Hvals. }
  assert (Hdepth : nested_depth H2 n (VRef (length h1))).
  { apply (nested_depth_mono H2 2); [done|].
    cbn [nested_depth]. rewrite Hres2. apply Forall_forall.
    intros [p g] Hin. destruct (Hrefs _ _ Hin) as (lg & -> & Hlg).
    cbn [snd nested_depth]. rewrite (Hitems _ _ Hin).
    apply Forall_forall. intros [k v] Hkv.
    pose proof (Hgroup_flat p) as Hgf.
    rewrite Forall_forall in Hgf. specialize (Hgf _ Hkv).
    cbn [snd] in *. destruct v as [| | | |l']; try done.
    cbn [nested_depth]. unfold is_dict in Hgf.
    by destruct (H2 !! l') as [[? ?|?]|]. }
  destruct (from_dict_tree H2 Hok2 n (VRef (length h1)) H2 Hdepth)
    as (t & H' & Hrun & Hreal & _ & _ & HlenH' & HoldH' & Hcopy & _);
    [intros l [= <-]; lia | done | done |].
  destruct (copy_flat_node H2 (length h1) t)
    as (r & ch & -> & c0 & rs0 & Hrs0 & Hch); [| done |].
  { unfold is_dict. by rewrite Hres2. }
  rewrite Hres2 in Hrs0. injection Hrs0 as <- <-.
  inversion Hreal as [|? ? Hr_ge Hr _ Hchildren]; subst.
  exists r, H', (items_of ch). split_and!.
  - intros K. mstep ltac:(reflexivity). mstep ltac:(exact Hloop1).
    mstep ltac:(exact Hloop2). mstep ltac:(exact Hrun). done.
  - destruct HextH2 as [Hl2 Hold2]. split; [lia|].
    intros l Hl. rewrite HoldH' by lia. by apply Hold2.
  - destruct HextH2. lia.
  - done.
  - rewrite items_of_keys, <- (copy_keys _ _ _ Hch). done.
  - intros p g Hin. apply list_elem_of_fmap in Hin as ([p' tp] & [= -> ->] & Hin).
    destruct (Forall2_elem_r _ _ _ _ Hch Hin) as ([p0 g0] & Hin0 & Hp0 & Hc0).
    cbn in Hp0, Hc0. subst p0.
    destruct (Hrefs _ _ Hin0) as (lg & -> & Hlg).
    destruct (copy_flat H2 lg CDict (group_of pk p' es) tp (Hitems _ _ Hin0)
                (Hgroup_flat p') Hc0) as (l' & chp & -> & Hchp).
    rewrite Forall_forall in Hchildren. specialize (Hchildren _ Hin).
    inversion Hchildren as [|? ? Hl'_ge Hl' _ _]; subst.
    exists l'. split_and!; [done | destruct HextH2; lia |].
    by rewrite Hl', Hchp.
Qed.

(** The same when the receiver's values may be dictionaries, nested at most
    [n] levels deep: [from_dict] copies them, so each entry filed in the
    result holds a copy of the receiver's value, made of new [SuperDict]s. *)
Lemma index_build_deep h1 n m :
  heap_ok h1 ->
  store_extends h h1 ->
  (forall k v, (k, v) ∈ es -> nested_depth h1 n v) ->
  n + 2 <= m ->
  exists r H' groups N,
    (forall K : val -> M val,
       (result <- alloc (ODict CDict []) ;;
        for_items self (fun k v =>
          p <- PART k v ;;
          e <- alloc (ODict CDict []) ;;
          kp <- hash p ;;
          set_item result kp (VRef e)) ;;;
        for_items self (fun k v =>
          p <- PART k v ;;
          d <- subscript (VRef result) p ;;
          store_subscript d (val_of_key k) v) ;;;
        result <- SuperDict.from_dict (S m) (VRef result) ;;
        K result) h1 = K (VRef r) H') /\
    store_extends h1 H' /\ length h1 <= N /\ N <= r /\
    H' !! r = Some (ODict CSuperDict groups) /\
    groups.*1 = seen_order (omap (fun kv => pk kv.1 kv.2) es) /\
    (forall p g, (p, g) ∈ groups ->
       exists lg items, g = VRef lg /\ N <= lg /\
         H' !! lg = Some (ODict CSuperDict items) /\
         Forall2 (fun kv kv' : key * val =>
                    kv'.1 = kv.1 /\
                    exists t, copy_of h1 kv.2 t /\ realized N H' t /\
                              root t = kv'.2)
           (group_of pk p es) items).
Proof using Hself Hnd Hpart.
  intros Hok Hext Hdeep Hm.
  destruct (index_loop1 h1 Hext) as (H1 & rs & Hloop1 & Hkeys).
  destruct (index_loop2 h1 H1 rs Hext Hkeys) as (H2 & Hloop2 & Hgroups).
  pose proof (index_groups_heap_ok h1 H1 rs H2 Hok Hext Hkeys Hgroups) as Hok2.
  destruct Hkeys as (HextH1 & HlenH1 & Hres1 & Hkeys & Hrefs & Hinj & Hempty).
  destruct Hgroups as (HextH2 & HlenH2 & Hres2 & Hgroups).
  rewrite firstn_all in Hkeys.
  assert (Hnd_rs : NoDup rs.*1) by (rewrite Hkeys; apply seen_order_NoDup).
  assert (Hes1 : h1 !! self = Some (ODict c es)) by by eapply store_extends_lookup.
  assert (Hvrefs : forall k v l, (k, v) ∈ es -> v = VRef l -> l < length h1).
  { intros k v l Hin ->. destruct (Hok _ _ _ Hes1) as [_ Hr].
    rewrite Forall_forall in Hr. by apply (Hr _ Hin). }
  assert (Hitems : forall p lg, (p, VRef lg) ∈ rs ->
            H2 !! lg = Some (ODict CDict (group_of pk p es))).
  { intros p lg Hin. destruct (Hrefs _ _ Hin) as (lg' & [= <-] & Hlg).
    destruct (Hgroups lg) as (items & Hl & Hcase); [lia|].
    rewrite firstn_all in Hcase.
    destruct Hcase as [(p0 & Hp0 & ->)|[Hno _]].
    - by rewrite (Hinj _ _ _ Hp0 Hin) in Hl.
    - by destruct (Hno p). }
  assert (Hdepth : nested_depth H2 m (VRef (length h1))).
  { apply (nested_depth_mono H2 (S (S n))); [lia|].
    cbn [nested_depth]. rewrite Hres2. apply Forall_forall.
    intros [p g] Hin. destruct (Hrefs _ _ Hin) as (lg & -> & Hlg).
    cbn [snd nested_depth]. rewrite (Hitems _ _ Hin).
    apply Forall_forall. intros [k v] Hkv.
    apply list_elem_of_In, List.filter_In in Hkv as [Hkv _].
    apply list_elem_of_In in Hkv. cbn [snd].
    apply (nested_depth_frame h1 H2 n Hok); [apply HextH2 | | by eapply Hdeep].
    intros l. by apply (Hvrefs k). }
  destruct (from_dict_tree H2 Hok2 m (VRef (length h1)) H2 Hdepth)
    as (t & H' & Hrun & Hreal & _ & _ & HlenH' & HoldH' & Hcopy & _);
    [intros l [= <-]; lia | done | done |].
  destruct (copy_flat_node H2 (length h1) t)
    as (r & ch & -> & c0 & rs0 & Hrs0 & Hch); [| done |].
  { unfold is_dict. by rewrite Hres2. }
  rewrite Hres2 in Hrs0. injection Hrs0 as <- <-.
  inversion Hreal as [|? ? Hr_ge Hr _ Hchildren]; subst.
  exists r, H', (items_of ch), (length H2). split_and!.
  - intros K. mstep ltac:(reflexivity). mstep ltac:(exact Hloop1).
    mstep ltac:(exact Hloop2). mstep ltac:(exact Hrun). done.
  - destruct HextH2 as [Hl2 Hold2]. split; [lia|].
    intros l Hl. rewrite HoldH' by lia. by apply Hold2.
  - destruct HextH2. lia.
  - done.
  - done.
  - rewrite items_of_keys, <- (copy_keys _ _ _ Hch). done.
  - intros p g Hin. apply list_elem_of_fmap in Hin as ([p' tp] & [= -> ->] & Hin).
    destruct (Forall2_elem_r _ _ _ _ Hch Hin) as ([p0 g0] & Hin0 & Hp0 & Hc0).
    cbn in Hp0, Hc0. subst p0.
    destruct (Hrefs _ _ Hin0) as (lg & -> & Hlg).
    destruct (copy_flat_node H2 lg tp)
      as (l' & chp & -> & c1 & items1 & Hitems1 & Hchp); [| done |].
    { unfold is_dict. by rewrite (Hitems _ _ Hin0). }
    rewrite (Hitems _ _ Hin0) in Hitems1. injection Hitems1 as <- <-.
    rewrite Forall_forall in Hchildren. specialize (Hchildren _ Hin).
    inversion Hchildren as [|? ? Hl'_ge Hl' _ Hgrand]; subst.
    exists l', (items_of chp). split_and!; [done | done | done |].
    apply Forall2_fmap_r.
    assert (Hsub : forall kv, kv ∈ group_of pk p' es -> kv ∈ es).
    { intros kv Hkv. apply list_elem_of_In, List.filter_In in Hkv as [Hkv _].
      by apply list_elem_of_In. }
    clear Hitems Hin Hin0 Hl' Hchildren Hc0.
    generalize dependent (group_of pk p' es). intros items Hchp.
    revert Hgrand.
    induction Hchp as [|[k v] [k' t] items chp [Hk Hc] _ IH];
      intros Hgrand Hsub; [constructor|].
    apply Forall_cons in Hgrand as [Ht Hgrand]. cbn in Hk, Hc, Ht. subst k'.
    constructor.
    + cbn. split; [done|]. exists t. split_and!; [| done | done].
      apply (copy_of_frame h1 H2 Hok); [apply HextH2 | | done].
      intros l. apply (Hvrefs k). apply Hsub, list_elem_of_here.
    + apply IH; [done|]. intros kv Hkv. by apply Hsub, list_elem_of_further.
Qed.

End IndexLoops.

Lemma heap_ok_alloc_list h xs : heap_ok h -> heap_ok (h ++ [OList xs]).
Proof.
  intros Hok l c es Hl.
  assert (Hlt : l < length h).
  { destruct (decide (l < length h)); [done|].
    apply lookup_lt_Some in Hl as Hlen. rewrite length_app in Hlen. cbn in Hlen.
    assert (l = length h) as -> by lia. by rewrite lookup_alloc in Hl. }
  rewrite lookup_app_l in Hl by done.
  destruct (Hok _ _ _ Hl) as [Hnd Hrefs]. split; [done|].
  eapply Forall_impl; [exact Hrefs|]. intros kv Hkv l' Hl'.
  specialize (Hkv _ Hl'). rewrite length_app. lia.
Qed.

(** X13: on a non-empty receiver in a well-formed store, whose keys are
    tuples or strings that all have a component at [position] and whose
    values are not dictionaries, [index_by_part_of_tuple] returns a new
    [SuperDict] with one key for each component found at [position], in the
    order of their first occurrence; each is mapped to a new [SuperDict]
    holding, in the receiver's order, exactly the receiver's entries whose
    key has that component at [position].  With [get_list] the call returns
    a new list of these [SuperDict]s in the same order.  No object that
    existed before the call is changed. *)
Theorem index_by_part_of_tuple_groups h self c es position fuel :
  heap_ok h ->
  h !! self = Some (ODict c es) ->
  es <> [] ->
  (forall k v, (k, v) ∈ es ->
     is_Some (part_of position k) /\ is_dict h v = false) ->
  3 <= fuel ->
  exists r h' groups,
    SuperDict.index_by_part_of_tuple fuel self position false h =
      (Ok (VRef r), h') /\
    store_extends h h' /\ length h <= r /\
    h' !! r = Some (ODict CSuperDict groups) /\
    groups.*1 = seen_order (omap (fun kv => part_of position kv.1) es) /\
    (forall p g, (p, g) ∈ groups ->
       exists lg, g = VRef lg /\ length h <= lg /\
         h' !! lg = Some (ODict CSuperDict
                            (group_of (fun k _ => part_of position k) p es))) /\
    SuperDict.index_by_part_of_tuple fuel self position true h =
      (Ok (VRef (length h')), h' ++ [OList groups.*2]).
Proof.
  intros Hok Hself Hne Hkeys Hfuel.
  destruct (Hok _ _ _ Hself) as [Hnd Hrefs].
  destruct fuel as [|n]; [lia|].
  set (h1 := h ++ [OList ((fun kv : key * val => val_of_key kv.1) <$> es)]).
  assert (Hext : store_extends h h1) by apply store_extends_app.
  destruct (index_build_flat h self c es
              (fun k _ => subscript (val_of_key k) (VInt position))
              (fun k _ => part_of position k) Hself Hnd) with (h1 := h1) (n := n)
    as (r & H' & groups & Hrun & HextH' & Hr & Hgroups & Hgkeys & Hgs).
  { intros k v H Hin _. destruct (Hkeys _ _ Hin) as [[p Hp] _].
    exists (val_of_key p), p. split_and!; [| apply key_of_val_of_key | done].
    by apply subscript_part. }
  { by apply heap_ok_alloc_list. }
  { done. }
  { intros k v Hin. destruct (Hkeys _ _ Hin) as [_ Hv].
    rewrite (is_dict_old (length h) h h1); [done | | apply Hext].
    intros l ->. rewrite Forall_forall in Hrefs. by apply (Hrefs _ Hin). }
  { lia. }
  assert (Hlen1 : length h1 = S (length h)).
  { unfold h1. rewrite length_app. cbn. lia. }
  destruct es as [|[k0 v0] es']; [done|].
  destruct (Hkeys k0 v0) as [[p0 Hp0] _]; [apply list_elem_of_here|].
  destruct (len_val_part position k0 p0 h1 Hp0) as (len & Hlen & Hpos).
  assert (Hhead : forall b,
            SuperDict.index_by_part_of_tuple (S n) self position b h =
              (if b
               then match VRef r with
                    | VRef r => SuperDict.values_l r
                    | _ => raise SystemError
                    end
               else ret (VRef r)) H').
  { intros b. unfold SuperDict.index_by_part_of_tuple.
    mstep ltac:(unfold SuperDict.keys_l;
                mstep ltac:(by eapply get_items_Ok);
                mstep ltac:(reflexivity); reflexivity).
    fold h1.
    mstep ltac:(unfold subscript, bind, deref; unfold h1;
                rewrite lookup_alloc; reflexivity).
    mstep ltac:(exact Hlen).
    replace (len <=? position)%Z with false by lia.
    apply (Hrun (fun result =>
                   if b
                   then match result with
                        | VRef r => SuperDict.values_l r
                        | _ => raise SystemError
                        end
                   else ret result)). }
  exists r, H', groups. split_and!.
  - apply (Hhead false).
  - by eapply store_extends_trans.
  - lia.
  - done.
  - done.
  - intros p g Hin. destruct (Hgs _ _ Hin) as (lg & -> & Hlg & Hl).
    exists lg. split_and!; [done | lia | done].
  - rewrite (Hhead true). unfold SuperDict.values_l.
    mstep ltac:(by eapply get_items_Ok). reflexivity.
Qed.

Lemma index_by_part_of_tuple_groups_witness :
  let es := [(KTuple [KStr "a"; KInt 1], VInt 10);
             (KTuple [KStr "b"; KInt 1], VInt 20);
             (KTuple [KStr "a"; KInt 2], VInt 30)] in
  let h := [ODict CSuperDict es] in
  exists r h' groups,
    SuperDict.index_by_part_of_tuple 3 0 0 false h = (Ok (VRef r), h') /\
    store_extends h h' /\ length h <= r /\
    h' !! r = Some (ODict CSuperDict groups) /\
    groups.*1 = seen_order (omap (fun kv => part_of 0 kv.1) es) /\
    (forall p g, (p, g) ∈ groups ->
       exists lg, g = VRef lg /\ length h <= lg /\
         h' !! lg = Some (ODict CSuperDict
                            (group_of (fun k _ => part_of 0 k) p es))) /\
    SuperDict.index_by_part_of_tuple 3 0 0 true h =
      (Ok (VRef (length h')), h' ++ [OList groups.*2]).
Proof.
  intros es h.
  apply (index_by_part_of_tuple_groups h 0 CSuperDict es 0 3).
  - intros l c es0 Hl. destruct l as [|l]; [|done].
    injection Hl as <- <-. split.
    + apply (bool_decide_unpack _); vm_compute; reflexivity.
    + apply Forall_forall. intros [k v] Hin l' Hv. cbn in Hv. subst v.
      repeat (apply elem_of_cons in Hin as [Hin|Hin]; [by simplify_eq|]).
      by apply elem_of_nil in Hin.
  - reflexivity.
  - discriminate.
  - intros k v Hin.
    repeat (apply elem_of_cons in Hin as [Hin|Hin];
            [simplify_eq; split; [by eexists | reflexivity]|]).
    by apply elem_of_nil in Hin.
  - lia.
Defined.

(** [{('a', 1): 10, ('b', 1): 20, ('a', 2): 30}.index_by_part_of_tuple(0)]
    is [{'a': {('a', 1): 10, ('a', 2): 30}, 'b': {('b', 1): 20}}]. *)
Example index_by_part_of_tuple_example :
  let es := [(KTuple [KStr "a"; KInt 1], VInt 10);
             (KTuple [KStr "b"; KInt 1], VInt 20);
             (KTuple [KStr "a"; KInt 2], VInt 30)] in
  let h := [ODict CSuperDict es] in
  exists r ga gb h',
    SuperDict.index_by_part_of_tuple 3 0 0 false h = (Ok (VRef r), h') /\
    h' !! r = Some (ODict CSuperDict [(KStr "a", VRef ga); (KStr "b", VRef gb)]) /\
    h' !! ga = Some (ODict CSuperDict
                       [(KTuple [KStr "a"; KInt 1], VInt 10);
                        (KTuple [KStr "a"; KInt 2], VInt 30)]) /\
    h' !! gb = Some (ODict CSuperDict [(KTuple [KStr "b"; KInt 1], VInt 20)]) /\
    h' !! 0 = Some (ODict CSuperDict es).
Proof. intros es h. vm_compute. by eexists _, _, _, _. Qed.

Lemma subscript_no_part position k H :
  match k with KTuple _ | KStr _ => True | _ => False end ->
  part_of position k = None ->
  subscript (val_of_key k) (VInt position) H = (Raise IndexError, H).
Proof.
  destruct k as [| z | s | ks]; try done; intros _;
    cbn [part_of val_of_key subscript].
  - by destruct (seq_index (chars s) position).
  - rewrite seq_index_map. by intros ->.
Qed.

Lemma keys_l_run h self c es :
  h !! self = Some (ODict c es) ->
  SuperDict.keys_l self h =
    (Ok (VRef (length h)),
     h ++ [OList ((fun kv : key * val => val_of_key kv.1) <$> es)]).
Proof.
  intros Hself. unfold SuperDict.keys_l.
  mstep ltac:(by eapply get_items_Ok). mstep ltac:(reflexivity). reflexivity.
Qed.

Lemma first_key_run (h : heap) (xs : list val) :
  subscript (VRef (length h)) (VInt 0) (h ++ [OList xs]) =
    (match xs with
     | x :: _ => Ok x
     | [] => Raise IndexError
     end, h ++ [OList xs]).
Proof.
  unfold subscript, bind, deref. rewrite lookup_alloc. by destruct xs.
Qed.

(** X14: on a receiver whose keys are tuples or strings,
    [index_by_part_of_tuple] raises [IndexError], and returns nothing, when
    the receiver is empty and when some key, the first one or any other,
    has no component at [position].  The objects that existed before the
    call are unchanged. *)
Theorem index_by_part_of_tuple_short_key h self c es position fuel get_list :
  h !! self = Some (ODict c es) ->
  (forall k v, (k, v) ∈ es ->
     match k with KTuple _ | KStr _ => True | _ => False end) ->
  es = [] \/ (exists k v, (k, v) ∈ es /\ part_of position k = None) ->
  exists h',
    SuperDict.index_by_part_of_tuple fuel self position get_list h =
      (Raise IndexError, h') /\
    store_extends h h'.
Proof.
  intros Hself Hshape Hbad.
  set (h1 := h ++ [OList ((fun kv : key * val => val_of_key kv.1) <$> es)]).
  assert (Hext : store_extends h h1) by apply store_extends_app.
  unfold SuperDict.index_by_part_of_tuple.
  destruct Hbad as [->|(kb & vb & Hinb & Hb)].
  { exists h1. split; [|done].
    mstep ltac:(by eapply keys_l_run).
    unfold bind. by rewrite first_key_run. }
  destruct (first_index (fun kv : key * val => part_of position kv.1 = None) es)
    as (i & [ki vi] & Hi & Hki & Hfirst).
  { intros [k v]. cbn. destruct (part_of position k); [right | left]; done. }
  { by exists (kb, vb). }
  cbn [fst] in Hki.
  assert (Hbefore : forall j kj vj (H : heap),
            j < i -> es !! j = Some (kj, vj) -> store_extends h H ->
            exists x p,
              subscript (val_of_key kj) (VInt position) H = (Ok x, H) /\
              key_of_val x = Some p /\ part_of position kj = Some p).
  { intros j kj vj H Hj Hkj _.
    destruct (part_of position kj) as [p|] eqn:Ep.
    - exists (val_of_key p), p.
      split_and!; [by apply subscript_part | apply key_of_val_of_key | done].
    - by destruct (Hfirst j (kj, vj) Hj Hkj). }
  assert (Hraise : forall H : heap,
            store_extends h H ->
            subscript (val_of_key ki) (VInt position) H = (Raise IndexError, H)).
  { intros H _. apply subscript_no_part; [|done].
    apply (Hshape ki vi). by eapply list_elem_of_lookup_2. }
  destruct (index_loop1_raise h self c es (fun k _ => part_of position k)
              (fun k _ => subscript (val_of_key k) (VInt position))
              h1 i ki vi IndexError Hself Hext Hi Hbefore Hraise)
    as (H & Hloop & HextH).
  destruct es as [|[k0 v0] es'] eqn:Ees; [done|].
  assert (Hk0 : match k0 with KTuple _ | KStr _ => True | _ => False end).
  { apply (Hshape k0 v0), list_elem_of_here. }
  assert (Hlen0 : exists n, len_val (val_of_key k0) h1 = (Ok (VInt n), h1)).
  { destruct k0; try done; by eexists. }
  destruct Hlen0 as [n Hn].
  destruct (n <=? position)%Z eqn:En.
  - exists h1. split; [|done].
    mstep ltac:(by eapply keys_l_run). fold h1.
    mstep ltac:(unfold h1; by rewrite first_key_run).
    mstep ltac:(exact Hn). by rewrite En.
  - exists H. split; [|by eapply store_extends_trans].
    mstep ltac:(by eapply keys_l_run). fold h1.
    mstep ltac:(unfold h1; by rewrite first_key_run).
    mstep ltac:(exact Hn). rewrite En.
    mstep ltac:(reflexivity). apply bind_Raise. exact Hloop.
Qed.

Lemma index_by_part_of_tuple_short_key_witness :
  let es := [(KTuple [KStr "a"; KInt 1], VInt 10); (KTuple [KStr "b"], VInt 20)] in
  let h := [ODict CSuperDict es] in
  exists h',
    SuperDict.index_by_part_of_tuple 3 0 1 false h = (Raise IndexError, h') /\
    store_extends h h'.
Proof.
  intros es h.
  apply (index_by_part_of_tuple_short_key h 0 CSuperDict es 1 3 false).
  - reflexivity.
  - intros k v Hin.
    repeat (apply elem_of_cons in Hin as [Hin|Hin]; [by simplify_eq|]).
    by apply elem_of_nil in Hin.
  - right. exists (KTuple [KStr "b"]), (VInt 20). split; [|reflexivity].
    apply list_elem_of_further, list_elem_of_here.
Defined.

Lemma py_in_dict py_eq H l cl items property kp :
  H !! l = Some (ODict cl items) ->
  key_of_val property = Some kp ->
  SuperDict.py_in py_eq property (VRef l) H = (Ok (dict_mem kp items), H).
Proof.
  intros Hl Hkp. unfold SuperDict.py_in, bind, deref, hash. by rewrite Hl, Hkp.
Qed.

Lemma subscript_property h H v property kp :
  store_extends h H ->
  is_dict h v = true ->
  key_of_val property = Some kp ->
  subscript v property H =
    (match property_of h kp v with
     | Some x => Ok x
     | None => Raise (KeyError [kp])
     end, H).
Proof.
  intros Hext Hd Hkp. destruct v as [| | | |l]; try done.
  unfold is_dict in Hd. destruct (h !! l) as [[cl items|]|] eqn:El; try done.
  unfold subscript, bind, deref, property_of.
  rewrite (store_extends_lookup _ _ _ _ Hext El), El, Hkp.
  by destruct (dict_get kp items).
Qed.

Lemma Forall2_impl_elem {A B} (P Q : A -> B -> Prop) xs ys :
  Forall2 P xs ys ->
  (forall x y, x ∈ xs -> P x y -> Q x y) ->
  Forall2 Q xs ys.
Proof.
  induction 1 as [|x y xs ys HP _ IH]; intros HPQ; constructor.
  - apply HPQ; [apply list_elem_of_here | done].
  - apply IH. intros x' y' Hin. by apply HPQ, list_elem_of_further.
Qed.

Lemma index_by_property_probe py_eq h self c k0 v0 es' property kp :
  h !! self = Some (ODict c ((k0, v0) :: es')) ->
  NoDup ((k0, v0) :: es').*1 ->
  key_of_val property = Some kp ->
  is_dict h v0 = true ->
  exists b,
    (forall K : bool -> M val,
       (ks <- SuperDict.keys_l self ;;
        el <- subscript ks (VInt 0) ;;
        first <- subscript (VRef self) el ;;
        has <- SuperDict.py_in py_eq property first ;;
        K has) h =
       K b (h ++ [OList ((fun kv : key * val => val_of_key kv.1) <$>
                           (k0, v0) :: es')])) /\
    (b = true <-> is_Some (property_of h kp v0)).
Proof.
  intros Hself Hnd Hkp Hd0.
  set (h1 := h ++ [OList ((fun kv : key * val => val_of_key kv.1) <$>
                            (k0, v0) :: es')]).
  assert (Hext : store_extends h h1) by apply store_extends_app.
  assert (Hin0 : (k0, v0) ∈ (k0, v0) :: es') by apply list_elem_of_here.
  destruct v0 as [| | | |l0]; try done. unfold is_dict in Hd0.
  destruct (h !! l0) as [[c0 items0|]|] eqn:El0; try done.
  exists (dict_mem kp items0). split.
  - intros K. mstep ltac:(by eapply keys_l_run). fold h1.
    mstep ltac:(unfold h1; rewrite first_key_run; reflexivity).
    cbn [fst]. fold h1.
    mstep ltac:(unfold subscript, bind, deref;
                rewrite (store_extends_lookup _ _ _ _ Hext Hself),
                  key_of_val_of_key, (dict_get_elem _ _ _ Hnd Hin0);
                reflexivity).
    mstep ltac:(eapply py_in_dict; [by eapply store_extends_lookup | done]).
    reflexivity.
  - unfold property_of. rewrite El0, dict_mem_true, dict_get_is_Some. done.
Qed.

(** X15: [index_by_property] on a receiver whose values are dictionaries,
    with a hashable [property] whose values are hashable: the call raises
    [IndexError] when the receiver is empty and when the first value lacks
    the property; only the first value is examined, so when the first
    value has the property and another one lacks it, the call raises
    [KeyError] for the property instead.  In each case nothing is returned
    and the objects that existed before the call are unchanged. *)
Theorem index_by_property_missing py_eq h self c es property kp fuel get_list :
  h !! self = Some (ODict c es) ->
  NoDup es.*1 ->
  key_of_val property = Some kp ->
  (forall k v, (k, v) ∈ es -> is_dict h v = true) ->
  (forall k v x, (k, v) ∈ es -> property_of h kp v = Some x ->
                 is_Some (key_of_val x)) ->
  (es = [] ->
   exists h',
     SuperDict.index_by_property py_eq fuel self property get_list h =
       (Raise IndexError, h') /\ store_extends h h') /\
  (forall k0 v0 es',
     es = (k0, v0) :: es' -> property_of h kp v0 = None ->
     exists h',
       SuperDict.index_by_property py_eq fuel self property get_list h =
         (Raise IndexError, h') /\ store_extends h h') /\
  (forall k0 v0 es',
     es = (k0, v0) :: es' -> is_Some (property_of h kp v0) ->
     (exists k v, (k, v) ∈ es' /\ property_of h kp v = None) ->
     exists h',
       SuperDict.index_by_property py_eq fuel self property get_list h =
         (Raise (KeyError [kp]), h') /\ store_extends h h').
Proof.
  intros Hself Hnd Hkp Hdicts Hhash.
  set (h1 := h ++ [OList ((fun kv : key * val => val_of_key kv.1) <$> es)]).
  assert (Hext : store_extends h h1) by apply store_extends_app.
  assert (Hhas : forall k0 v0 es',
            es = (k0, v0) :: es' ->
            exists b,
              (forall K : bool -> M val,
                 (ks <- SuperDict.keys_l self ;;
                  el <- subscript ks (VInt 0) ;;
                  first <- subscript (VRef self) el ;;
                  has <- SuperDict.py_in py_eq property first ;;
                  K has) h = K b h1) /\
              (b = true <-> is_Some (property_of h kp v0))).
  { intros k0 v0 es' Hes. unfold h1. subst es.
    eapply index_by_property_probe; [done | done | done |].
    apply (Hdicts k0), list_elem_of_here. }
  split_and!.
  - intros ->. exists h1. split; [|done].
    unfold SuperDict.index_by_property.
    mstep ltac:(by eapply keys_l_run).
    unfold bind. by rewrite first_key_run.
  - intros k0 v0 es' Hes Hnone.
    destruct (Hhas _ _ _ Hes) as (b & Hrun & Hb).
    assert (b = false) as ->.
    { destruct b; [|done]. rewrite Hnone in Hb.
      destruct Hb as [Hb _]. by destruct (Hb eq_refl). }
    exists h1. split; [|done].
    unfold SuperDict.index_by_property. by rewrite Hrun.
  - intros k0 v0 es' Hes Hsome (kb & vb & Hinb & Hb).
    destruct (Hhas _ _ _ Hes) as (b & Hrun & Hbt).
    assert (b = true) as -> by by apply Hbt.
    destruct (first_index (fun kv : key * val => property_of h kp kv.2 = None) es)
      as (i & [ki vi] & Hi & Hki & Hfirst).
    { intros [k v]. cbn. destruct (property_of h kp v); [right | left]; done. }
    { exists (kb, vb). split; [|done]. rewrite Hes. by apply list_elem_of_further. }
    cbn [snd] in Hki.
    destruct (index_loop1_raise h self c es
                (fun _ v => match property_of h kp v with
                            | Some x => key_of_val x
                            | None => None
                            end)
                (fun _ v => subscript v property)
                h1 i ki vi (KeyError [kp]) Hself Hext Hi)
      as (H & Hloop & HextH).
    { intros j kj vj H Hj Hkj HextH.
      assert (Hinj : (kj, vj) ∈ es) by by eapply list_elem_of_lookup_2.
      destruct (property_of h kp vj) as [x|] eqn:Ex.
      - destruct (Hhash _ _ _ Hinj Ex) as [p Hp]. exists x, p.
        split_and!; [|done|done].
        rewrite (subscript_property h H vj property kp HextH); [by rewrite Ex | | done].
        by eapply Hdicts.
      - by destruct (Hfirst j (kj, vj) Hj Hkj). }
    { intros H HextH.
      rewrite (subscript_property h H vi property kp HextH); [by rewrite Hki | | done].
      eapply Hdicts. by eapply list_elem_of_lookup_2. }
    exists H. split; [|by eapply store_extends_trans].
    unfold SuperDict.index_by_property. rewrite Hrun. cbn [negb].
    mstep ltac:(reflexivity). apply bind_Raise. exact Hloop.
Qed.

Lemma index_by_property_missing_witness :
  let es := [(KStr "t1", VRef 1); (KStr "t2", VRef 2)] in
  let h := [ODict CSuperDict es;
            ODict CDict [(KStr "name", VStr "x"); (KStr "size", VInt 3)];
            ODict CDict [(KStr "name", VStr "y")]] in
  exists h',
    SuperDict.index_by_property py_eq_ref 3 0 (VStr "size") false h =
      (Raise (KeyError [KStr "size"]), h') /\
    store_extends h h'.
Proof.
  intros es h.
  destruct (index_by_property_missing py_eq_ref h 0 CSuperDict es
              (VStr "size") (KStr "size") 3 false) as (_ & _ & W).
  - reflexivity.
  - apply (bool_decide_unpack _); vm_compute; reflexivity.
  - reflexivity.
  - intros k v Hin.
    repeat (apply elem_of_cons in Hin as [Hin|Hin]; [by simplify_eq|]).
    by apply elem_of_nil in Hin.
  - intros k v x Hin Hx.
    repeat (apply elem_of_cons in Hin as [Hin|Hin];
            [simplify_eq; cbn in Hx; simplify_eq; by eexists|]).
    by apply elem_of_nil in Hin.
  - apply (W (KStr "t1") (VRef 1) [(KStr "t2", VRef 2)]).
    + reflexivity.
    + by eexists.
    + exists (KStr "t2"), (VRef 2). split; [apply list_elem_of_here | reflexivity].
Defined.

(** X16: [index_by_property] on a non-empty receiver in a well-formed
    store, whose values are dictionaries of finite nesting that all have
    the (hashable) property with a hashable value: the call returns a new
    [SuperDict] with one key for each value of the property, in the order
    of their first occurrence, each mapped to a new [SuperDict] with the
    keys of the receiver's entries that have this value, in the receiver's
    order.  What is filed under these keys is not the receiver's values but
    copies of them made of new [SuperDict]s; no object that existed before
    the call is changed. *)
Theorem index_by_property_copies py_eq h self c es property kp n fuel :
  heap_ok h ->
  h !! self = Some (ODict c es) ->
  es <> [] ->
  key_of_val property = Some kp ->
  (forall k v, (k, v) ∈ es ->
     is_dict h v = true /\ nested_depth h n v /\
     exists x, property_of h kp v = Some x /\ is_Some (key_of_val x)) ->
  n + 3 <= fuel ->
  let pk := fun (_ : key) (v : val) =>
              match property_of h kp v with
              | Some x => key_of_val x
              | None => None
              end in
  exists r h' groups N,
    SuperDict.index_by_property py_eq fuel self property false h =
      (Ok (VRef r), h') /\
    store_extends h h' /\ length h <= N /\ N <= r /\
    h' !! r = Some (ODict CSuperDict groups) /\
    groups.*1 = seen_order (omap (fun kv => pk kv.1 kv.2) es) /\
    (forall p g, (p, g) ∈ groups ->
       exists lg items, g = VRef lg /\ N <= lg /\
         h' !! lg = Some (ODict CSuperDict items) /\
         Forall2 (fun kv kv' : key * val =>
                    kv'.1 = kv.1 /\
                    exists l' t, kv'.2 = VRef l' /\ N <= l' /\
                      is_superdict h' (VRef l') = true /\
                      copy_of h kv.2 t /\ realized N h' t /\
                      root t = VRef l')
           (group_of pk p es) items).
Proof.
  intros Hok Hself Hne Hkp Hvals Hfuel pk.
  destruct (Hok _ _ _ Hself) as [Hnd Hrefs].
  destruct fuel as [|m]; [lia|].
  destruct es as [|[k0 v0] es'] eqn:Ees; [done|]. rewrite <- Ees in *.
  set (h1 := h ++ [OList ((fun kv : key * val => val_of_key kv.1) <$> es)]).
  assert (Hext : store_extends h h1) by apply store_extends_app.
  assert (Hin0 : (k0, v0) ∈ es) by (rewrite Ees; apply list_elem_of_here).
  destruct (Hvals _ _ Hin0) as (Hd0 & _ & x0 & Hx0 & _).
  destruct (index_by_property_probe py_eq h self c k0 v0 es' property kp)
    as (b & Hprobe & Hb); [by rewrite <- Ees | by rewrite <- Ees | done | done |].
  rewrite <- Ees in Hprobe. fold h1 in Hprobe.
  assert (b = true) as -> by (apply Hb; by eexists).
  destruct (index_build_deep h self c es (fun _ v => subscript v property) pk
              Hself Hnd) with (h1 := h1) (n := n) (m := m)
    as (r & H' & groups & N & Hrun & HextH' & HN & Hr & Hgroups & Hgkeys & Hgs).
  { intros k v H Hin HextH.
    destruct (Hvals _ _ Hin) as (Hd & _ & x & Hx & [p Hp]).
    exists x, p. split_and!; [| done | by unfold pk; rewrite Hx].
    rewrite (subscript_property h H v property kp HextH Hd Hkp). by rewrite Hx. }
  { by apply heap_ok_alloc_list. }
  { done. }
  { intros k v Hin. destruct (Hvals _ _ Hin) as (_ & Hdepth & _).
    apply (nested_depth_frame h h1 n Hok); [apply Hext | | done].
    intros l ->. rewrite Forall_forall in Hrefs. by apply (Hrefs _ Hin). }
  { lia. }
  assert (Hlen1 : length h <= length h1) by apply Hext.
  exists r, H', groups, N. split_and!.
  - unfold SuperDict.index_by_property. rewrite Hprobe. cbn [negb].
    apply (Hrun (fun result => ret result)).
  - by eapply store_extends_trans.
  - lia.
  - done.
  - done.
  - done.
  - intros p g Hin. destruct (Hgs _ _ Hin) as (lg & items & -> & Hlg & Hl & Hall).
    exists lg, items. split_and!; [done | done | done |].
    eapply Forall2_impl_elem; [exact Hall|].
    intros [k v] [k' v'] Hkv (Hk & t & Hcopy & Hreal & Hroot).
    cbn [fst snd] in *. split; [done|].
    apply list_elem_of_In, List.filter_In in Hkv as [Hkv _].
    apply list_elem_of_In in Hkv.
    destruct (Hvals _ _ Hkv) as (Hd & _).
    assert (Hcopy' : copy_of h v t).
    { apply (copy_of_frame h h1 Hok); [apply Hext | | done].
      intros l ->. rewrite Forall_forall in Hrefs. by apply (Hrefs _ Hkv). }
    inversion Hcopy' as [? Hleaf|l0 c0 es0 l' ch Hl0 Hch]; subst; [congruence|].
    inversion Hreal as [|? ? Hge Hl' _ _]; subst.
    exists l', (FNode l' ch). cbn [root] in *.
    split_and!; try done. unfold is_superdict. by rewrite Hl'.
Qed.

Lemma index_by_property_copies_witness :
  let es := [(KStr "t1", VRef 1); (KStr "t2", VRef 2); (KStr "t3", VRef 3)] in
  let h := [ODict CSuperDict es;
            ODict CDict [(KStr "name", VStr "x"); (KStr "size", VInt 3)];
            ODict CDict [(KStr "name", VStr "y"); (KStr "size", VInt 5)];
            ODict CDict [(KStr "name", VStr "z"); (KStr "size", VInt 3)]] in
  let pk := fun (_ : key) (v : val) =>
              match property_of h (KStr "size") v with
              | Some x => key_of_val x
              | None => None
              end in
  exists r h' groups N,
    SuperDict.index_by_property py_eq_ref 4 0 (VStr "size") false h =
      (Ok (VRef r), h') /\
    store_extends h h' /\ length h <= N /\ N <= r /\
    h' !! r = Some (ODict CSuperDict groups) /\
    groups.*1 = seen_order (omap (fun kv => pk kv.1 kv.2) es) /\
    (forall p g, (p, g) ∈ groups ->
       exists lg items, g = VRef lg /\ N <= lg /\
         h' !! lg = Some (ODict CSuperDict items) /\
         Forall2 (fun kv kv' : key * val =>
                    kv'.1 = kv.1 /\
                    exists l' t, kv'.2 = VRef l' /\ N <= l' /\
                      is_superdict h' (VRef l') = true /\
                      copy_of h kv.2 t /\ realized N h' t /\
                      root t = VRef l')
           (group_of pk p es) items).
Proof.
  intros es h pk.
  apply (index_by_property_copies py_eq_ref h 0 CSuperDict es
           (VStr "size") (KStr "size") 1 4).
  - intros l c es0 Hl.
    do 4 (destruct l as [|l]; [injection Hl as <- <-; split;
      [apply (bool_decide_unpack _); vm_compute; reflexivity
      | apply Forall_forall; intros [k v] Hin l' Hv; cbn in Hv; subst v;
        repeat (apply elem_of_cons in Hin as [Hin|Hin]; [simplify_eq; cbn; lia|]);
        by apply elem_of_nil in Hin] |]).
    done.
  - reflexivity.
  - discriminate.
  - reflexivity.
  - intros k v Hin.
    repeat (apply elem_of_cons in Hin as [Hin|Hin];
            [simplify_eq; split_and!;
               [reflexivity | cbn; repeat constructor
               | eexists; split; [reflexivity | by eexists]]|]).
    by apply elem_of_nil in Hin.
  - lia.
Defined.

(** [{'t1': {'size': 3}, 't2': {'size': 5}, 't3': {'size': 3}}] indexed by
    ['size'] is [{3: {'t1': .., 't3': ..}, 5: {'t2': ..}}], the values
    being new [SuperDict]s with the content of the receiver's values. *)
Example index_by_property_example :
  let es := [(KStr "t1", VRef 1); (KStr "t2", VRef 2); (KStr "t3", VRef 3)] in
  let h := [ODict CSuperDict es;
            ODict CDict [(KStr "size", VInt 3)];
            ODict CDict [(KStr "size", VInt 5)];
            ODict CDict [(KStr "size", VInt 3)]] in
  exists r g3 g5 c1 c2 c3 h',
    SuperDict.index_by_property py_eq_ref 4 0 (VStr "size") false h =
      (Ok (VRef r), h') /\
    h' !! r = Some (ODict CSuperDict [(KInt 3, VRef g3); (KInt 5, VRef g5)]) /\
    h' !! g3 = Some (ODict CSuperDict [(KStr "t1", VRef c1); (KStr "t3", VRef c3)]) /\
    h' !! g5 = Some (ODict CSuperDict [(KStr "t2", VRef c2)]) /\
    h' !! c1 = Some (ODict CSuperDict [(KStr "size", VInt 3)]) /\
    4 <= c1 /\ 4 <= c2 /\ 4 <= c3.
Proof. intros es h. vm_compute. eexists _, _, _, _, _, _, _. repeat split; lia. Qed.

(** ** [to_dictup] followed by [to_dictdict] *)

Lemma tleaves_paths l ch :
  (tleaves (FNode l ch)).*1 =
    ch ≫= fun kt => cons kt.1 <$> (tleaves kt.2).*1.
Proof.
  cbn [tleaves]. induction ch as [|[k t] ch IH]; [done|].
  cbn [mbind list_bind fst snd]. rewrite fmap_app. f_equal; [|exact IH].
  rewrite <- !list_fmap_compose. done.
Qed.

Lemma tleaves_paths_elem l ch p :
  NoDup ch.*1 ->
  p ∈ (tleaves (FNode l ch)).*1 ->
  exists k t p', p = k :: p' /\ dict_get k ch = Some t /\
                 p' ∈ (tleaves t).*1.
Proof.
  intros Hnd. rewrite tleaves_paths. intros Hin.
  apply list_elem_of_bind in Hin as ([k t] & Hin & Hkt). cbn [fst snd] in Hin.
  apply list_elem_of_fmap in Hin as (p' & -> & Hp').
  exists k, t, p'. split_and!; [done | by apply dict_get_elem | done].
Qed.

Lemma tleaves_prefix_free n0 h t :
  realized n0 h t -> prefix_free (tleaves t).*1.
Proof.
  induction t as [v|l ch IH] using ftree_ind'; intros Hr.
  - split; [apply NoDup_singleton|]. cbn. intros p q Hp Hq _.
    apply list_elem_of_singleton in Hp, Hq. congruence.
  - inversion Hr as [|? ? _ _ Hnd Hch]; subst.
    rewrite Forall_forall in IH, Hch. split.
    + rewrite tleaves_paths. apply NoDup_bind.
      * intros [k1 t1] [k2 t2] p Hin1 Hin2 Hp1 Hp2. cbn [fst snd] in *.
        apply list_elem_of_fmap in Hp1 as (p1 & -> & _).
        apply list_elem_of_fmap in Hp2 as (p2 & [= -> _] & _).
        f_equal. apply (dict_get_elem _ _ _ Hnd) in Hin1, Hin2. congruence.
      * intros [k t] Hin. cbn [fst snd].
        apply NoDup_fmap_2; [by intros ? ? [= ->]|].
        apply (IH _ Hin). by apply (Hch _ Hin).
      * by eapply NoDup_fmap_1.
    + intros p q Hp Hq Hpre.
      apply tleaves_paths_elem in Hp as (k1 & t1 & p1 & -> & Ht1 & Hp1); [|done].
      apply tleaves_paths_elem in Hq as (k2 & t2 & p2 & -> & Ht2 & Hp2); [|done].
      destruct Hpre as [rest Hrest]. injection Hrest as <- Hrest.
      rewrite Ht1 in Ht2. injection Ht2 as <-.
      apply dict_get_Some_elem in Ht1. f_equal.
      apply (IH _ Ht1); [by apply (Hch _ Ht1) | done | done | by exists rest].
Qed.

Lemma tleaves_nonempty_paths l ch :
  Forall (fun pv : list key * val => pv.1 <> []) (tleaves (FNode l ch)).
Proof.
  apply Forall_forall. intros [p v] Hin. cbn [tleaves] in Hin.
  apply list_elem_of_bind in Hin as ([k t] & Hin & _).
  by apply list_elem_of_fmap in Hin as ([p' v'] & [= -> ->] & _).
Qed.

Lemma tleaves_leaf_values n0 h t :
  realized n0 h t ->
  Forall (fun pv : list key * val => leaf_value n0 h pv.2) (tleaves t).
Proof.
  induction t as [v|l ch IH] using ftree_ind'; intros Hr.
  - inversion Hr; subst. by repeat constructor.
  - inversion Hr as [|? ? _ _ _ Hch]; subst.
    rewrite Forall_forall in IH, Hch. apply Forall_forall.
    intros [p v] Hin. cbn [tleaves] in Hin.
    apply list_elem_of_bind in Hin as ([k t] & Hin & Hkt).
    apply list_elem_of_fmap in Hin as ([p' v'] & [= -> ->] & Hin).
    specialize (IH _ Hkt (Hch _ Hkt)). rewrite Forall_forall in IH.
    by apply (IH _ Hin).
Qed.

(** X17: for a receiver that is a tree of [SuperDict]s, [to_dictup]
    followed by [to_dictdict] builds a new tree of [SuperDict]s with the
    same leaves at the same paths as the receiver: [get_m] finds at every
    path of a leaf the same value in the result as in the receiver.  The
    objects that existed before the calls are unchanged. *)
Theorem to_dictup_then_to_dictdict n0 h self ch :
  realized n0 h (FNode self ch) ->
  exists fuel0, forall fuel, fuel0 <= fuel ->
    exists out h1 d h2 ch',
      SuperDict.to_dictup fuel self h = (Ok (VRef out), h1) /\
      SuperDict.to_dictdict out h1 = (Ok (VRef d), h2) /\
      length h <= out /\ out < d /\
      (forall l, l < length h -> h2 !! l = h !! l) /\
      realized d h2 (FNode d ch') /\
      tleaves (FNode d ch') ≡ₚ tleaves (FNode self ch) /\
      (forall p v, (p, v) ∈ tleaves (FNode self ch) ->
         SuperDict.get_m d (val_of_key <$> p) h2 = (Ok v, h2) /\
         SuperDict.get_m self (val_of_key <$> p) h2 = (Ok v, h2)).
Proof.
  intros Hr. set (t := FNode self ch) in *.
  exists (S (depth t)). intros fuel Hfuel.
  set (out := length h). set (H := h ++ [ODict CSuperDict []]).
  set (paths := tleaves t).
  pose proof (tleaves_prefix_free _ _ _ Hr) as Hfree. fold paths in Hfree.
  assert (Hlocs : forall l, l ∈ locs t -> l < length h).
  { intros l Hl. by apply (realized_locs _ _ _ _ Hr). }
  assert (Hn0 : n0 <= self /\ self < length h).
  { apply (realized_locs _ _ _ _ Hr). apply list_elem_of_here. }
  assert (HrH : realized n0 H t).
  { eapply realized_frame; [exact Hr | |].
    - intros l Hl. unfold H. apply lookup_app_l. lia.
    - intros l Hl. unfold H. apply lookup_app_l. by apply Hlocs. }
  assert (Hflat : tflat [] t = tuple_items paths) by by rewrite tflat_tleaves.
  set (h1 := <[out := ODict CSuperDict (tuple_items paths)]> H).
  assert (Hup : SuperDict.to_dictup fuel self h = (Ok (VRef out), h1)).
  { unfold SuperDict.to_dictup. mstep ltac:(reflexivity). fold out H.
    change (VRef self) with (root t).
    rewrite (dicts_to_tup_tree n0 out t fuel [] H CSuperDict []);
      [| lia | done | | unfold out; lia | by apply lookup_alloc].
    - rewrite dict_update_all_nil; [by rewrite Hflat|].
      rewrite Hflat. apply tuple_items_keys_NoDup, Hfree.
    - intros Hin. apply Hlocs in Hin. unfold out in Hin. lia. }
  assert (Hlen1 : length h1 = S (length h)).
  { unfold h1, H. rewrite length_insert, length_app. cbn. lia. }
  assert (Hold1 : forall l, l < length h -> h1 !! l = h !! l).
  { intros l Hl. unfold h1, H. rewrite list_lookup_insert_ne by (unfold out; lia).
    by apply lookup_app_l. }
  assert (Hout : h1 !! out = Some (ODict CSuperDict (tuple_items paths))).
  { unfold h1. apply list_lookup_insert_eq. unfold H, out.
    rewrite length_app. cbn. lia. }
  assert (Hr1 : realized n0 h1 t).
  { eapply realized_frame; [exact Hr | |].
    - intros l Hl. apply Hold1. lia.
    - intros l Hl. apply Hold1. by apply Hlocs. }
  destruct (to_dictdict_tree h1 out CSuperDict paths Hout)
    as (h2 & Hdd & Hr2 & _ & _ & Hold2).
  { apply tleaves_nonempty_paths. }
  { eapply Forall_impl; [apply (tleaves_leaf_values _ _ _ Hr1)|].
    intros pv [Hd Hlt]. split; [done|]. intros l Hl. specialize (Hlt l Hl). lia. }
  set (d := length h1) in *.
  set (ch' := (fset_all ([], S d) paths).1) in *.
  assert (Hleaves : tleaves (FNode d ch') ≡ₚ paths).
  { unfold ch'. rewrite fset_all_leaves; [done | apply tleaves_nonempty_paths |].
    by cbn. }
  exists out, h1, d, h2, ch'. split_and!.
  - done.
  - done.
  - done.
  - unfold d, out. lia.
  - intros l Hl. rewrite Hold2 by (unfold d; lia). by apply Hold1.
  - done.
  - done.
  - intros p v Hin. split.
    + apply (get_m_tree _ _ _ _ _ (FLeaf v) Hr2).
      apply (tleaves_tfind _ _ _ Hr2). by rewrite Hleaves.
    + assert (Hr2' : realized n0 h2 t).
      { eapply realized_frame; [exact Hr1 | |].
        - intros l Hl. apply Hold2. unfold d. lia.
        - intros l Hl. apply Hold2. apply Hlocs in Hl. unfold d. lia. }
      apply (get_m_tree _ _ _ _ _ (FLeaf v) Hr2').
      by apply (tleaves_tfind _ _ _ Hr2').
Qed.

Lemma to_dictup_then_to_dictdict_witness :
  let h := [ODict CSuperDict [(KStr "a", VRef 1); (KStr "z", VInt 9)];
            ODict CSuperDict [(KStr "b", VInt 1); (KStr "c", VNone)]] in
  let ch := [(KStr "a", FNode 1 [(KStr "b", FLeaf (VInt 1));
                                 (KStr "c", FLeaf VNone)]);
             (KStr "z", FLeaf (VInt 9))] in
  exists fuel0, forall fuel, fuel0 <= fuel ->
    exists out h1 d h2 ch',
      SuperDict.to_dictup fuel 0 h = (Ok (VRef out), h1) /\
      SuperDict.to_dictdict out h1 = (Ok (VRef d), h2) /\
      length h <= out /\ out < d /\
      (forall l, l < length h -> h2 !! l = h !! l) /\
      realized d h2 (FNode d ch') /\
      tleaves (FNode d ch') ≡ₚ tleaves (FNode 0 ch) /\
      (forall p v, (p, v) ∈ tleaves (FNode 0 ch) ->
         SuperDict.get_m d (val_of_key <$> p) h2 = (Ok v, h2) /\
         SuperDict.get_m 0 (val_of_key <$> p) h2 = (Ok v, h2)).
Proof.
  intros h ch.
  apply (to_dictup_then_to_dictdict 0 h 0 ch). solve_realized.
Defined.

(** ** [set_m] through a value that is not a [SuperDict] *)

(** X18: when a path of two keys or more goes through a key of the
    receiver whose value is not a [SuperDict] (a plain dictionary, for
    example), [set_m] does not descend into that value: it puts a new
    [SuperDict] in its place and continues there.  Afterwards the receiver
    gives the value set along the path, and [None] for every other key
    below the first one: what the former value held is no longer reachable
    from the receiver.  No object other than the receiver is changed. *)
Theorem set_m_replaces_non_superdict h self c es k k2 rest value cur :
  h !! self = Some (ODict c es) ->
  dict_get k es = Some cur ->
  is_superdict h cur = false ->
  leaf_value (length h) h value ->
  exists h',
    SuperDict.set_m self (k :: k2 :: rest) value h = (Ok (VRef self), h') /\
    h' !! self = Some (ODict c (dict_set k (VRef (length h)) es)) /\
    is_superdict h' (VRef (length h)) = true /\
    SuperDict.get_m self (val_of_key <$> k :: k2 :: rest) h' = (Ok value, h') /\
    (forall kb, kb <> k2 ->
       SuperDict.get_m self [val_of_key k; val_of_key kb] h' = (Ok VNone, h')) /\
    (forall l, l < length h -> l <> self -> h' !! l = h !! l).
Proof.
  intros Hself Hcur Hnot [Hv Hvlt].
  assert (Hlt : self < length h) by by eapply lookup_lt_Some.
  set (d := length h).
  set (h1 := <[self := ODict c (dict_set k (VRef d) es)]>
               (h ++ [ODict CSuperDict []])).
  assert (Hself1 : h1 !! self = Some (ODict c (dict_set k (VRef d) es))).
  { unfold h1. apply list_lookup_insert_eq. rewrite length_app. lia. }
  assert (Hd1 : h1 !! d = Some (ODict CSuperDict [])).
  { unfold h1, d. by apply lookup_alloc_insert. }
  assert (Hold1 : forall l, l < length h -> l <> self -> h1 !! l = h !! l).
  { intros l Hl Hne. unfold h1. rewrite list_lookup_insert_ne by done.
    by apply lookup_app_l. }
  assert (Hlen1 : length h1 = S d).
  { unfold h1, d. rewrite length_insert, length_app. cbn. lia. }
  assert (Hr1 : realized d h1 (FNode d [])).
  { constructor; [done | done | apply NoDup_nil_2 | constructor]. }
  assert (Hv1 : is_dict h1 value = false).
  { destruct value as [| | | |l]; try done. unfold is_dict in *.
    destruct (decide (l = self)) as [->|Hne]; [by rewrite Hself in Hv|].
    rewrite Hold1; [done | by apply Hvlt | done]. }
  destruct (set_m_tree d (k2 :: rest) d [] value h1) as
    (h2 & Hsub & Hr2 & _ & _ & Hlen2 & _ & Hframe);
    [done | done | cbn; apply NoDup_singleton | done | done |].
  set (ch2 := (fset (length h1) [] (k2 :: rest) value).1) in *.
  assert (Hself2 : h2 !! self = Some (ODict c (dict_set k (VRef d) es))).
  { rewrite Hframe; [done | lia |]. cbn. rewrite list_elem_of_singleton.
    unfold d. lia. }
  assert (Hstep : forall path,
            SuperDict.descend (VRef self) (val_of_key k :: path) h2 =
            SuperDict.descend (VRef d) path h2).
  { intros path. eapply descend_present; [exact Hself2 | apply key_of_val_of_key |].
    apply dict_get_set_eq. }
  exists h2. split_and!.
  - cbn [SuperDict.set_m].
    mstep ltac:(by eapply contains_Ok).
    unfold dict_mem. rewrite Hcur.
    mstep ltac:(mstep ltac:(by eapply get_item_Ok); reflexivity).
    rewrite Hnot.
    mstep ltac:(mstep ltac:(reflexivity);
                eapply set_item_Ok; by apply lookup_app_l_Some).
    fold d. fold h1.
    mstep ltac:(eapply get_item_Ok; [exact Hself1 | apply dict_get_set_eq]).
    mstep ltac:(exact Hsub). reflexivity.
  - done.
  - inversion Hr2; subst. unfold is_superdict. fold d. by simplify_option_eq.
  - unfold SuperDict.get_m, except_KeyError.
    change (val_of_key <$> k :: k2 :: rest)
      with (val_of_key k :: (val_of_key <$> k2 :: rest)).
    rewrite Hstep.
    pose proof (descend_tree d h2 (k2 :: rest) (FNode d ch2) (FLeaf value) Hr2)
      as E.
    cbn [root] in E. rewrite E; [done|]. by apply fset_tfind.
  - intros kb Hkb. unfold SuperDict.get_m, except_KeyError. rewrite Hstep.
    cbn [SuperDict.descend]. unfold bind.
    rewrite (subscript_node _ _ _ _ _ Hr2).
    unfold ch2. rewrite fset_other_key; [done|]. cbn. congruence.
  - intros l Hl Hne. rewrite Hframe; [by apply Hold1 | lia |].
    cbn. rewrite list_elem_of_singleton. unfold d. lia.
Qed.

Lemma set_m_replaces_non_superdict_witness :
  let h := [ODict CSuperDict [(KStr "a", VRef 1)];
            ODict CDict [(KStr "b", VInt 1)]] in
  exists h',
    SuperDict.set_m 0 [KStr "a"; KStr "c"] (VInt 2) h = (Ok (VRef 0), h') /\
    h' !! 0 = Some (ODict CSuperDict
                      (dict_set (KStr "a") (VRef (length h)) [(KStr "a", VRef 1)])) /\
    is_superdict h' (VRef (length h)) = true /\
    SuperDict.get_m 0 (val_of_key <$> [KStr "a"; KStr "c"]) h' = (Ok (VInt 2), h') /\
    (forall kb, kb <> KStr "c" ->
       SuperDict.get_m 0 [val_of_key (KStr "a"); val_of_key kb] h' = (Ok VNone, h')) /\
    (forall l, l < length h -> l <> 0 -> h' !! l = h !! l).
Proof.
  intros h.
  apply (set_m_replaces_non_superdict h 0 CSuperDict [(KStr "a", VRef 1)]
           (KStr "a") (KStr "c") [] (VInt 2) (VRef 1)).
  - reflexivity.
  - reflexivity.
  - reflexivity.
  - split; [reflexivity | discriminate].
Defined.

(** ** [update] stores the argument's values, dictionaries included *)

(** An entry is assigned when the receiver has no dictionary under its
    key, whatever the entry's value is. *)
Lemma update_entry_assign_over rec self k v h c es :
  h !! self = Some (ODict c es) ->
  match dict_get k es with
  | Some cur => is_dict h cur = false
  | None => True
  end ->
  SuperDict.update_entry rec self (k, v) h =
    (Ok tt, <[self := ODict c (dict_set k v es)]> h).
Proof.
  intros Hself Hcur. unfold SuperDict.update_entry. cbn [fst snd].
  mstep ltac:(by eapply contains_Ok).
  unfold dict_mem. destruct (dict_get k es) as [cur|] eqn:Ecur.
  - mstep ltac:(mstep ltac:(by eapply get_item_Ok);
                mstep ltac:(reflexivity); mstep ltac:(reflexivity);
                reflexivity).
    rewrite Hcur. cbn [andb negb]. by eapply set_item_Ok.
  - mstep ltac:(reflexivity). cbn [negb]. by eapply set_item_Ok.
Qed.

Lemma for_each_update_assign_over rec self c other :
  NoDup other.*1 ->
  forall es h,
    h !! self = Some (ODict c es) ->
    Forall (fun kv : key * val =>
              match dict_get kv.1 es with
              | Some cur => is_dict h cur = false
              | None => True
              end) other ->
    for_each other (SuperDict.update_entry rec self) h =
      (Ok tt, <[self := ODict c (dict_update_all es other)]> h).
Proof.
  induction other as [|[k v] other IH]; intros Hnd es h Hself Hover.
  - cbn. by rewrite list_insert_id.
  - apply Forall_cons in Hover as [Hk Hover]. cbn [fst] in Hk.
    apply NoDup_cons in Hnd as [Hk_out Hnd]. cbn [for_each].
    mstep ltac:(by eapply update_entry_assign_over).
    erewrite IH; [| done | by eapply lookup_insert_same |].
    + by rewrite list_insert_insert_eq.
    + rewrite Forall_forall in Hover. apply Forall_forall.
      intros [k' v'] Hin. specialize (Hover _ Hin). cbn [fst] in *.
      assert (k' <> k).
      { intros ->. apply Hk_out. apply list_elem_of_fmap. by exists (k, v'). }
      rewrite dict_get_set_ne by done.
      destruct (dict_get k' es) as [cur|]; [|done].
      by erewrite is_dict_insert_dict.
Qed.

(** X19: where the receiver has no dictionary under the keys of the
    argument (the key is absent, or its value is not a dictionary),
    [update] assigns the argument's values as they are: a value of the
    argument that is a dictionary is stored by reference, so the receiver
    and the argument then share that dictionary object. *)
Theorem update_stores_by_reference fuel self a h c es ca ea :
  h !! self = Some (ODict c es) ->
  h !! a = Some (ODict ca ea) ->
  NoDup ea.*1 ->
  (forall k v cur, (k, v) ∈ ea -> dict_get k es = Some cur ->
                   is_dict h cur = false) ->
  exists h' es',
    SuperDict.update (S fuel) self [VRef a] [] h = (Ok VNone, h') /\
    h' = <[self := ODict c es']> h /\
    es' = dict_update_all es ea /\
    (forall k v, (k, v) ∈ ea -> dict_get k es' = Some v) /\
    (forall k, k ∉ ea.*1 -> dict_get k es' = dict_get k es).
Proof.
  intros Hself Ha Hnd Hover.
  exists (<[self := ODict c (dict_update_all es ea)]> h), (dict_update_all es ea).
  split_and!; [| done | done | |].
  - cbn [SuperDict.update].
    mstep ltac:(by eapply dict_update_from_dict).
    cbn [fmap list_fmap]. rewrite dict_update_all_nil by done.
    change (dict_update_all ea []) with ea.
    mstep ltac:(eapply (for_each_update_assign_over _ self c ea Hnd es h Hself)).
    + apply Forall_forall. intros [k v] Hin. cbn [fst].
      destruct (dict_get k es) as [cur|] eqn:Ecur; [|done]. by eapply Hover.
    + reflexivity.
  - intros k v Hin. rewrite dict_get_update_all by done.
    by rewrite (dict_get_elem _ _ _ Hnd Hin).
  - intros k Hk. rewrite dict_get_update_all by done.
    apply dict_get_None in Hk. by rewrite Hk.
Qed.

Lemma update_stores_by_reference_witness :
  let h := [ODict CSuperDict [(KStr "a", VInt 1)];
            ODict CDict [(KStr "a", VRef 2); (KStr "b", VRef 2)];
            ODict CDict [(KStr "y", VInt 2)]] in
  exists h' es',
    SuperDict.update 2 0 [VRef 1] [] h = (Ok VNone, h') /\
    h' = <[0 := ODict CSuperDict es']> h /\
    es' = dict_update_all [(KStr "a", VInt 1)]
            [(KStr "a", VRef 2); (KStr "b", VRef 2)] /\
    (forall k v, (k, v) ∈ [(KStr "a", VRef 2); (KStr "b", VRef 2)] ->
                 dict_get k es' = Some v) /\
    (forall k, k ∉ [(KStr "a", VRef 2); (KStr "b", VRef 2)].*1 ->
               dict_get k es' = dict_get k [(KStr "a", VInt 1)]).
Proof.
  intros h.
  apply (update_stores_by_reference 1 0 1 h CSuperDict [(KStr "a", VInt 1)]
           CDict [(KStr "a", VRef 2); (KStr "b", VRef 2)]).
  - reflexivity.
  - reflexivity.
  - apply (bool_decide_unpack _); vm_compute; reflexivity.
  - intros k v cur Hin Hcur.
    repeat (apply elem_of_cons in Hin as [Hin|Hin];
            [simplify_eq; cbn in Hcur; by simplify_eq|]).
    by apply elem_of_nil in Hin.
Defined.

(** ** [update] merges: the argument's values win *)

Section MergeLookup.
Context (h0 : heap).
Hypothesis h0_ok : heap_ok h0.

(** [update] on a tree of new dictionaries with an argument [a] of the
    original store.  Besides what [update_tree] says, the receiver's
    entries and subtrees under keys that [a] does not have are left as
    they were, and the lookups of [a] are the receiver's afterwards, in
    every later store that keeps the tree and the original objects. *)
Lemma update_tree_lookup t :
  match t with
  | FLeaf _ => True
  | FNode s ch =>
      forall fuel H a ca ea,
        depth t < fuel ->
        realized (length h0) H t ->
        NoDup (locs t) ->
        (forall l, l < length h0 -> H !! l = h0 !! l) ->
        h0 !! a = Some (ODict ca ea) ->
        exists H',
          SuperDict.update fuel s [VRef a] [] H = (Ok VNone, H') /\
          length H' = length H /\
          (forall l, l ∉ locs t -> H' !! l = H !! l) /\
          (exists items',
             H' !! s = Some (ODict CSuperDict items') /\
             (forall k, k ∉ ea.*1 ->
                dict_get k items' = dict_get k (items_of ch)) /\
             (forall k v, (k, v) ∈ ea -> dict_get k ch = None ->
                dict_get k items' = Some v)) /\
          (forall k tk x, k ∉ ea.*1 -> (k, tk) ∈ ch -> x ∈ locs tk ->
             H' !! x = H !! x) /\
          (forall H'',
             (forall l, l < length h0 -> H'' !! l = h0 !! l) ->
             (forall l, l ∈ locs t -> H'' !! l = H' !! l) ->
             same_lookups h0 (VRef a) H'' (VRef s))
  end.
Proof using h0_ok.
  induction t as [v|s ch IH] using ftree_ind'; [done|].
  intros fuel H a ca ea Hfuel Hr Hnd Hold Ha.
  destruct fuel as [|f]; [lia|].
  destruct (h0_ok _ _ _ Ha) as [Hkeys Hrefs].
  assert (Halt : a < length h0) by by eapply lookup_lt_Some.
  inversion Hr as [|? ? Hn0 Hs Hchkeys Hch]; subst.
  assert (Hlow : forall l, l < length h0 -> l ∉ locs (FNode s ch)).
  { intros l Hl Hin. apply (realized_locs _ _ _ _ Hr) in Hin. lia. }
  assert (Hs_in : s ∈ locs (FNode s ch)) by apply list_elem_of_here.
  set (entry_lookup := fun (k : key) (v : val) (H2 : heap) =>
         forall H'',
           (forall l, l < length h0 -> H'' !! l = h0 !! l) ->
           (forall l, l ∈ locs (FNode s ch) -> H'' !! l = H2 !! l) ->
           forall i path w,
             key_of_val i = Some k ->
             SuperDict.descend v path h0 = (Ok w, h0) ->
             is_dict h0 w = false ->
             SuperDict.descend (VRef s) (i :: path) H'' = (Ok w, H'')).
  (* the loop over the entries of the argument *)
  assert (Hloop : forall other H1 items1,
    NoDup other.*1 ->
    Forall (fun kv => forall l', kv.2 = VRef l' -> l' < length h0) other ->
    length H1 = length H ->
    (forall l, l ∉ locs (FNode s ch) -> H1 !! l = H !! l) ->
    H1 !! s = Some (ODict CSuperDict items1) ->
    (forall k, k ∈ other.*1 -> dict_get k items1 = dict_get k (items_of ch)) ->
    (forall k tk x, k ∈ other.*1 -> (k, tk) ∈ ch -> x ∈ locs tk ->
       H1 !! x = H !! x) ->
    exists H2 items2,
      for_each other (SuperDict.update_entry (SuperDict.update f) s) H1 = (Ok tt, H2) /\
      length H2 = length H /\
      (forall l, l ∉ locs (FNode s ch) -> H2 !! l = H !! l) /\
      H2 !! s = Some (ODict CSuperDict items2) /\
      (forall k, k ∉ other.*1 -> dict_get k items2 = dict_get k items1) /\
      (forall k tk x, k ∉ other.*1 -> (k, tk) ∈ ch -> x ∈ locs tk ->
         H2 !! x = H1 !! x) /\
      (forall k v, (k, v) ∈ other -> entry_lookup k v H2) /\
      (forall k v, (k, v) ∈ other -> dict_get k ch = None ->
         dict_get k items2 = Some v)).
  { induction other as [|[k v] other IHo];
      intros H1 items1 Hnd_o Hold_o Hlen1 Hframe1 Hs1 Hitems1 Hkids1.
    { exists H1, items1. split_and!; try done.
      - intros k v Hin. by apply elem_of_nil in Hin.
      - intros k v Hin. by apply elem_of_nil in Hin. }
    apply NoDup_cons in Hnd_o as [Hk_out Hnd_o].
    apply Forall_cons in Hold_o as [Hv_old Hold_o]. cbn [snd] in Hv_old.
    cbn [for_each].
    assert (Hold1 : forall l, l < length h0 -> H1 !! l = h0 !! l).
    { intros l Hl. rewrite Hframe1 by by apply Hlow. by apply Hold. }
    (* the continuation after an assignment [self[k] = v] *)
    assert (Hassign :
      exists H2 items2,
        (set_item s k v ;;; for_each other
           (SuperDict.update_entry (SuperDict.update f) s)) H1 = (Ok tt, H2) /\
        length H2 = length H /\
        (forall l, l ∉ locs (FNode s ch) -> H2 !! l = H !! l) /\
        H2 !! s = Some (ODict CSuperDict items2) /\
        (forall k', k' ∉ ((k, v) :: other).*1 ->
           dict_get k' items2 = dict_get k' items1) /\
        (forall k' tk x, k' ∉ ((k, v) :: other).*1 -> (k', tk) ∈ ch ->
           x ∈ locs tk -> H2 !! x = H1 !! x) /\
        (forall k' v', (k', v') ∈ (k, v) :: other -> entry_lookup k' v' H2) /\
        (forall k' v', (k', v') ∈ (k, v) :: other -> dict_get k' ch = None ->
           dict_get k' items2 = Some v')).
    { destruct (IHo (<[s := ODict CSuperDict (dict_set k v items1)]> H1)
                  (dict_set k v items1))
        as (H2 & items2 & Hrun2 & Hlen2 & Hframe2 & Hs2 & Hitems2 & Hkids2 &
            Hlook2 & Hnew2);
        try done.
      - by rewrite length_insert.
      - intros l Hl. rewrite list_lookup_insert_ne; [by apply Hframe1|].
        intros <-. apply Hl, list_elem_of_here.
      - by eapply lookup_insert_same.
      - intros k' Hk'. rewrite dict_get_set_ne by (intros ->; done).
        apply Hitems1. by apply list_elem_of_further.
      - intros k' tk x Hk' Hkt Hx.
        rewrite list_lookup_insert_ne.
        + eapply Hkids1; [by apply list_elem_of_further | done | done].
        + intros <-. by apply (locs_child_NoDup _ _ _ _ Hnd Hkt).
      - exists H2, items2. split_and!; try done.
        + mstep ltac:(by eapply set_item_Ok). exact Hrun2.
        + intros k' Hk'. cbn in Hk'. apply not_elem_of_cons in Hk' as [Hne Hk'].
          rewrite Hitems2 by done. by apply dict_get_set_ne.
        + intros k' tk x Hk' Hkt Hx. cbn in Hk'.
          apply not_elem_of_cons in Hk' as [Hne Hk'].
          rewrite (Hkids2 k' tk x Hk' Hkt Hx).
          apply list_lookup_insert_ne.
          intros <-. by apply (locs_child_NoDup _ _ _ _ Hnd Hkt).
        + intros k' v' Hin. apply elem_of_cons in Hin as [[= -> ->]|Hin];
            [|by apply Hlook2].
          intros H'' Hold'' Hsame i path w Hi Hpath Hw.
          rewrite (descend_present s CSuperDict items2 i k v path H'');
            [| by rewrite Hsame | done |].
          * eapply descend_frame; [exact Hpath | done].
          * rewrite Hitems2 by done. apply dict_get_set_eq.
        + intros k' v' Hin Hnew. apply elem_of_cons in Hin as [[= -> ->]|Hin];
            [|by apply Hnew2].
          rewrite Hitems2 by done. apply dict_get_set_eq. }
    assert (Hk_items : dict_get k items1 = root <$> dict_get k ch).
    { rewrite Hitems1 by apply list_elem_of_here. apply dict_get_items_of. }
    destruct (dict_get k ch) as [tk|] eqn:Ek; cbn in Hk_items.
    2:{ (* the key is new *)
      destruct Hassign as (H2 & items2 & Hrun2 & Hrest). exists H2, items2.
      split; [|done].
      rewrite <- Hrun2. apply bind_cong.
      unfold SuperDict.update_entry. cbn [fst snd].
      mstep ltac:(by eapply contains_Ok).
      unfold dict_mem. rewrite Hk_items.
      mstep ltac:(reflexivity). reflexivity. }
    assert (Hkt : (k, tk) ∈ ch) by by apply dict_get_Some_elem.
    assert (Hrk : realized (length h0) H tk).
    { rewrite Forall_forall in Hch. apply (Hch _ Hkt). }
    destruct (is_dict H1 (root tk) && is_dict H1 v) eqn:Emerge.
    2:{ (* one of the two is not a dictionary *)
      destruct Hassign as (H2 & items2 & Hrun2 & Hrest). exists H2, items2.
      split; [|done].
      rewrite <- Hrun2. apply bind_cong.
      unfold SuperDict.update_entry. cbn [fst snd].
      mstep ltac:(by eapply contains_Ok).
      unfold dict_mem. rewrite Hk_items.
      mstep ltac:(mstep ltac:(by eapply get_item_Ok);
                  mstep ltac:(reflexivity);
                  mstep ltac:(reflexivity); reflexivity).
      by rewrite Emerge. }
    (* both are dictionaries: merge into the child *)
    clear Hassign.
    apply andb_true_iff in Emerge as [Ecur Ev].
    destruct tk as [v0|lk chk].
    { exfalso. inversion Hrk as [? Hv0 Hv0_old|]; subst. cbn [root] in Ecur.
      rewrite (is_dict_old _ h0 H1 v0 Hv0_old Hold1) in Ecur.
      rewrite (is_dict_old _ h0 H v0 Hv0_old Hold) in Hv0. congruence. }
    cbn [root] in *.
    destruct v as [| | | |a']; try done.
    rewrite (is_dict_old _ h0 H1 (VRef a') Hv_old Hold1) in Ev.
    unfold is_dict in Ev.
    destruct (h0 !! a') as [[ca' ea'|]|] eqn:Ea'; try done.
    assert (Hlk : H1 !! lk = Some (ODict CSuperDict (items_of chk))).
    { rewrite (Hkids1 k (FNode lk chk) lk);
        [by inversion Hrk | apply list_elem_of_here | done | apply list_elem_of_here]. }
    destruct (locs_child_NoDup _ _ _ _ Hnd Hkt) as [Hnd_k Hs_k].
    rewrite Forall_forall in IH. specialize (IH _ Hkt). cbn [snd] in IH.
    destruct (IH f H1 a' ca' ea')
      as (H1' & Hrun1 & Hlen1' & Hframe1' & _ & _ & Hlook1); try done.
    { pose proof (depth_child s _ _ _ Hkt). lia. }
    { eapply realized_frame; [exact Hrk | |].
      - intros l Hl. rewrite Hold1 by done. symmetry. by apply Hold.
      - intros l Hl. eapply Hkids1; [apply list_elem_of_here | done | done]. }
    assert (Hs1' : H1' !! s = Some (ODict CSuperDict items1)).
    { by rewrite Hframe1'. }
    destruct (IHo H1' items1)
      as (H2 & items2 & Hrun2 & Hlen2 & Hframe2 & Hs2 & Hitems2 & Hkids2 &
          Hlook2 & Hnew2);
      try done.
    { lia. }
    { intros l Hl. rewrite Hframe1'; [by apply Hframe1|].
      intros Hin. apply Hl. by eapply locs_child. }
    { intros k' Hk'. apply Hitems1. by apply list_elem_of_further. }
    { intros k' tk' x Hk' Hkt' Hx. rewrite Hframe1'.
      - eapply Hkids1; [by apply list_elem_of_further | done | done].
      - eapply (children_disjoint s ch k' tk' k (FNode lk chk)); try done.
        intros ->. done. }
    exists H2, items2.
    assert (Hentry :
      SuperDict.update_entry (SuperDict.update f) s (k, VRef a') H1 = (Ok tt, H1')).
    { unfold SuperDict.update_entry. cbn [fst snd].
      mstep ltac:(by eapply contains_Ok).
      unfold dict_mem. rewrite Hk_items.
      mstep ltac:(mstep ltac:(by eapply get_item_Ok);
                  mstep ltac:(reflexivity);
                  mstep ltac:(reflexivity); reflexivity).
      unfold is_dict. rewrite Hlk, (Hold1 a') by (by apply Hv_old).
      rewrite Ea'. cbn [andb negb].
      mstep ltac:(by eapply get_item_Ok).
      mstep ltac:(unfold deref; by rewrite Hlk).
      mstep ltac:(exact Hrun1). reflexivity. }
    split_and!; try done.
    - mstep ltac:(exact Hentry). exact Hrun2.
    - intros k' Hk'. cbn in Hk'. apply not_elem_of_cons in Hk' as [Hne Hk'].
      by apply Hitems2.
    - intros k' tk' x Hk' Hkt' Hx. cbn in Hk'.
      apply not_elem_of_cons in Hk' as [Hne Hk'].
      rewrite (Hkids2 k' tk' x Hk' Hkt' Hx). apply Hframe1'.
      by eapply (children_disjoint s ch k' tk' k (FNode lk chk)).
    - intros k' v' Hin. apply elem_of_cons in Hin as [[= -> ->]|Hin];
        [|by apply Hlook2].
      intros H'' Hold'' Hsame i path w Hi Hpath Hw.
      rewrite (descend_present s CSuperDict items2 i k (VRef lk) path H'');
        [| by rewrite Hsame | done |].
      + apply (Hlook1 H''); [done | | done | done].
        intros l Hl. rewrite Hsame by by eapply locs_child.
        by apply (Hkids2 k (FNode lk chk) l).
      + rewrite Hitems2 by done. done.
    - intros k' v' Hin Hnew. apply elem_of_cons in Hin as [[= -> ->]|Hin];
        [congruence | by apply Hnew2]. }
  destruct (Hloop ea H (items_of ch))
    as (H' & items' & Hrun & Hlen' & Hframe' & Hs' & Hitems' & Hkids' & Hlook' &
        Hnew');
    try done.
  exists H'. split_and!; try done.
  - cbn [SuperDict.update].
    mstep ltac:(eapply dict_update_from_dict; rewrite Hold by done; exact Ha).
    cbn [fmap list_fmap]. unfold dict_update_all at 1. cbn [fold_left].
    rewrite dict_update_all_nil by done.
    mstep ltac:(exact Hrun). reflexivity.
  - by exists items'.
  - intros H'' Hold'' Hsame path w Hpath Hw.
    destruct path as [|i path].
    { cbn in Hpath. injection Hpath as <-. unfold is_dict in Hw.
      by rewrite Ha in Hw. }
    cbn [SuperDict.descend] in Hpath. unfold bind in Hpath.
    unfold subscript at 1, bind, deref in Hpath. rewrite Ha in Hpath.
    destruct (key_of_val i) as [k|] eqn:Ei; [|done].
    destruct (dict_get k ea) as [v|] eqn:Ev; [|done].
    unfold ret in Hpath.
    apply (Hlook' k v (dict_get_Some_elem _ _ _ Ev) H''); done.
Qed.

End MergeLookup.



(** On [{'a': {'x': 1}, 'c': 7}] updated with [{'a': {'y': 2}, 'b': 5}]:
    the receiver becomes [{'a': {'x': 1, 'y': 2}, 'c': 7, 'b': 5}], its
    nested dictionary being the object it was. *)
Example update_merge_example :
  let h0 := [ODict CDict [(KStr "a", VRef 1); (KStr "b", VInt 5)];
             ODict CDict [(KStr "y", VInt 2)]] in
  let H := h0 ++ [ODict CSuperDict [(KStr "a", VRef 3); (KStr "c", VInt 7)];
                  ODict CSuperDict [(KStr "x", VInt 1)]] in
  SuperDict.update 3 2 [VRef 0] [] H =
    (Ok VNone,
     h0 ++ [ODict CSuperDict [(KStr "a", VRef 3); (KStr "c", VInt 7);
                              (KStr "b", VInt 5)];
            ODict CSuperDict [(KStr "x", VInt 1); (KStr "y", VInt 2)]]).
Proof. reflexivity. Qed.

(** X22: the new mapping that [_update] returns answers like the argument
    wherever the argument answers: every chain of subscripts that reaches
    a value other than a dictionary in the argument reaches the same value
    in the result; and under the keys that the argument does not have, it
    answers like the receiver. *)
Theorem update_copy_lookups (h : heap) (m other : loc)
    (c co : cls) (es eo : list (key * val)) (n : nat) :
  heap_ok h ->
  h !! m = Some (ODict c es) ->
  nested_depth h n (VRef m) ->
  h !! other = Some (ODict co eo) ->
  forall fuel, n < fuel ->
    exists r h',
      SuperDict._update fuel m (VRef other) h = (Ok (VRef r), h') /\
      length h <= r /\
      same_lookups h (VRef other) h' (VRef r) /\
      (forall i k path w,
         key_of_val i = Some k -> k ∉ eo.*1 ->
         SuperDict.descend (VRef m) (i :: path) h = (Ok w, h) ->
         is_dict h w = false ->
         SuperDict.descend (VRef r) (i :: path) h' = (Ok w, h')).
Proof.
  intros Hok Hm Hdepth Hother fuel Hfuel.
  destruct fuel as [|f]; [lia|].
  assert (Hmlt : m < length h) by by eapply lookup_lt_Some.
  destruct (from_dict_tree h Hok f (VRef m) h)
    as (t & h1 & Hcopy_run & Hr & Hnd & Hfresh & Hle & Hkeep & Hcopy & Hdt);
    try done.
  { apply (nested_depth_mono h n); [lia | done]. }
  { by intros l [= <-]. }
  destruct (copy_flat_node h m t) as (r & ch & -> & c0 & es0 & Hm0 & Hch);
    [unfold is_dict; by rewrite Hm | done |].
  rewrite Hm in Hm0. injection Hm0 as <- <-.
  cbn [root] in Hcopy_run.
  pose proof (update_tree_lookup h Hok (FNode r ch)) as Hupd.
  cbn beta iota in Hupd.
  destruct (Hupd (S f) h1 other co eo)
    as (h' & Hrun & Hlen & Hframe & (items' & Hs' & Hitems' & _) & Hkids & Hlook);
    try done.
  { lia. }
  assert (Hold' : forall l, l < length h -> h' !! l = h !! l).
  { intros l Hl. rewrite Hframe; [by apply Hkeep|].
    intros Hin. apply Hfresh in Hin. lia. }
  exists r, h'. split_and!.
  - unfold SuperDict._update.
    mstep ltac:(exact Hcopy_run). mstep ltac:(exact Hrun). reflexivity.
  - apply Hfresh, list_elem_of_here.
  - by apply Hlook.
  - intros i k path w Hi Hk Hpath Hw.
    cbn [SuperDict.descend] in Hpath. unfold bind in Hpath.
    unfold subscript at 1, bind, deref in Hpath. rewrite Hm, Hi in Hpath.
    destruct (dict_get k es) as [v|] eqn:Ev; [|done]. unfold ret in Hpath.
    destruct (copy_lookup _ _ _ _ _ Hch Ev) as (tk & Htk & Hck).
    assert (Hkt : (k, tk) ∈ ch) by by apply dict_get_Some_elem.
    assert (Hrk : realized (length h) h' tk).
    { eapply realized_frame; [by eapply realized_child | |].
      - intros l Hl. rewrite Hold' by done. symmetry. by apply Hkeep.
      - intros l Hl. by eapply Hkids. }
    rewrite (descend_present r CSuperDict items' i k (root tk));
      [| done | done |].
    + by apply (copy_descend h (length h) h' path Hold' v tk w).
    + rewrite Hitems' by done. by rewrite dict_get_items_of, Htk.
Qed.

Lemma update_copy_lookups_witness :
  let h := [ODict CSuperDict [(KStr "a", VRef 1); (KStr "b", VInt 1)];
            ODict CDict [(KStr "x", VInt 1)];
            ODict CDict [(KStr "a", VRef 3)];
            ODict CDict [(KStr "y", VInt 2)]] in
  exists r h',
    SuperDict._update 3 0 (VRef 2) h = (Ok (VRef r), h') /\
    length h <= r /\
    same_lookups h (VRef 2) h' (VRef r) /\
    (forall i k path w,
       key_of_val i = Some k -> k ∉ [(KStr "a", VRef 3)].*1 ->
       SuperDict.descend (VRef 0) (i :: path) h = (Ok w, h) ->
       is_dict h w = false ->
       SuperDict.descend (VRef r) (i :: path) h' = (Ok w, h')).
Proof.
  intros h.
  apply (update_copy_lookups h 0 2 CSuperDict CDict
           [(KStr "a", VRef 1); (KStr "b", VInt 1)] [(KStr "a", VRef 3)] 2).
  - intros l c es Hl.
    do 4 (destruct l as [|l]; [injection Hl as <- <-; split;
      [apply (bool_decide_unpack _); vm_compute; reflexivity
      | apply Forall_forall; intros [k v] Hin l' Hv; cbn in Hv; subst v;
        repeat (apply elem_of_cons in Hin as [Hin|Hin]; [simplify_eq; cbn; lia|]);
        by apply elem_of_nil in Hin] |]).
    done.
  - reflexivity.
  - cbn. repeat constructor.
  - reflexivity.
  - lia.
Defined.

(** ** [_update] shares the argument's values *)

(** X20: [_update] copies the receiver but not the argument: for any
    argument, under every key of the argument that the receiver lacks, the
    new mapping holds the argument's value itself, so a dictionary found
    there is shared between the result and the argument.  The objects that
    existed before the call are unchanged. *)
Theorem update_copy_shares_argument (h : heap) (m other : loc)
    (c co : cls) (es eo : list (key * val)) (n : nat) :
  heap_ok h ->
  h !! m = Some (ODict c es) ->
  nested_depth h n (VRef m) ->
  h !! other = Some (ODict co eo) ->
  forall fuel, n < fuel ->
    exists r h' es',
      SuperDict._update fuel m (VRef other) h = (Ok (VRef r), h') /\
      length h <= r /\
      h' !! r = Some (ODict CSuperDict es') /\
      (forall k v, (k, v) ∈ eo -> k ∉ es.*1 -> dict_get k es' = Some v) /\
      (forall k b, (k, VRef b) ∈ eo -> b < length h /\ h' !! b = h !! b) /\
      (forall l, l < length h -> h' !! l = h !! l).
Proof.
  intros Hok Hm Hdepth Hother fuel Hfuel.
  destruct fuel as [|f]; [lia|].
  assert (Hmlt : m < length h) by by eapply lookup_lt_Some.
  destruct (from_dict_tree h Hok f (VRef m) h)
    as (t & h1 & Hcopy_run & Hr & Hnd & Hfresh & Hle & Hkeep & Hcopy & Hdt);
    try done.
  { apply (nested_depth_mono h n); [lia | done]. }
  { by intros l [= <-]. }
  destruct (copy_flat_node h m t) as (r & ch & -> & c0 & es0 & Hm0 & Hch);
    [unfold is_dict; by rewrite Hm | done |].
  rewrite Hm in Hm0. injection Hm0 as <- <-.
  cbn [root] in Hcopy_run.
  pose proof (update_tree_lookup h Hok (FNode r ch)) as Hupd.
  cbn beta iota in Hupd.
  destruct (Hupd (S f) h1 other co eo)
    as (h' & Hrun & Hlen & Hframe & (items' & Hs' & _ & Hnew) & _ & _);
    try done.
  { lia. }
  assert (Hold' : forall l, l < length h -> h' !! l = h !! l).
  { intros l Hl. rewrite Hframe; [by apply Hkeep|].
    intros Hin. apply Hfresh in Hin. lia. }
  destruct (Hok _ _ _ Hother) as [_ Hrefs_o].
  exists r, h', items'. split_and!.
  - unfold SuperDict._update.
    mstep ltac:(exact Hcopy_run). mstep ltac:(exact Hrun). reflexivity.
  - apply Hfresh, list_elem_of_here.
  - done.
  - intros k v Hin Hk. apply Hnew; [done|].
    apply dict_get_None. by rewrite <- (copy_keys _ _ _ Hch).
  - intros k b Hin. rewrite Forall_forall in Hrefs_o.
    assert (b < length h) by by apply (Hrefs_o _ Hin).
    split; [done | by apply Hold'].
  - done.
Qed.

(** [m = {'a': {'x': 1}}] and [other = {'a': {'y': 2}, 'c': {'z': 3}}]:
    the two share the key ['a'], and the result holds [other['c']]
    itself. *)
Lemma update_copy_shares_argument_witness :
  let h := [ODict CSuperDict [(KStr "a", VRef 1)];
            ODict CDict [(KStr "x", VInt 1)];
            ODict CDict [(KStr "a", VRef 3); (KStr "c", VRef 4)];
            ODict CDict [(KStr "y", VInt 2)];
            ODict CDict [(KStr "z", VInt 3)]] in
  exists r h' es',
    SuperDict._update 3 0 (VRef 2) h = (Ok (VRef r), h') /\
    length h <= r /\
    h' !! r = Some (ODict CSuperDict es') /\
    (forall k v, (k, v) ∈ [(KStr "a", VRef 3); (KStr "c", VRef 4)] ->
                 k ∉ [(KStr "a", VRef 1)].*1 -> dict_get k es' = Some v) /\
    (forall k b, (k, VRef b) ∈ [(KStr "a", VRef 3); (KStr "c", VRef 4)] ->
                 b < length h /\ h' !! b = h !! b) /\
    (forall l, l < length h -> h' !! l = h !! l).
Proof.
  intros h.
  apply (update_copy_shares_argument h 0 2 CSuperDict CDict
           [(KStr "a", VRef 1)] [(KStr "a", VRef 3); (KStr "c", VRef 4)] 2).
  - intros l c es Hl.
    do 5 (destruct l as [|l]; [injection Hl as <- <-; split;
      [apply (bool_decide_unpack _); vm_compute; reflexivity
      | apply Forall_forall; intros [k v] Hin l' Hv; cbn in Hv; subst v;
        repeat (apply elem_of_cons in Hin as [Hin|Hin]; [simplify_eq; cbn; lia|]);
        by apply elem_of_nil in Hin] |]).
    done.
  - reflexivity.
  - cbn. repeat constructor.
  - reflexivity.
  - lia.
Defined.

(** The same call, run: the result is a new [SuperDict] whose ['a'] is the
    merged copy of [m['a']] and whose ['c'] is the object [other['c']]. *)
Example update_shares_argument_example :
  let h := [ODict CSuperDict [(KStr "a", VRef 1)];
            ODict CDict [(KStr "x", VInt 1)];
            ODict CDict [(KStr "a", VRef 3); (KStr "c", VRef 4)];
            ODict CDict [(KStr "y", VInt 2)];
            ODict CDict [(KStr "z", VInt 3)]] in
  exists r h',
    SuperDict._update 3 0 (VRef 2) h = (Ok (VRef r), h') /\
    h' !! r = Some (ODict CSuperDict [(KStr "a", VRef 6); (KStr "c", VRef 4)]) /\
    h' !! 6 = Some (ODict CSuperDict [(KStr "x", VInt 1); (KStr "y", VInt 2)]) /\
    h' !! 4 = Some (ODict CDict [(KStr "z", VInt 3)]).
Proof. intros h. do 2 eexists. split; [vm_compute; reflexivity|]. done. Qed.

(** ** [to_dictup] on a tree *)

(** X23: for a receiver that is a tree of [SuperDict]s, [to_dictup] returns
    one new flat [SuperDict], whose entries are exactly the leaves of the
    tree, in depth-first order, each under the tuple of the keys that lead
    to it (a tuple of one key for an entry of the receiver itself); nothing
    else in the store changes. *)
Theorem to_dictup_leaves n0 h self ch :
  realized n0 h (FNode self ch) ->
  exists fuel0, forall fuel, fuel0 <= fuel ->
    SuperDict.to_dictup fuel self h =
      (Ok (VRef (length h)),
       h ++ [ODict CSuperDict (tuple_items (tleaves (FNode self ch)))]) /\
    NoDup (tuple_items (tleaves (FNode self ch))).*1.
Proof.
  intros Hr. set (t := FNode self ch) in *.
  exists (S (depth t)). intros fuel Hfuel.
  pose proof (tleaves_prefix_free _ _ _ Hr) as [Hfree _].
  assert (Hkeys : NoDup (tuple_items (tleaves t)).*1)
    by by apply tuple_items_keys_NoDup.
  split; [|done].
  assert (Hlocs : forall l, l ∈ locs t -> l < length h).
  { intros l Hl. by apply (realized_locs _ _ _ _ Hr). }
  assert (Hn0 : n0 <= self /\ self < length h).
  { apply (realized_locs _ _ _ _ Hr). apply list_elem_of_here. }
  set (H := h ++ [ODict CSuperDict []]).
  assert (HrH : realized n0 H t).
  { eapply realized_frame; [exact Hr | |].
    - intros l Hl. unfold H. apply lookup_app_l. lia.
    - intros l Hl. unfold H. apply lookup_app_l. by apply Hlocs. }
  assert (Hflat : tflat [] t = tuple_items (tleaves t)) by by rewrite tflat_tleaves.
  unfold SuperDict.to_dictup. mstep ltac:(reflexivity). fold H.
  change (VRef self) with (root t).
  rewrite (dicts_to_tup_tree n0 (length h) t fuel [] H CSuperDict []);
    [| lia | done | | lia | by apply lookup_alloc].
  - rewrite dict_update_all_nil by by rewrite Hflat.
    rewrite Hflat. unfold H. by rewrite insert_alloc.
  - intros Hin. apply Hlocs in Hin. lia.
Qed.

Lemma to_dictup_leaves_witness :
  let h := [ODict CSuperDict [(KStr "a", VRef 1); (KStr "z", VInt 9)];
            ODict CSuperDict [(KStr "b", VInt 1); (KStr "c", VNone)]] in
  let ch := [(KStr "a", FNode 1 [(KStr "b", FLeaf (VInt 1));
                                 (KStr "c", FLeaf VNone)]);
             (KStr "z", FLeaf (VInt 9))] in
  exists fuel0, forall fuel, fuel0 <= fuel ->
    SuperDict.to_dictup fuel 0 h =
      (Ok (VRef (length h)),
       h ++ [ODict CSuperDict (tuple_items (tleaves (FNode 0 ch)))]) /\
    NoDup (tuple_items (tleaves (FNode 0 ch))).*1.
Proof.
  intros h ch. apply (to_dictup_leaves 0 h 0 ch). solve_realized.
Defined.

(** [{'a': {'b': 1, 'c': None}, 'z': 9}.to_dictup()] is
    [{('a', 'b'): 1, ('a', 'c'): None, ('z',): 9}]. *)
Example to_dictup_example :
  let h := [ODict CSuperDict [(KStr "a", VRef 1); (KStr "z", VInt 9)];
            ODict CSuperDict [(KStr "b", VInt 1); (KStr "c", VNone)]] in
  SuperDict.to_dictup 3 0 h =
    (Ok (VRef 2),
     h ++ [ODict CSuperDict [(KTuple [KStr "a"; KStr "b"], VInt 1);
                             (KTuple [KStr "a"; KStr "c"], VNone);
                             (KTuple [KStr "z"], VInt 9)]]).
Proof. reflexivity. Qed.

(** ** [list_reverse] on values that cannot be inverted *)

Lemma hash_all_outcome xs h :
  (exists ks, SuperDict.hash_all xs h = (Ok ks, h) /\
              Forall (fun x => is_Some (key_of_val x)) xs) \/
  (SuperDict.hash_all xs h = (Raise TypeError, h) /\
   exists x, x ∈ xs /\ key_of_val x = None).
Proof.
  induction xs as [|x xs IH].
  - left. by exists [].
  - cbn [SuperDict.hash_all].
    destruct (key_of_val x) as [k|] eqn:Ek.
    + assert (Hx : hash x h = (Ok k, h)) by (unfold hash; by rewrite Ek).
      destruct IH as [(ks & Hks & Hall)|[Hks (y & Hy & Hnone)]].
      * left. exists (k :: ks). split.
        -- mstep ltac:(exact Hx). mstep ltac:(exact Hks). reflexivity.
        -- constructor; [by eexists | done].
      * right. split.
        -- mstep ltac:(exact Hx). by apply bind_Raise.
        -- exists y. split; [by apply list_elem_of_further | done].
    + right. split.
      * apply bind_Raise. unfold hash. by rewrite Ek.
      * exists x. split; [apply list_elem_of_here | done].
Qed.

Lemma gather_outcome vs h :
  (forall l, VRef l ∈ vs -> l < length h) ->
  (exists ks, SuperDict.gather vs h = (Ok ks, h)) \/
  SuperDict.gather vs h = (Raise TypeError, h).
Proof.
  induction vs as [|v vs IH]; intros Hrefs.
  - left. by exists [].
  - assert (Hrefs' : forall l, VRef l ∈ vs -> l < length h).
    { intros l Hl. by apply Hrefs, list_elem_of_further. }
    specialize (IH Hrefs'). cbn [SuperDict.gather].
    assert (Hiter : (exists xs, iter_val v h = (Ok xs, h)) \/
                    iter_val v h = (Raise TypeError, h)).
    { destruct v as [| z | s | xs | l]; try (by right); try (left; by eexists).
      destruct (lookup_lt_is_Some_2 h l) as [o Ho];
        [apply Hrefs, list_elem_of_here|].
      left. unfold iter_val, bind, deref. rewrite Ho. destruct o; by eexists. }
    destruct Hiter as [[xs Hxs]| Hraise]; [|right; by apply bind_Raise].
    destruct (hash_all_outcome xs h) as [(ks & Hks & _)|[Hks _]].
    + destruct IH as [[ks' Hks']|Hraise'].
      * left. exists (ks ++ ks').
        mstep ltac:(exact Hxs). mstep ltac:(exact Hks). mstep ltac:(exact Hks').
        reflexivity.
      * right. mstep ltac:(exact Hxs). mstep ltac:(exact Hks).
        by apply bind_Raise.
    + right. mstep ltac:(exact Hxs). by apply bind_Raise.
Qed.

Lemma gather_raises vs h v :
  (forall l, VRef l ∈ vs -> l < length h) ->
  v ∈ vs ->
  (v = VNone \/ (exists z, v = VInt z) \/
   exists l xs x, v = VRef l /\ h !! l = Some (OList xs) /\ x ∈ xs /\
                  key_of_val x = None) ->
  SuperDict.gather vs h = (Raise TypeError, h).
Proof.
  induction vs as [|v0 vs IH]; intros Hrefs Hin Hbad.
  { by apply elem_of_nil in Hin. }
  assert (Hrefs' : forall l, VRef l ∈ vs -> l < length h).
  { intros l Hl. by apply Hrefs, list_elem_of_further. }
  destruct (gather_outcome (v0 :: vs) h Hrefs) as [[ks Hks]|Hraise]; [|done].
  exfalso. cbn [SuperDict.gather] in Hks.
  apply bind_inv_Ok in Hks as (xs & h1 & Hxs & Hks).
  apply bind_inv_Ok in Hks as (ks1 & h2 & Hks1 & Hks).
  apply bind_inv_Ok in Hks as (ks2 & h3 & Hks2 & _).
  apply elem_of_cons in Hin as [->|Hin].
  - destruct Hbad as [->|[[z ->]|(l & ys & x & -> & Hl & Hx & Hnone)]];
      try done.
    unfold iter_val, bind, deref in Hxs. rewrite Hl in Hxs.
    injection Hxs as <- <-.
    destruct (hash_all_outcome ys h) as [(ks' & _ & Hall)|[Hr _]];
      [|congruence].
    rewrite Forall_forall in Hall. destruct (Hall _ Hx) as [k Hk]. congruence.
  - assert (h1 = h) as -> by by eapply pure_iter_val.
    assert (h2 = h) as ->.
    { destruct (hash_all_outcome xs h) as [(ks' & Hr & _)|[Hr _]]; congruence. }
    rewrite (IH Hrefs' Hin Hbad) in Hks2. done.
Qed.

(** X24: [list_reverse] needs values it can iterate over, with hashable
    elements: when a value of the receiver is [None] or an integer, or is a
    list that holds an unhashable element (a list or a dictionary), the
    call raises [TypeError] before it has created anything, so the store is
    left exactly as it was. *)
Theorem list_reverse_type_error set_order h self c es k v :
  h !! self = Some (ODict c es) ->
  (forall k l, (k, VRef l) ∈ es -> l < length h) ->
  (k, v) ∈ es ->
  (v = VNone \/ (exists z, v = VInt z) \/
   exists l xs x, v = VRef l /\ h !! l = Some (OList xs) /\ x ∈ xs /\
                  key_of_val x = None) ->
  SuperDict.list_reverse set_order self h = (Raise TypeError, h).
Proof.
  intros Hself Hrefs Hin Hbad. unfold SuperDict.list_reverse.
  mstep ltac:(by eapply get_items_Ok).
  apply bind_Raise. apply (gather_raises es.*2 h v).
  - intros l Hl. apply list_elem_of_fmap in Hl as ([k' v'] & Hv' & Hl).
    cbn in Hv'. subst v'. by eapply Hrefs.
  - apply list_elem_of_fmap. by exists (k, v).
  - done.
Qed.

Lemma list_reverse_type_error_witness :
  let h := [ODict CSuperDict [(KStr "x", VRef 1); (KStr "y", VRef 2)];
            OList [VStr "a"];
            OList [VStr "b"; VRef 1]] in
  SuperDict.list_reverse set_order_ref 0 h = (Raise TypeError, h).
Proof.
  intros h.
  apply (list_reverse_type_error set_order_ref h 0 CSuperDict
           [(KStr "x", VRef 1); (KStr "y", VRef 2)] (KStr "y") (VRef 2)).
  - reflexivity.
  - intros k l Hin.
    repeat (apply elem_of_cons in Hin as [Hin|Hin]; [simplify_eq; cbn; lia|]).
    by apply elem_of_nil in Hin.
  - apply list_elem_of_further, list_elem_of_here.
  - right. right. exists 2, [VStr "b"; VRef 1], (VRef 1).
    split_and!; [done | done | | done].
    apply list_elem_of_further, list_elem_of_here.
Defined.
